(** * pss-backend: the route deviation engine ([internal/route])

    A shallow embedding of the scoring and search code of package [route]
    (Haversine, CalculateDeviation, groupStopsByParticipant,
    allInterleavings, deviationForStops, buildSegmentsFromStops,
    minDistanceToSegment and Search) and of the queries that hand it its
    routes (fetchSearchableRoutes, fetchRouteStops and
    fetchRoutesWithDetails); the properties the specification states about
    the scoring and search code; and further properties of both.

    The scoring functions are those of [internal/route/calculations.go]
    (the older [internal/route/route.go] holds the same text).  [Route] and
    [Search] are those of the revision of [route.go] that carries
    [MaxDeviation] and tests it in [Search]; the older revision has neither
    the field nor the test.

    Conventions of the embedding.
    - Go's [float64] is the kernel's binary64 type [float]; [+ - * /],
      [math.Sqrt] and the comparisons are the IEEE-754 operations of
      [PrimFloat], each rounded on its own (no fused multiply-add, as on
      amd64).
    - [math.Sin], [math.Cos] and [math.Atan2] belong to Go's library, not to
      this repository: they are the fields of a [MathLib] record that the
      functions take as a parameter.
    - [sort.Slice] is library code as well: [Search] takes the sorting
      routine as a parameter, and the theorems about [Search] assume the
      contract its documentation states.
    - slices are lists, [map[key]int] is a [gmap string nat], indices and
      lengths are [nat], the [int] cap of [allInterleavings] is a [Z].
    - the database is given by what each query returns: the error of
      [db.QueryContext], or rows that [Scan] decodes or rejects and the
      error of [rows.Err()]; an [error] is its text; [uuid.Parse] is a
      parameter. *)

From Stdlib Require Import Floats ZArith Lia Bool Ascii String Sorted.
From stdpp Require Import base list gmap strings.

Local Open Scope Z_scope.
Local Open Scope nat_scope.

(** ** Data model *)

(** [uuid.UUID] is [[16]byte]. *)
Definition UUID := list Byte.byte.

Definition hex_digit (n : N) : ascii :=
  match n with
  | 0 => "0" | 1 => "1" | 2 => "2" | 3 => "3" | 4 => "4" | 5 => "5"
  | 6 => "6" | 7 => "7" | 8 => "8" | 9 => "9" | 10 => "a" | 11 => "b"
  | 12 => "c" | 13 => "d" | 14 => "e" | _ => "f"
  end%N%char.

Fixpoint hex_encode (bs : list Byte.byte) : string :=
  match bs with
  | [] => EmptyString
  | b :: bs' =>
      let n := Byte.to_N b in
      String (hex_digit (n / 16)) (String (hex_digit (n mod 16)) (hex_encode bs'))
  end.

(** [UUID.String]: the canonical text xxxxxxxx-xxxx-xxxx-xxxx-xxxxxxxxxxxx. *)
Definition UUID_String (u : UUID) : string :=
  (hex_encode (take 4 u) +:+ "-" +:+ hex_encode (take 2 (drop 4 u)) +:+ "-" +:+
   hex_encode (take 2 (drop 6 u)) +:+ "-" +:+ hex_encode (take 2 (drop 8 u)) +:+ "-" +:+
   hex_encode (drop 10 u))%string.

Record Stop := {
  ID : UUID;
  ApplicationID : option UUID;      (* nil = creator's stop *)
  Position : N;
  Lat : float;
  Lng : float;
  PlaceID : option string;
  FormattedAddress : option string;
  Status : string
}.

Record Participant := {
  UserID : UUID;
  Name : string
}.

Record Route := {
  RouteID : UUID;
  CreatorID : UUID;
  CreatorName : string;
  Description : option string;
  StartLat : float;
  StartLng : float;
  StartPlaceID : option string;
  StartFormattedAddress : option string;
  EndLat : float;
  EndLng : float;
  EndPlaceID : option string;
  EndFormattedAddress : option string;
  MaxPassengers : N;
  MaxDeviation : float;
  AvailablePassengers : N;
  LeavingAt : option Z;
  Stops : list Stop;
  Participants : list Participant
}.

Record SearchStopInput := {
  SLat : float;
  SLng : float
}.

Record SearchInput := {
  InStartLat : float;
  InStartLng : float;
  InEndLat : float;
  InEndLng : float;
  InStops : list SearchStopInput
}.

(** ** Constants *)

(** [float64(math.Pi)]. *)
Definition Pi : float := 0x1.921fb54442d18p+1%float.
(** [math.MaxFloat64]. *)
Definition MaxFloat64 : float := 0x1.fffffffffffffp+1023%float.
Definition earthRadiusKm : float := 6371%float.
Definition maxInterleavings : Z := 500%Z.

(** The functions of Go's [math] package the code calls. *)
Record MathLib := {
  Sin : float -> float;
  Cos : float -> float;
  Atan2 : float -> float -> float
}.

(** ** The scoring functions ([calculations.go]) *)

Section Scoring.
Variable M : MathLib.

Definition Haversine (lat1 lng1 lat2 lng2 : float) : float :=
  let dLat := ((lat2 - lat1) * Pi / 180)%float in
  let dLng := ((lng2 - lng1) * Pi / 180)%float in
  let a := (Sin M (dLat / 2) * Sin M (dLat / 2) +
            Cos M (lat1 * Pi / 180) * Cos M (lat2 * Pi / 180) *
            Sin M (dLng / 2) * Sin M (dLng / 2))%float in
  let c := (2 * Atan2 M (sqrt a) (sqrt (1 - a)))%float in
  (earthRadiusKm * c)%float.

(** One iteration of the loop of [minDistanceToSegment]. *)
Definition minDistance_step (lat lng : float) (min : float) (seg : float * float) : float :=
  let d := Haversine lat lng (fst seg) (snd seg) in
  if (d <? min)%float then d else min.

Definition minDistanceToSegment (lat lng : float) (segments : list (float * float)) : float :=
  fold_left (minDistance_step lat lng) segments MaxFloat64.

(** The loop state of [buildSegmentsFromStops]: [segs], [prevLat], [prevLng]. *)
Definition buildSegments_step (st : list (float * float) * float * float) (s : Stop)
  : list (float * float) * float * float :=
  let '(segs, prevLat, prevLng) := st in
  (segs ++ [(((prevLat + Lat s) / 2)%float, ((prevLng + Lng s) / 2)%float)], Lat s, Lng s).

Definition buildSegmentsFromStops (startLat startLng endLat endLng : float)
    (stops : list Stop) : list (float * float) :=
  match stops with
  | [] => [(((startLat + endLat) / 2)%float, ((startLng + endLng) / 2)%float)]
  | _ =>
      let '(segs, prevLat, prevLng) :=
        fold_left buildSegments_step stops ([], startLat, startLng) in
      segs ++ [(((prevLat + endLat) / 2)%float, ((prevLng + endLng) / 2)%float)]
  end.

Definition deviationForStops (startLat startLng endLat endLng : float)
    (stops : list Stop) (search : SearchInput) : float :=
  let segments := buildSegmentsFromStops startLat startLng endLat endLng stops in
  fold_left (fun dev us => (dev + minDistanceToSegment (SLat us) (SLng us) segments)%float)
            (InStops search) 0%float.

End Scoring.

(** The coordinate-wise midpoint of two points, as the specification words
    it; [buildSegmentsFromStops] writes the expression out at each use. *)
Definition midpoint (p q : float * float) : float * float :=
  (((fst p + fst q) / 2)%float, ((snd p + snd q) / 2)%float).

(** ** Grouping stops by contributor *)

(** The map key of a stop: the text "creator", or the application id's
    canonical text. *)
Definition stop_key (s : Stop) : string :=
  match ApplicationID s with
  | Some u => UUID_String u
  | None => "creator"%string
  end.

(** One iteration of the loop of [groupStopsByParticipant] over the state
    ([ordered], [seen]).  [ordered[idx] = append(ordered[idx], s)] is
    [alter]; Lemma [group_loop_in_range] shows [idx] is always in range. *)
Definition group_step (st : list (list Stop) * gmap string nat) (s : Stop)
  : list (list Stop) * gmap string nat :=
  let '(ordered, seen) := st in
  let k := stop_key s in
  match seen !! k with
  | Some idx => (alter (λ g, g ++ [s]) idx ordered, seen)
  | None =>
      let idx := length ordered in
      (alter (λ g, g ++ [s]) idx (ordered ++ [[]]), <[k := idx]> seen)
  end.

Definition groupStopsByParticipant (stops : list Stop) : list (list Stop) :=
  fst (fold_left group_step stops ([], ∅)).

(** ** Enumerating interleavings *)

Definition totalLen (groups : list (list Stop)) : nat :=
  fold_left (λ n g, n + length g) groups 0.

(** The variables the closure [gen] captures and mutates. *)
Record genState := {
  result : list (list Stop);
  indices : list nat;
  current : list Stop
}.

Section Gen.
Variable groups : list (list Stop).
Variable max : Z.

(** [done]: no group has an unconsumed stop. *)
Definition gen_done (st : genState) : bool :=
  forallb (λ g, negb (indices st !!! g <? length (groups !!! g)))
          (seq 0 (length groups)).

(** The body of the second [for g := range groups] loop, for one [g];
    [rec] is the recursive call [gen()].  [groups[g] !! indices[g]] is
    [Some x] exactly when [indices[g] < len(groups[g])]. *)
Definition gen_branch (rec : genState -> option genState) (st : genState) (g : nat)
  : option genState :=
  match (groups !!! g) !! (indices st !!! g) with
  | Some x =>
      let st1 := {| result := result st;
                    indices := <[g := S (indices st !!! g)]> (indices st);
                    current := current st ++ [x] |} in
      match rec st1 with
      | Some st2 =>
          Some {| result := result st2;
                  indices := <[g := pred (indices st2 !!! g)]> (indices st2);
                  current := take (length (current st2) - 1) (current st2) |}
      | None => None
      end
  | None => Some st
  end.

Fixpoint gen_loop (rec : genState -> option genState) (gs : list nat) (st : genState)
  : option genState :=
  match gs with
  | [] => Some st
  | g :: gs' =>
      match gen_branch rec st g with
      | Some st' => gen_loop rec gs' st'
      | None => None
      end
  end.

(** The closure [gen]; [fuel] bounds the recursion depth and [None] means
    it ran out (Lemma [gen_spec]: it never does from [S (totalLen groups)]). *)
Fixpoint gen (fuel : nat) (st : genState) : option genState :=
  match fuel with
  | O => None
  | S fuel' =>
      if (max <=? Z.of_nat (length (result st)))%Z then Some st
      else if gen_done st then
        Some {| result := result st ++ [current st];
                indices := indices st;
                current := current st |}
      else gen_loop (gen fuel') (seq 0 (length groups)) st
  end.

Definition gen_init : genState :=
  {| result := []; indices := replicate (length groups) 0; current := [] |}.

End Gen.

Definition allInterleavings_fuel (fuel : nat) (groups : list (list Stop)) (max : Z)
  : option (list (list Stop)) :=
  match groups with
  | [] => Some []
  | [g] => Some [g]
  | _ => result <$> gen groups max fuel (gen_init groups)
  end.

Definition allInterleavings (groups : list (list Stop)) (max : Z) : list (list Stop) :=
  default [] (allInterleavings_fuel (S (totalLen groups)) groups max).

(** ** Results of the search *)

(** The local type [routeWithDev] of [Search]. *)
Record routeWithDev := {
  route : Route;
  dev : float
}.

(** What [fetchSearchableRoutes] hands back: the routes, or an error. *)
Inductive fetched (A : Type) :=
  | Fetched (a : A)
  | FetchError (msg : string).
Arguments Fetched {A} a.
Arguments FetchError {A} msg.

(** ** The deviation of a route *)

Section Deviation.
Variable M : MathLib.

Definition minStopDev_step (route : Route) (search : SearchInput)
    (minStopDev : float) (ordered : list Stop) : float :=
  let d := deviationForStops M (StartLat route) (StartLng route)
             (EndLat route) (EndLng route) ordered search in
  if (d <? minStopDev)%float then d else minStopDev.

Definition CalculateDeviation (route : Route) (search : SearchInput) : float :=
  let baseDev :=
    (Haversine M (InStartLat search) (InStartLng search) (StartLat route) (StartLng route) +
     Haversine M (InEndLat search) (InEndLng search) (EndLat route) (EndLng route))%float in
  let groups := groupStopsByParticipant (Stops route) in
  let orderings := allInterleavings groups maxInterleavings in
  if length orderings =? 0 then
    (baseDev + deviationForStops M (StartLat route) (StartLng route)
                 (EndLat route) (EndLng route) (Stops route) search)%float
  else
    let minStopDev := fold_left (minStopDev_step route search) orderings MaxFloat64 in
    (baseDev + minStopDev)%float.

(** ** Search *)

(** One iteration of the scoring loop of [Search]; [dev > MaxDeviation] is
    [MaxDeviation <? dev]. *)
Definition Search_step (search : SearchInput) (withDev : list routeWithDev) (r : Route)
  : list routeWithDev :=
  let d := CalculateDeviation r search in
  if (MaxDeviation r <? d)%float then withDev
  else withDev ++ [{| route := r; dev := d |}].

Definition dev_less (a b : routeWithDev) : bool := (dev a <? dev b)%float.

(** [sort.Slice], applied to the comparison of two elements. *)
Variable sort_Slice :
  (routeWithDev -> routeWithDev -> bool) -> list routeWithDev -> list routeWithDev.

(** [Search]; [routes] is what [fetchSearchableRoutes] returned. *)
Definition Search (routes : fetched (list Route)) (search : SearchInput)
  : fetched (list Route) :=
  match routes with
  | FetchError msg => FetchError msg
  | Fetched routes =>
      let withDev := fold_left (Search_step search) routes [] in
      Fetched (map route (sort_Slice dev_less withDev))
  end.

End Deviation.

(** ** Vocabulary of the specification *)

(** The coordinates of a stop. *)
Definition stop_point (s : Stop) : float * float := (Lat s, Lng s).

(** The walk start, stop_1, ..., stop_n, end. *)
Definition walk (start finish : float * float) (stops : list Stop) : list (float * float) :=
  start :: map stop_point stops ++ [finish].

(** The midpoints of the consecutive pairs of a list of points. *)
Fixpoint legs (pts : list (float * float)) : list (float * float) :=
  match pts with
  | p :: (q :: _) as rest => midpoint p q :: legs rest
  | _ => []
  end.

(** Every index stored in [seen] points into [ordered]. *)
Definition seen_in_range (st : list (list Stop) * gmap string nat) : Prop :=
  forall k idx, snd st !! k = Some idx -> idx < length (fst st).

(** [Interleaving gs l]: [l] is an order-preserving merge of the lists
    [gs].  Either every list is exhausted and [l] is empty, or the head of
    [l] is the head of one of the lists and the rest of [l] merges what is
    left. *)
Inductive Interleaving : list (list Stop) -> list Stop -> Prop :=
  | Interleaving_nil gs :
      Forall (λ g, g = []) gs -> Interleaving gs []
  | Interleaving_cons gs i x xs l :
      gs !! i = Some (x :: xs) ->
      Interleaving (<[i := xs]> gs) l ->
      Interleaving gs (x :: l).

(** The unconsumed part of every group. *)
Definition suffixes (groups : list (list Stop)) (idx : list nat) : list (list Stop) :=
  zip_with drop idx groups.

(** Invariants of [gen], for the groups and the cap of one call of
    [allInterleavings]. *)
Section GenInvariants.
Variable groups : list (list Stop).
Variable max : Z.

(** [st] with [new] appended to its results. *)
Definition ext (st : genState) (new : list (list Stop)) : genState :=
  {| result := result st ++ new; indices := indices st; current := current st |}.

(** The number of stops not yet consumed. *)
Definition remaining (st : genState) : nat :=
  length (concat (suffixes groups (indices st))).

(** What a call of [gen] from [st] may add: completions of [current] by a
    merge of the unconsumed suffixes, and never beyond the cap. *)
Definition post (st : genState) (new : list (list Stop)) : Prop :=
  Forall (λ o, exists tail, o = current st ++ tail /\
                            Interleaving (suffixes groups (indices st)) tail) new /\
  (Z.of_nat (length (result st ++ new)) <= Z.max max (Z.of_nat (length (result st))))%Z.

(** The cap is not reached yet. *)
Definition below_cap (st : genState) : Prop :=
  (Z.of_nat (length (result st)) < max)%Z.

(** [rec] behaves as [gen] on every state with fewer than [bound] stops
    left: it returns, restores [indices] and [current], appends results
    that satisfy [post], and appends at least one below the cap. *)
Definition rec_spec (rec : genState -> option genState) (bound : nat) : Prop :=
  forall st, length (indices st) = length groups -> remaining st < bound ->
    exists new, rec st = Some (ext st new) /\ post st new /\ (below_cap st -> new <> []).

End GenInvariants.

(** [x <= y] on the specification's floating-point values. *)
Definition SFle (x y : spec_float) : Prop :=
  SFcompare x y = Some Lt \/ SFcompare x y = Some Eq.

(** [m] is what a running minimum started from [math.MaxFloat64] leaves
    over the values [ds]: an actual value below the sentinel, or the
    sentinel itself when no value is below it. *)
Definition sentinel_or_actual (m : float) (ds : list float) : Prop :=
  (m ∈ ds /\ (m <? MaxFloat64)%float = true) \/
  (m = MaxFloat64 /\ Forall (λ d, (d <? MaxFloat64)%float = false) ds).

(** [m] is the least of [math.MaxFloat64] and the values [ds]. *)
Definition least_with_sentinel (m : float) (ds : list float) : Prop :=
  sentinel_or_actual m ds /\
  (m <=? MaxFloat64)%float = true /\
  Forall (λ d, (d <? m)%float = false) ds.

(** [m] is the minimum of the values [ds]. *)
Definition is_minimum (m : float) (ds : list float) : Prop :=
  m ∈ ds /\ Forall (λ d, (m <=? d)%float = true) ds.

(** The endpoint deviation of the specification. *)
Definition endpointDeviation (M : MathLib) (route : Route) (search : SearchInput) : float :=
  (Haversine M (InStartLat search) (InStartLng search) (StartLat route) (StartLng route) +
   Haversine M (InEndLat search) (InEndLng search) (EndLat route) (EndLng route))%float.

(** The stop deviation of one ordering of the route's stops. *)
Definition stopDeviation (M : MathLib) (route : Route) (search : SearchInput)
    (ordered : list Stop) : float :=
  deviationForStops M (StartLat route) (StartLng route) (EndLat route) (EndLng route)
    ordered search.

(** The segment points of one ordering of the route's stops. *)
Definition routeSegments (route : Route) (ordered : list Stop) : list (float * float) :=
  buildSegmentsFromStops (StartLat route) (StartLng route) (EndLat route) (EndLng route) ordered.

(** The orderings [CalculateDeviation] enumerates, and their deviations. *)
Definition enumerated (route : Route) : list (list Stop) :=
  allInterleavings (groupStopsByParticipant (Stops route)) maxInterleavings.

Definition stopDeviations (M : MathLib) (route : Route) (search : SearchInput) : list float :=
  map (stopDeviation M route search) (enumerated route).

(** The distances [minDistanceToSegment] compares. *)
Definition segmentDistances (M : MathLib) (lat lng : float) (segments : list (float * float))
  : list float :=
  map (λ seg, Haversine M lat lng (fst seg) (snd seg)) segments.

(** Two special cases the documentation of Go's [math] package states:
    [Sin(±Inf) = NaN] and [Atan2(NaN, x) = NaN]. *)
Definition go_special_cases (M : MathLib) : Prop :=
  Sin M neg_infinity = nan /\ Atan2 M nan nan = nan.

(** ** The contract of [sort.Slice] *)

(** What the documentation of [sort.Interface] asks of [Less] on the
    elements being sorted: a transitive ordering whose incomparability is
    transitive too (and nothing sorts before itself). *)
Definition less_ordering {A} (less : A -> A -> bool) (l : list A) : Prop :=
  (forall a, a ∈ l -> less a a = false) /\
  (forall a b c, a ∈ l -> b ∈ l -> c ∈ l ->
     less a b = true -> less b c = true -> less a c = true) /\
  (forall a b c, a ∈ l -> b ∈ l -> c ∈ l ->
     less a b = false -> less b c = false -> less a c = false).

(** [p] does not sort before [q]. *)
Definition not_less {A} (less : A -> A -> bool) (p q : A) : Prop := less p q = false.

(** No element sorts before an element placed ahead of it. *)
Definition sorted_by {A} (less : A -> A -> bool) (l : list A) : Prop :=
  forall i j a b, i < j -> l !! i = Some a -> l !! j = Some b -> less b a = false.

(** The contract of [sort.Slice]: it permutes the slice, and orders it
    when [less] is such an ordering. *)
Definition sort_contract {A} (sort : (A -> A -> bool) -> list A -> list A) : Prop :=
  forall less l,
    sort less l ≡ₚ l /\ (less_ordering less l -> sorted_by less (sort less l)).

(** Insertion sort, the routine [sort.Slice] runs on short slices: each
    element moves left while it is less than its left neighbour.  [racc] is
    the sorted prefix, last element first. *)
Fixpoint bubble {A} (less : A -> A -> bool) (x : A) (racc : list A) : list A :=
  match racc with
  | [] => [x]
  | p :: rest => if less x p then p :: bubble less x rest else x :: p :: rest
  end.

Definition insertionSort {A} (less : A -> A -> bool) (l : list A) : list A :=
  reverse (fold_left (λ racc x, bubble less x racc) l []).

(** An entry of [withDev]: a candidate that passed the threshold test,
    paired with its score. *)
Definition scored_entry (M : MathLib) (search : SearchInput) (P : Route -> Prop)
    (e : routeWithDev) : Prop :=
  P (route e) /\
  dev e = CalculateDeviation M (route e) search /\
  (MaxDeviation (route e) <? dev e)%float = false.

(** ** A small-angle math library and sample data *)

(** sin x ~ x, cos x ~ 1 - x^2/2 and atan2 y x ~ y/x, with the special
    case [Sin(±Inf) = Cos(±Inf) = NaN] of Go's library: adequate for
    points that are a few hundred kilometres apart. *)
Definition smallAngle : MathLib := {|
  Sin := λ x, if is_infinity x then nan else x;
  Cos := λ x, if is_infinity x then nan else (1 - x * x / 2)%float;
  Atan2 := λ y x, (y / x)%float
|}.

Definition appID1 : UUID := replicate 16 Byte.x11.
Definition appID2 : UUID := replicate 16 Byte.x22.

Definition mkStop (id : Byte.byte) (app : option UUID) (pos : N) (lat lng : float) : Stop :=
  {| ID := replicate 16 id; ApplicationID := app; Position := pos;
     Lat := lat; Lng := lng; PlaceID := None; FormattedAddress := None;
     Status := "approved" |}.

Definition stopA : Stop := mkStop Byte.x01 (Some appID1) 0 1 1.
Definition stopB : Stop := mkStop Byte.x02 None 1 2 2.
Definition stopC : Stop := mkStop Byte.x03 (Some appID2) 2 2.5 2.5.

Definition mkRoute (id : Byte.byte) (name : string) (startLat startLng endLat endLng : float)
    (maxDev : float) (stops : list Stop) : Route :=
  {| RouteID := replicate 16 id; CreatorID := replicate 16 Byte.xaa; CreatorName := name;
     Description := None;
     StartLat := startLat; StartLng := startLng;
     StartPlaceID := None; StartFormattedAddress := None;
     EndLat := endLat; EndLng := endLng;
     EndPlaceID := None; EndFormattedAddress := None;
     MaxPassengers := 4; MaxDeviation := maxDev; AvailablePassengers := 2;
     LeavingAt := None; Stops := stops; Participants := [] |}.

Definition route1 : Route := mkRoute Byte.x01 "ann" 0 0 3 3 100 [stopA; stopB].
Definition route2 : Route := mkRoute Byte.x02 "bob" 0.25 0.25 3 3 100 [].
Definition route3 : Route := mkRoute Byte.x03 "cat" 1 1 4 4 50 [stopC].
Definition route1' : Route := mkRoute Byte.x04 "dan" 0 0 3 3 5 [stopA; stopB].

Definition search1 : SearchInput :=
  {| InStartLat := 0; InStartLng := 0; InEndLat := 3; InEndLng := 3;
     InStops := [{| SLat := 1.5; SLng := 1.5 |}] |}.

(** The [float64] nearest to 1e308 (what a JSON body holding 1e308
    decodes to), and a query with [n] via-points at that latitude. *)
Definition hugeLat : float := 0x1.1ccf385ebc8ap+1023%float.

Definition searchHuge (n : nat) : SearchInput :=
  {| InStartLat := 0; InStartLng := 0; InEndLat := 3; InEndLng := 3;
     InStops := replicate n {| SLat := hugeLat; SLng := 0 |} |}.

Definition candidates : list Route := [route1; route2; route3; route1'].

(** ** Vocabulary of the further properties *)

(** The entry [Search] appends for a route that passes the threshold test. *)
Definition scored (M : MathLib) (search : SearchInput) (r : Route) : routeWithDev :=
  {| route := r; dev := CalculateDeviation M r search |}.

(** [score > MaxDeviation] is false: the test of [Search] lets the route
    through. *)
Definition passes (M : MathLib) (search : SearchInput) (r : Route) : Prop :=
  (MaxDeviation r <? CalculateDeviation M r search)%float = false.

#[global] Instance passes_dec M search r : Decision (passes M search r).
Proof. unfold passes. apply _. Defined.

(** The distinct elements of a list, in the order of their first
    occurrence. *)
Fixpoint first_occurrences (ks : list string) : list string :=
  match ks with
  | [] => []
  | k :: ks' => k :: filter (λ k', k' ≠ k) (first_occurrences ks')
  end.

(** The contributors of a stop list, in the order of their first stop. *)
Definition contributors (stops : list Stop) : list string :=
  first_occurrences (map stop_key stops).

(** The stops of one contributor, in the order of the list. *)
Definition stops_of (k : string) (stops : list Stop) : list Stop :=
  filter (λ s, stop_key s = k) stops.

(** The loop invariant of [groupStopsByParticipant] after the stops [p]:
    [ordered] holds one group per contributor of [p] and [seen] maps each
    contributor to the index of its group. *)
Definition group_inv (p : list Stop) (st : list (list Stop) * gmap string nat) : Prop :=
  fst st = map (λ k, stops_of k p) (contributors p) /\
  forall k i, snd st !! k = Some i <-> contributors p !! i = Some k.

(** The value of a hexadecimal digit (0 for any other character). *)
Definition hex_value (c : ascii) : N :=
  match c with
  | "0" => 0 | "1" => 1 | "2" => 2 | "3" => 3 | "4" => 4 | "5" => 5
  | "6" => 6 | "7" => 7 | "8" => 8 | "9" => 9 | "a" => 10 | "b" => 11
  | "c" => 12 | "d" => 13 | "e" => 14 | "f" => 15 | _ => 0
  end%char%N.

(** Further invariants of [gen]. *)
Section GenMore.
Variable groups : list (list Stop).

(** What a call of [gen] from [st] that ends below the cap [max] has
    added: every completion of [current] by a merge of the unconsumed
    suffixes. *)
Definition complete (max : Z) (st : genState) (new : list (list Stop)) : Prop :=
  below_cap max (ext st new) ->
  forall tail, Interleaving (suffixes groups (indices st)) tail -> current st ++ tail ∈ new.

(** Two runs of [gen], under the caps [lo] and [hi], are at the same place
    of the enumeration: the run under [lo] holds the first [lo] results of
    the run under [hi]. *)
Definition same_place (lo : Z) (st st' : genState) : Prop :=
  indices st = indices st' /\ current st = current st' /\
  result st = take (Z.to_nat lo) (result st').

(** [rec] under [lo] and [rec'] under a higher cap keep two runs at the
    same place, on states with fewer than [bound] stops left. *)
Definition caps_spec (lo : Z) (rec rec' : genState -> option genState) (bound : nat) : Prop :=
  forall st st' new new',
    length (indices st) = length groups -> remaining groups st < bound ->
    same_place lo st st' ->
    rec st = Some (ext st new) -> rec' st' = Some (ext st' new') ->
    same_place lo (ext st new) (ext st' new').

(** The stops not yet consumed are pairwise distinct. *)
Definition distinct_left (st : genState) : Prop :=
  NoDup (concat (suffixes groups (indices st))).

(** [o] completes [current] by a stop taken from one of the groups [gs]. *)
Definition starts_in (gs : list nat) (st : genState) (o : list Stop) : Prop :=
  exists g x xs tail,
    g ∈ gs /\ suffixes groups (indices st) !! g = Some (x :: xs) /\
    o = current st ++ x :: tail.

(** [rec] adds pairwise distinct orderings, on states with fewer than
    [bound] stops left, all of them distinct. *)
Definition distinct_spec (rec : genState -> option genState) (bound : nat) : Prop :=
  forall st new,
    length (indices st) = length groups -> remaining groups st < bound ->
    distinct_left st -> rec st = Some (ext st new) -> NoDup new.

End GenMore.

(** ** The queries of [route.go] *)

(** [fmt.Errorf("<what>: %w", err)], by its text. *)
Definition wrapError (what e : string) : string := (what +:+ ": " +:+ e)%string.

(** What a loop [for rows.Next() { rows.Scan(...) }] meets: the rows, each
    of which [Scan] decodes or rejects, and the error [rows.Err()] reports
    once [Next] has returned false. *)
Record sqlRows (A : Type) := {
  scans : list (fetched A);
  rowsErr : option string
}.
Arguments scans {A} _.
Arguments rowsErr {A} _.

(** The columns [Scan] reads for a route, a stop and a participant. *)
Record routeColumns := {
  colID : string;
  colCreatorID : string;
  colCreatorName : string;
  colDescription : option string;
  colStartLat : float;
  colStartLng : float;
  colStartPlaceID : option string;
  colStartFormattedAddress : option string;
  colEndLat : float;
  colEndLng : float;
  colEndPlaceID : option string;
  colEndFormattedAddress : option string;
  colMaxPassengers : N;
  colMaxDeviation : float;
  colAvailablePassengers : N;
  colLeavingAt : option Z
}.

Record stopColumns := {
  colStopID : string;
  colApplicationID : option string;
  colPosition : N;
  colLat : float;
  colLng : float;
  colPlaceID : option string;
  colFormattedAddress : option string;
  colStatus : string
}.

Record participantColumns := {
  colUserID : string;
  colName : string
}.

(** What [db.QueryRowContext(...).Scan(...)] returns: the decoded row, an
    error that is [sql.ErrNoRows], or another error. *)
Inductive scannedRow (A : Type) :=
  | RowFound (a : A)
  | RowMissing
  | RowError (e : string).
Arguments RowFound {A} a.
Arguments RowMissing {A}.
Arguments RowError {A} e.

(** The text of [errs.ErrNotFound], which is [sql.ErrNoRows]. *)
Definition ErrNotFound : string := "sql: no rows in result set".

(** The database, by what each query of the file returns: [Fetched] rows
    or the error of [db.QueryContext].  The statement text is fixed for
    the queries of one route (its row, its stops, its participants, each
    by the route id) and for the searchable routes; the query of
    [fetchRoutesWithDetails] for the routes is given by its text and
    arguments, its batched queries by the text of their IN clause and
    their arguments. *)
Record DB := {
  queryRoute : string -> scannedRow routeColumns;
  queryRouteParticipants : string -> fetched (sqlRows participantColumns);
  querySearchable : fetched (sqlRows routeColumns);
  queryRouteStops : string -> fetched (sqlRows stopColumns);
  queryRoutes : string -> list string -> fetched (sqlRows routeColumns);
  queryStopsIn : string -> list string -> fetched (sqlRows (string * stopColumns));
  queryParticipantsIn : string -> list string -> fetched (sqlRows (string * participantColumns))
}.

(** [for rows.Next()]: [body] runs on each decoded row and may return an
    error of its own; a row [Scan] rejects ends the loop with the wrapped
    error. *)
Fixpoint forRows {A S : Type} (what : string) (body : S -> A -> fetched S)
    (rows : list (fetched A)) (st : S) : fetched S :=
  match rows with
  | [] => Fetched st
  | FetchError e :: _ => FetchError (wrapError what e)
  | Fetched a :: rows' =>
      match body st a with
      | Fetched st' => forRows what body rows' st'
      | FetchError e => FetchError e
      end
  end.

(** The check of [rows.Err()] after a loop. *)
Definition afterRows {A S : Type} (what : string) (rows : sqlRows A) (st : S) : fetched S :=
  match rowsErr rows with
  | Some e => FetchError (wrapError what e)
  | None => Fetched st
  end.

Definition withStops (r : Route) (stops : list Stop) : Route :=
  {| RouteID := RouteID r; CreatorID := CreatorID r; CreatorName := CreatorName r;
     Description := Description r;
     StartLat := StartLat r; StartLng := StartLng r;
     StartPlaceID := StartPlaceID r; StartFormattedAddress := StartFormattedAddress r;
     EndLat := EndLat r; EndLng := EndLng r;
     EndPlaceID := EndPlaceID r; EndFormattedAddress := EndFormattedAddress r;
     MaxPassengers := MaxPassengers r; MaxDeviation := MaxDeviation r;
     AvailablePassengers := AvailablePassengers r; LeavingAt := LeavingAt r;
     Stops := stops; Participants := Participants r |}.

Definition withParticipants (r : Route) (participants : list Participant) : Route :=
  {| RouteID := RouteID r; CreatorID := CreatorID r; CreatorName := CreatorName r;
     Description := Description r;
     StartLat := StartLat r; StartLng := StartLng r;
     StartPlaceID := StartPlaceID r; StartFormattedAddress := StartFormattedAddress r;
     EndLat := EndLat r; EndLng := EndLng r;
     EndPlaceID := EndPlaceID r; EndFormattedAddress := EndFormattedAddress r;
     MaxPassengers := MaxPassengers r; MaxDeviation := MaxDeviation r;
     AvailablePassengers := AvailablePassengers r; LeavingAt := LeavingAt r;
     Stops := Stops r; Participants := participants |}.

(** [strings.Join]. *)
Definition strings_Join (elems : list string) (sep : string) : string :=
  match elems with
  | [] => EmptyString
  | e :: es => fold_left (λ acc x, acc +:+ sep +:+ x) es e
  end%string.

Section Queries.
(** The identifier [uuid.Parse] returns; the code drops its error. *)
Variable uuid_Parse : string -> UUID.
Variable db : DB.

(** The route a row is decoded into: [var d Route], the scanned fields and
    the two parsed identifiers. *)
Definition routeOfColumns (c : routeColumns) : Route :=
  {| RouteID := uuid_Parse (colID c); CreatorID := uuid_Parse (colCreatorID c);
     CreatorName := colCreatorName c; Description := colDescription c;
     StartLat := colStartLat c; StartLng := colStartLng c;
     StartPlaceID := colStartPlaceID c;
     StartFormattedAddress := colStartFormattedAddress c;
     EndLat := colEndLat c; EndLng := colEndLng c;
     EndPlaceID := colEndPlaceID c; EndFormattedAddress := colEndFormattedAddress c;
     MaxPassengers := colMaxPassengers c; MaxDeviation := colMaxDeviation c;
     AvailablePassengers := colAvailablePassengers c; LeavingAt := colLeavingAt c;
     Stops := []; Participants := [] |}.

(** The stop a row is decoded into; [appID] is the scanned
    [application_id], nil for NULL. *)
Definition stopOfColumns (appID : option UUID) (c : stopColumns) : Stop :=
  {| ID := uuid_Parse (colStopID c); ApplicationID := appID;
     Position := colPosition c; Lat := colLat c; Lng := colLng c;
     PlaceID := colPlaceID c; FormattedAddress := colFormattedAddress c;
     Status := colStatus c |}.

(** [if appID != nil { parsed, _ := uuid.Parse( *appID); ... }]. *)
Definition applicationOf (c : stopColumns) : option UUID :=
  uuid_Parse <$> colApplicationID c.

(** The test of [fetchRoutesWithDetails]: [appID] is neither nil nor the
    empty string. *)
Definition applicationOfBatched (c : stopColumns) : option UUID :=
  match colApplicationID c with
  | Some a => if decide (a = EmptyString) then None else Some (uuid_Parse a)
  | None => None
  end.

Definition fetchRouteStops (routeID : string) : fetched (list Stop) :=
  match queryRouteStops db routeID with
  | FetchError e => FetchError (wrapError "get route stops" e)
  | Fetched rows =>
      match forRows "scan stop"
              (λ stops c, Fetched (stops ++ [stopOfColumns (applicationOf c) c]))
              (scans rows) [] with
      | FetchError e => FetchError e
      | Fetched stops => afterRows "get route stops" rows stops
      end
  end.

Definition fetchSearchableRoutes : fetched (list Route) :=
  match querySearchable db with
  | FetchError e => FetchError (wrapError "search routes" e)
  | Fetched rows =>
      match forRows "scan route"
              (λ routes c,
                 match fetchRouteStops (colID c) with
                 | FetchError e => FetchError e
                 | Fetched stops => Fetched (routes ++ [withStops (routeOfColumns c) stops])
                 end)
              (scans rows) [] with
      | FetchError e => FetchError e
      | Fetched routes => afterRows "search routes" rows routes
      end
  end.

(** The IN clause for [n] identifiers. *)
Definition inClause (n : nat) : string :=
  ("(" +:+ strings_Join (replicate n "?") "," +:+ ")")%string.

(** [route.Stops = append(route.Stops, s)] through the pointer held in
    [routesMap], when the key is there. *)
Definition attachStop (routesMap : gmap string Route) (row : string * stopColumns)
  : gmap string Route :=
  match routesMap !! fst row with
  | Some route =>
      <[fst row := withStops route
                     (Stops route ++ [stopOfColumns (applicationOfBatched (snd row)) (snd row)])]>
        routesMap
  | None => routesMap
  end.

Definition participantOfColumns (c : participantColumns) : Participant :=
  {| UserID := uuid_Parse (colUserID c); Name := colName c |}.

Definition attachParticipant (routesMap : gmap string Route)
    (row : string * participantColumns) : gmap string Route :=
  match routesMap !! fst row with
  | Some route =>
      <[fst row := withParticipants route
                     (Participants route ++ [participantOfColumns (snd row)])]> routesMap
  | None => routesMap
  end.

Definition fetchRoutesWithDetails (baseQuery whereClause : string) (args : list string)
  : fetched (list Route) :=
  let query := (baseQuery +:+ whereClause +:+ " ORDER BY r.created_at DESC")%string in
  match queryRoutes db query args with
  | FetchError e => FetchError (wrapError "fetch routes" e)
  | Fetched rows =>
  match forRows "scan route"
          (λ '(routesMap, routeIDs) c,
             Fetched (<[colID c := routeOfColumns c]> routesMap, routeIDs ++ [colID c]))
          (scans rows) (∅, []) with
  | FetchError e => FetchError e
  | Fetched st =>
  match afterRows "fetch routes" rows st with
  | FetchError e => FetchError e
  | Fetched (routesMap, routeIDs) =>
  if length routeIDs =? 0 then Fetched [] else
  match queryStopsIn db (inClause (length routeIDs)) routeIDs with
  | FetchError e => FetchError (wrapError "fetch stops" e)
  | Fetched stopsRows =>
  match forRows "scan stop" (λ m row, Fetched (attachStop m row))
          (scans stopsRows) routesMap with
  | FetchError e => FetchError e
  | Fetched routesMap =>
  match afterRows "fetch stops" stopsRows routesMap with
  | FetchError e => FetchError e
  | Fetched routesMap =>
  match queryParticipantsIn db (inClause (length routeIDs)) routeIDs with
  | FetchError e => FetchError (wrapError "fetch participants" e)
  | Fetched participantsRows =>
  match forRows "scan participant" (λ m row, Fetched (attachParticipant m row))
          (scans participantsRows) routesMap with
  | FetchError e => FetchError e
  | Fetched routesMap =>
  match afterRows "fetch participants" participantsRows routesMap with
  | FetchError e => FetchError e
  | Fetched routesMap => Fetched (omap (λ id, routesMap !! id) routeIDs)
  end end end end end end end end end.

Definition fetchRouteParticipants (routeID : string) : fetched (list Participant) :=
  match queryRouteParticipants db routeID with
  | FetchError e => FetchError (wrapError "get route participants" e)
  | Fetched rows =>
      match forRows "scan participant"
              (λ participants c, Fetched (participants ++ [participantOfColumns c]))
              (scans rows) [] with
      | FetchError e => FetchError e
      | Fetched participants => afterRows "get route participants" rows participants
      end
  end.

Definition GetRoute (id : UUID) : fetched Route :=
  match queryRoute db (UUID_String id) with
  | RowMissing => FetchError ErrNotFound
  | RowError e => FetchError (wrapError "get route detail" e)
  | RowFound c =>
      let d := routeOfColumns c in
      match queryRouteStops db (UUID_String id) with
      | FetchError e => FetchError (wrapError "get route stops" e)
      | Fetched rows =>
      match forRows "scan route stop"
              (λ stops c, Fetched (stops ++ [stopOfColumns (applicationOf c) c]))
              (scans rows) (Stops d) with
      | FetchError e => FetchError e
      | Fetched stops =>
      match afterRows "get route stops" rows stops with
      | FetchError e => FetchError e
      | Fetched stops =>
      match fetchRouteParticipants (UUID_String id) with
      | FetchError e => FetchError (wrapError "get route participants" e)
      | Fetched participants => Fetched (withParticipants (withStops d stops) participants)
      end end end end
  end.

End Queries.

(** *** Creating a route *)

(** [StopInput] and [CreateInput]; the fields carry a prefix, their
    names being those of [Stop] and [Route]. *)
Record StopInput := {
  StopLat : float;
  StopLng : float;
  StopPlaceID : option string;
  StopFormattedAddress : option string
}.

Record CreateInput := {
  NewDescription : option string;
  NewStartLat : float;
  NewStartLng : float;
  NewStartPlaceID : option string;
  NewStartFormattedAddress : option string;
  NewEndLat : float;
  NewEndLng : float;
  NewEndPlaceID : option string;
  NewEndFormattedAddress : option string;
  NewMaxPassengers : N;
  NewMaxDeviation : float;
  NewLeavingAt : option Z;
  NewStops : list StopInput
}.

(** The two statements [Create] executes, with their arguments: the row of
    the route (its id, its creator and the fields of the input other than
    the stops; [nullStr] and [nullTime] turn nil into NULL) and the row of
    a stop (its id, the id of the route, its position and its fields). *)
Inductive statement :=
  | InsertRoute (id creatorID : string) (input : CreateInput)
  | InsertStop (id routeID : string) (position : N) (stop : StopInput).

Section Creating.
(** The identifiers [uuid.New] returns, in the order of the calls, and the
    error [db.ExecContext] returns for a statement, if any. *)
Variable uuid_New : nat -> UUID.
Variable exec : statement -> option string.

(** The loop [for i, s := range in.Stops] from the stop of index [i] on;
    [issued] holds the statements executed so far. *)
Fixpoint createStops (routeID : string) (stops : list StopInput) (i : nat)
    (issued : list statement) : list statement * option string :=
  match stops with
  | [] => (issued, None)
  | s :: stops' =>
      let st := InsertStop (UUID_String (uuid_New (S i))) routeID (N.of_nat i) s in
      match exec st with
      | Some e => (issued ++ [st], Some (wrapError "create route stop" e))
      | None => createStops routeID stops' (S i) (issued ++ [st])
      end
  end.

(** [Create]: the statements it has executed when it returns, and what it
    returns. *)
Definition Create (creatorID : UUID) (input : CreateInput) : list statement * fetched UUID :=
  let id := uuid_New 0 in
  let st := InsertRoute (UUID_String id) (UUID_String creatorID) input in
  match exec st with
  | Some e => ([st], FetchError (wrapError "create route" e))
  | None =>
      match createStops (UUID_String id) (NewStops input) 0 [st] with
      | (issued, Some e) => (issued, FetchError e)
      | (issued, None) => (issued, Fetched id)
      end
  end.

(** The statements of a complete run: the route, then its stops with
    their index as position. *)
Definition stopStatements (routeID : string) (stops : list StopInput) (i : nat)
  : list statement :=
  imap (λ j s, InsertStop (UUID_String (uuid_New (S (i + j)))) routeID (N.of_nat (i + j)) s)
       stops.

Definition createStatements (creatorID : UUID) (input : CreateInput) : list statement :=
  InsertRoute (UUID_String (uuid_New 0)) (UUID_String creatorID) input
  :: stopStatements (UUID_String (uuid_New 0)) (NewStops input) 0.

End Creating.

(** Rows that all decode, with no error at the end. *)
Definition cleanRows {A} (rows : list A) : sqlRows A :=
  {| scans := map Fetched rows; rowsErr := None |}.

Section QueriesVocabulary.
Variable uuid_Parse : string -> UUID.

(** The stops and the participants the batched rows hold for a route. *)
Definition stopsFor (id : string) (rows : list (string * stopColumns)) : list Stop :=
  map (λ row, stopOfColumns uuid_Parse (applicationOfBatched uuid_Parse (snd row)) (snd row))
      (filter (λ row, fst row = id) rows).

Definition participantsFor (id : string) (rows : list (string * participantColumns))
  : list Participant :=
  map (λ row, participantOfColumns uuid_Parse (snd row)) (filter (λ row, fst row = id) rows).

(** The route [fetchRoutesWithDetails] builds from a route row and the
    batched rows. *)
Definition routeWithDetails (stops : list (string * stopColumns))
    (participants : list (string * participantColumns)) (c : routeColumns) : Route :=
  withParticipants
    (withStops (routeOfColumns uuid_Parse c) (stopsFor (colID c) stops))
    (participantsFor (colID c) participants).

End QueriesVocabulary.

(** Further sample data. *)
Definition stopA2 : Stop := mkStop Byte.x04 (Some appID1) 3 2 2.

Definition routeMixed : Route := mkRoute Byte.x05 "eve" 0 0 3 3 100 [stopA; stopB; stopA2].
Definition routeMixed' : Route := mkRoute Byte.x06 "fay" 0 0 3 3 100 [stopA; stopA2; stopB].
Definition routeMixed'' : Route := mkRoute Byte.x07 "gus" 0 0 3 3 100 [stopB; stopA; stopA2].

(** A query without via-points, and one that starts at latitude 1e308. *)
Definition searchDirect : SearchInput :=
  {| InStartLat := 0; InStartLng := 0; InEndLat := 3; InEndLng := 3; InStops := [] |}.

Definition searchFromHuge : SearchInput :=
  {| InStartLat := hugeLat; InStartLng := 0; InEndLat := 3; InEndLng := 3; InStops := [] |}.

(** A stand-in for [uuid.Parse] in the sample runs: the bytes of the text. *)
Definition parseBytes (s : string) : UUID := String.list_byte_of_string s.

Definition mkRouteColumns (id name : string) (startLat startLng endLat endLng maxDev : float)
  : routeColumns :=
  {| colID := id; colCreatorID := "u1"; colCreatorName := name; colDescription := None;
     colStartLat := startLat; colStartLng := startLng;
     colStartPlaceID := None; colStartFormattedAddress := None;
     colEndLat := endLat; colEndLng := endLng;
     colEndPlaceID := None; colEndFormattedAddress := None;
     colMaxPassengers := 4; colMaxDeviation := maxDev; colAvailablePassengers := 2;
     colLeavingAt := None |}.

Definition mkStopColumns (id : string) (app : option string) (pos : N) (lat lng : float)
  : stopColumns :=
  {| colStopID := id; colApplicationID := app; colPosition := pos;
     colLat := lat; colLng := lng; colPlaceID := None; colFormattedAddress := None;
     colStatus := "approved" |}.

Definition rowR1 : routeColumns := mkRouteColumns "r1" "ann" 0 0 3 3 100.
Definition rowR2 : routeColumns := mkRouteColumns "r2" "bob" 0.25 0.25 3 3 0.

Definition stopRows1 : list stopColumns :=
  [mkStopColumns "s1" (Some "a1") 0 1 1; mkStopColumns "s2" None 1 2 2].

Definition batchedStopRows : list (string * stopColumns) :=
  [("r1", mkStopColumns "s1" (Some "a1") 0 1 1);
   ("r2", mkStopColumns "s3" (Some EmptyString) 0 1 1);
   ("r1", mkStopColumns "s2" None 1 2 2);
   ("r9", mkStopColumns "s4" None 0 5 5)]%string.

Definition batchedParticipantRows : list (string * participantColumns) :=
  [("r2", {| colUserID := "u2"; colName := "cat" |})]%string.

Definition sampleDB : DB :=
  {| queryRoute := λ id, if decide (id = "r1"%string) then RowFound rowR1 else RowMissing;
     queryRouteParticipants := λ _, Fetched (cleanRows []);
     querySearchable := Fetched (cleanRows [rowR1; rowR2]);
     queryRouteStops := λ id,
       Fetched (cleanRows (if decide (id = "r1"%string) then stopRows1 else []));
     queryRoutes := λ _ _, Fetched (cleanRows [rowR1; rowR2]);
     queryStopsIn := λ _ _, Fetched (cleanRows batchedStopRows);
     queryParticipantsIn := λ _ _, Fetched (cleanRows batchedParticipantRows) |}.

(** * Properties *)

(** ** Binary64 arithmetic *)

Module Float64.
Local Open Scope Z_scope.

Lemma compare_cont_Eq a b : PosDef.Pos.compare_cont Eq a b = Pos.compare a b.
Proof. reflexivity. Qed.

Ltac cmp_step :=
  match goal with
  | H : context [Z.compare ?a ?b] |- _ => destruct (Z.compare_spec a b)
  | |- context [Z.compare ?a ?b] => destruct (Z.compare_spec a b)
  | H : context [Pos.compare ?a ?b] |- _ => destruct (Pos.compare_spec a b)
  | |- context [Pos.compare ?a ?b] => destruct (Pos.compare_spec a b)
  end.

Ltac cmp_cases :=
  repeat first [progress rewrite compare_cont_Eq in * | cmp_step; simpl in *].

Ltac sf_cases x := destruct x as [[|]|[|]| |[|] ? ?].

Lemma SFcompare_Lt_trans x y z :
  SFcompare x y = Some Lt -> SFcompare y z = Some Lt -> SFcompare x z = Some Lt.
Proof.
  sf_cases x; sf_cases y; sf_cases z; simpl; intros H1 H2;
    try discriminate; try reflexivity;
    cmp_cases; simpl in *; try discriminate; try reflexivity; try lia.
Qed.

Lemma SFle_trans x y z : SFle x y -> SFle y z -> SFle x z.
Proof.
  unfold SFle.
  sf_cases x; sf_cases y; sf_cases z; simpl; intros [H1|H1] [H2|H2];
    try discriminate; auto;
    cmp_cases; simpl in *; try discriminate; auto; try lia.
Qed.

Lemma SFcompare_refl x : x <> S754_nan -> SFcompare x x = Some Eq.
Proof.
  sf_cases x; simpl; intros H; try congruence;
    rewrite Z.compare_refl, compare_cont_Eq, Pos.compare_refl; reflexivity.
Qed.

(** Comparable values are totally ordered. *)
Lemma SFle_total x y :
  x <> S754_nan -> y <> S754_nan -> SFle x y \/ SFcompare y x = Some Lt.
Proof.
  unfold SFle.
  sf_cases x; sf_cases y; simpl; intros Hx Hy; try congruence; auto;
    cmp_cases; simpl in *; auto; try lia.
Qed.

Lemma SFcompare_Lt_not_le x y : SFcompare y x = Some Lt -> SFle x y -> False.
Proof.
  unfold SFle.
  sf_cases x; sf_cases y; simpl; intros H [H1|H1]; try discriminate;
    cmp_cases; simpl in *; try discriminate; try lia.
Qed.

Section SignSymmetry.
Variables prec emax : Z.

Lemma SFopp_involutive x : SFopp (SFopp x) = x.
Proof. destruct x as [s|s| |s m e]; simpl; rewrite ?negb_involutive; reflexivity. Qed.

(** Rounding to nearest-even does not look at the sign. *)
Lemma binary_round_aux_opp s m e l :
  binary_round_aux prec emax (negb s) m e l = SFopp (binary_round_aux prec emax s m e l).
Proof.
  unfold binary_round_aux.
  destruct (shr_fexp prec emax m e l) as [mrs' e'].
  destruct (shr_fexp prec emax _ e' loc_Exact) as [mrs'' e''].
  destruct (shr_m mrs''); [reflexivity| |reflexivity].
  destruct (e'' <=? emax - prec); reflexivity.
Qed.

Lemma binary_round_opp s m e :
  binary_round prec emax (negb s) m e = SFopp (binary_round prec emax s m e).
Proof.
  unfold binary_round. destruct (shl_align m e _) as [mz ez]. apply binary_round_aux_opp.
Qed.

Lemma binary_normalize_opp m e :
  binary_normalize prec emax (- m) e false = binary_normalize prec emax m e false \/
  binary_normalize prec emax (- m) e false = SFopp (binary_normalize prec emax m e false).
Proof.
  destruct m as [|p|p]; simpl.
  - left. reflexivity.
  - right. apply (binary_round_opp false).
  - right. rewrite <- (binary_round_opp true). reflexivity.
Qed.

Lemma SFmul_opp_l x y : SFmul prec emax (SFopp x) y = SFopp (SFmul prec emax x y).
Proof.
  destruct x as [sx|sx| |sx mx ex], y as [sy|sy| |sy my ey]; simpl;
    rewrite <- ?negb_xorb_l; try reflexivity.
  apply binary_round_aux_opp.
Qed.

Lemma SFmul_comm x y : SFmul prec emax x y = SFmul prec emax y x.
Proof.
  destruct x as [sx|sx| |sx mx ex], y as [sy|sy| |sy my ey]; simpl;
    rewrite ?(xorb_comm sx sy); try reflexivity.
  rewrite (Pos.mul_comm mx my), (Z.add_comm ex ey). reflexivity.
Qed.

Lemma SFdiv_opp_l x y : SFdiv prec emax (SFopp x) y = SFopp (SFdiv prec emax x y).
Proof.
  destruct x as [sx|sx| |sx mx ex], y as [sy|sy| |sy my ey]; simpl;
    rewrite <- ?negb_xorb_l; try reflexivity.
  destruct (SFdiv_core_binary prec emax (Z.pos mx) ex (Z.pos my) ey) as [[mz ez] lz].
  apply binary_round_aux_opp.
Qed.

(** Exchanging the operands of a subtraction negates the result, except
    that a zero difference of equal operands is [+0] both ways. *)
Lemma SFsub_swap x y :
  SFsub prec emax y x = SFsub prec emax x y \/
  SFsub prec emax y x = SFopp (SFsub prec emax x y).
Proof.
  destruct x as [sx|sx| |sx mx ex], y as [sy|sy| |sy my ey];
    try (destruct sx, sy; simpl; auto; fail);
    try (destruct sx; simpl; auto; fail);
    try (destruct sy; simpl; auto; fail); auto.
  unfold SFsub. rewrite (Z.min_comm ey ex).
  set (a := cond_Zopp sx _). set (b := cond_Zopp sy _).
  replace (b - a) with (- (a - b)) by lia. apply binary_normalize_opp.
Qed.

End SignSymmetry.

Local Open Scope float_scope.

Lemma opp_involutive x : - - x = x.
Proof. apply Prim2SF_inj. rewrite !opp_spec. apply SFopp_involutive. Qed.

Lemma mul_opp_l x y : - x * y = - (x * y).
Proof. apply Prim2SF_inj. rewrite opp_spec, !mul_spec, opp_spec. apply SFmul_opp_l. Qed.

Lemma mul_comm x y : x * y = y * x.
Proof. apply Prim2SF_inj. rewrite !mul_spec. apply SFmul_comm. Qed.

Lemma mul_opp_r x y : x * - y = - (x * y).
Proof. rewrite (mul_comm x (- y)), mul_opp_l, (mul_comm y x). reflexivity. Qed.

Lemma mul_opp_opp x y : - x * - y = x * y.
Proof. rewrite mul_opp_l, mul_opp_r. apply opp_involutive. Qed.

Lemma div_opp_l x y : - x / y = - (x / y).
Proof. apply Prim2SF_inj. rewrite opp_spec, !div_spec, opp_spec. apply SFdiv_opp_l. Qed.

Lemma sub_swap x y : y - x = x - y \/ y - x = - (x - y).
Proof.
  destruct (SFsub_swap prec emax (Prim2SF x) (Prim2SF y)) as [H|H]; [left|right];
    apply Prim2SF_inj; rewrite ?opp_spec, !sub_spec; exact H.
Qed.

Lemma is_nan_false_Prim2SF x : is_nan x = false <-> Prim2SF x <> S754_nan.
Proof.
  unfold is_nan. rewrite FloatAxioms.eqb_spec. unfold SFeqb. split.
  - intros H Hn. rewrite Hn in H. discriminate.
  - intros H. rewrite SFcompare_refl by assumption. reflexivity.
Qed.

Lemma ltb_Lt x y : (x <? y) = true <-> SFcompare (Prim2SF x) (Prim2SF y) = Some Lt.
Proof.
  rewrite ltb_spec. unfold SFltb.
  destruct (SFcompare (Prim2SF x) (Prim2SF y)) as [[| |]|]; split; congruence.
Qed.

Lemma leb_SFle x y : (x <=? y) = true <-> SFle (Prim2SF x) (Prim2SF y).
Proof.
  rewrite leb_spec. unfold SFleb, SFle.
  destruct (SFcompare (Prim2SF x) (Prim2SF y)) as [[| |]|];
    (split; [intros H; first [now left | now right | discriminate]
            |intros [H|H]; first [reflexivity | discriminate]]).
Qed.

Lemma SFle_not_nan x y : SFle x y -> x <> S754_nan /\ y <> S754_nan.
Proof.
  unfold SFle. destruct x, y; simpl; intros [H|H]; split; congruence.
Qed.

Lemma leb_not_nan x y : (x <=? y) = true -> is_nan x = false /\ is_nan y = false.
Proof.
  rewrite leb_SFle, !is_nan_false_Prim2SF. apply SFle_not_nan.
Qed.

Lemma ltb_irrefl x : (x <? x) = false.
Proof.
  destruct (x <? x) eqn:H; [|reflexivity]. apply ltb_Lt in H.
  exfalso. apply (SFcompare_Lt_not_le _ _ H). right.
  apply SFcompare_refl. intros Hn. rewrite Hn in H. discriminate.
Qed.

Lemma ltb_trans x y z : (x <? y) = true -> (y <? z) = true -> (x <? z) = true.
Proof. rewrite !ltb_Lt. apply SFcompare_Lt_trans. Qed.

Lemma leb_trans x y z : (x <=? y) = true -> (y <=? z) = true -> (x <=? z) = true.
Proof. rewrite !leb_SFle. apply SFle_trans. Qed.

Lemma leb_refl x : is_nan x = false -> (x <=? x) = true.
Proof.
  rewrite is_nan_false_Prim2SF, leb_SFle. intros H. right. apply SFcompare_refl, H.
Qed.

Lemma ltb_leb x y : (x <? y) = true -> (x <=? y) = true.
Proof. rewrite ltb_Lt, leb_SFle. intros H. left. exact H. Qed.

(** On values that are not NaN, [x <= y] is the negation of [y < x]. *)
Lemma leb_ltb_false x y : (x <=? y) = true -> (y <? x) = false.
Proof.
  intros H. destruct (y <? x) eqn:Hlt; [|reflexivity].
  apply ltb_Lt in Hlt. apply leb_SFle in H.
  destruct (SFcompare_Lt_not_le _ _ Hlt H).
Qed.

Lemma ltb_false_leb x y :
  is_nan x = false -> is_nan y = false -> (y <? x) = false -> (x <=? y) = true.
Proof.
  rewrite !is_nan_false_Prim2SF. intros Hx Hy Hlt. apply leb_SFle.
  destruct (SFle_total _ _ Hx Hy) as [H|H]; [exact H|].
  apply ltb_Lt in H. congruence.
Qed.

(** Below or equal to a finite non-zero value, and not below it: equal. *)
Lemma leb_not_ltb_finite x y s m e :
  Prim2SF y = S754_finite s m e ->
  (x <=? y) = true -> (x <? y) = false -> x = y.
Proof.
  intros Hy Hle Hlt. apply Prim2SF_inj. rewrite Hy.
  apply leb_SFle in Hle. destruct Hle as [H|H].
  - apply ltb_Lt in H. congruence.
  - rewrite Hy in H. clear Hlt Hy. revert H.
    destruct s; sf_cases (Prim2SF x); simpl; intros H; try discriminate;
      cmp_cases; simpl in *; try discriminate; subst; reflexivity.
Qed.

Lemma MaxFloat64_finite :
  Prim2SF MaxFloat64 = S754_finite false 9007199254740991 971.
Proof. vm_compute. reflexivity. Qed.

Lemma nan_add_l x : (nan + x)%float = nan.
Proof. apply Prim2SF_inj. rewrite add_spec. reflexivity. Qed.

Lemma abs_opp x : abs (- x) = abs x.
Proof.
  apply Prim2SF_inj. rewrite !abs_spec, opp_spec.
  destruct (Prim2SF x); reflexivity.
Qed.

(** A NaN compares below nothing, and nothing compares below it. *)
Lemma is_nan_true_Prim2SF x : is_nan x = true -> Prim2SF x = S754_nan.
Proof.
  intros H. destruct (Prim2SF x) eqn:Hx; try reflexivity;
    assert (is_nan x = false) as Hn
      by (apply is_nan_false_Prim2SF; rewrite Hx; discriminate);
    congruence.
Qed.

Lemma ltb_nan_r x y : is_nan y = true -> (x <? y) = false.
Proof.
  intros H. rewrite ltb_spec, (is_nan_true_Prim2SF y H). unfold SFltb.
  destruct (Prim2SF x); reflexivity.
Qed.

Lemma ltb_nan_l x y : is_nan x = true -> (x <? y) = false.
Proof. intros H. rewrite ltb_spec, (is_nan_true_Prim2SF x H). reflexivity. Qed.

Lemma SFadd_comm prec emax x y : SFadd prec emax x y = SFadd prec emax y x.
Proof.
  destruct x as [sx|sx| |sx mx ex], y as [sy|sy| |sy my ey];
    try (destruct sx, sy; reflexivity); try reflexivity.
  unfold SFadd. rewrite (Z.min_comm ey ex), Z.add_comm. reflexivity.
Qed.

Lemma add_comm x y : x + y = y + x.
Proof. apply Prim2SF_inj. rewrite !add_spec. apply SFadd_comm. Qed.

Lemma SFsub_diag prec emax x :
  (exists s, x = S754_zero s) \/ (exists s m e, x = S754_finite s m e) ->
  SFsub prec emax x x = S754_zero false.
Proof.
  intros [[s ->]|(s & m & e & ->)].
  - destruct s; reflexivity.
  - unfold SFsub. rewrite Z.min_id, Z.sub_diag. reflexivity.
Qed.

(** A finite value is a zero or a non-zero finite number. *)
Lemma is_finite_Prim2SF x :
  is_finite x = true ->
  (exists s, Prim2SF x = S754_zero s) \/ (exists s m e, Prim2SF x = S754_finite s m e).
Proof.
  unfold is_finite. intros H. apply negb_true_iff, orb_false_iff in H. destruct H as [Hn Hi].
  apply is_nan_false_Prim2SF in Hn.
  unfold is_infinity in Hi. rewrite FloatAxioms.eqb_spec, abs_spec in Hi.
  destruct (Prim2SF x) as [s|s| |s m e]; eauto; [discriminate|congruence].
Qed.

Lemma sub_diag x : is_finite x = true -> x - x = 0.
Proof.
  intros H. apply Prim2SF_inj. rewrite sub_spec.
  apply SFsub_diag, is_finite_Prim2SF, H.
Qed.

Lemma mul_finite_zero x : is_finite x = true -> x * 0 = 0 \/ x * 0 = - 0.
Proof.
  intros H. apply is_finite_Prim2SF in H.
  destruct H as [[s H]|(s & m & e & H)]; destruct s; [right|left|right|left];
    apply Prim2SF_inj; rewrite ?opp_spec, mul_spec, H; reflexivity.
Qed.

(** Values that compare equal are the same value, or two zeros. *)
Lemma SFcompare_Eq_cases x y :
  SFcompare x y = Some Eq -> x = y \/ (exists s s', x = S754_zero s /\ y = S754_zero s').
Proof.
  sf_cases x; sf_cases y; simpl; intros H; try discriminate; eauto;
    cmp_cases; simpl in *; try discriminate; subst; left; reflexivity.
Qed.

Lemma SFcompare_not_Lt_Eq x y :
  x <> S754_nan -> y <> S754_nan ->
  SFcompare x y <> Some Lt -> SFcompare y x <> Some Lt -> SFcompare x y = Some Eq.
Proof.
  intros Hx Hy H1 H2. destruct (SFle_total x y Hx Hy) as [[H|H]|H]; congruence.
Qed.

Lemma eqb_Eq x y : (x =? y) = true <-> SFcompare (Prim2SF x) (Prim2SF y) = Some Eq.
Proof.
  rewrite FloatAxioms.eqb_spec. unfold SFeqb.
  destruct (SFcompare (Prim2SF x) (Prim2SF y)) as [[| |]|]; split; congruence.
Qed.

(** Neither below the other, and no NaN: equal. *)
Lemma ltb_false_eqb x y :
  is_nan x = false -> is_nan y = false ->
  (x <? y) = false -> (y <? x) = false -> (x =? y) = true.
Proof.
  rewrite !is_nan_false_Prim2SF. intros Hx Hy H1 H2. apply eqb_Eq.
  apply SFcompare_not_Lt_Eq; try assumption; intros H; apply ltb_Lt in H; congruence.
Qed.

Lemma eqb_refl x : is_nan x = false -> (x =? x) = true.
Proof.
  rewrite is_nan_false_Prim2SF. intros H. apply eqb_Eq, SFcompare_refl, H.
Qed.

Lemma Prim2SF_nan_is_nan x : Prim2SF x = S754_nan -> is_nan x = true.
Proof.
  intros H. destruct (is_nan x) eqn:Hn; [reflexivity|].
  apply is_nan_false_Prim2SF in Hn. congruence.
Qed.

(** Adding equal values to the same value gives equal sums, or NaN twice. *)
Lemma add_eqb e x y :
  (x =? y) = true ->
  (e + x =? e + y) = true \/ (is_nan (e + x) = true /\ is_nan (e + y) = true).
Proof.
  intros H. apply eqb_Eq, SFcompare_Eq_cases in H. destruct H as [H|(s & s' & Hx & Hy)].
  - apply Prim2SF_inj in H. subst y.
    destruct (is_nan (e + x)) eqn:Hn; [right; auto|left; apply eqb_refl, Hn].
  - pose proof (add_spec e x) as Sx. pose proof (add_spec e y) as Sy.
    rewrite Hx in Sx. rewrite Hy in Sy.
    destruct (Prim2SF e) as [[|]|[|]| |[|] m ex], s, s'; simpl in Sx, Sy;
      first [ right; split; apply Prim2SF_nan_is_nan; assumption
            | left; apply eqb_Eq; rewrite Sx, Sy; simpl;
              rewrite ?Z.compare_refl, ?compare_cont_Eq, ?Pos.compare_refl; reflexivity ].
Qed.

End Float64.

(** ** Segments *)

Lemma legs_length pts : length (legs pts) = length pts - 1.
Proof.
  induction pts as [|p [|q pts] IH]; simpl in *; auto. rewrite IH. lia.
Qed.

Lemma legs_lookup pts i p q :
  pts !! i = Some p -> pts !! S i = Some q -> legs pts !! i = Some (midpoint p q).
Proof.
  revert i. induction pts as [|p0 pts IH]; intros i Hp Hq.
  - rewrite lookup_nil in Hp. discriminate.
  - destruct pts as [|q0 pts].
    + rewrite lookup_cons_ne_0, lookup_nil in Hq by lia. discriminate.
    + destruct i as [|i].
      * simpl in *. congruence.
      * change (legs (q0 :: pts) !! i = Some (midpoint p q)). apply IH; assumption.
Qed.

Lemma buildSegments_loop finish stops : forall segs p,
  (let '(segs', prevLat, prevLng) :=
     fold_left buildSegments_step stops (segs, fst p, snd p) in
   segs' ++ [midpoint (prevLat, prevLng) finish])
  = segs ++ legs (p :: map stop_point stops ++ [finish]).
Proof.
  induction stops as [|s stops IH]; intros segs [pLat pLng]; simpl.
  - reflexivity.
  - specialize (IH (segs ++ [midpoint (pLat, pLng) (stop_point s)]) (stop_point s)).
    simpl in IH. unfold midpoint in *. simpl in *. rewrite IH.
    rewrite <- app_assoc. reflexivity.
Qed.

Lemma buildSegments_legs startLat startLng endLat endLng stops :
  buildSegmentsFromStops startLat startLng endLat endLng stops
  = legs (walk (startLat, startLng) (endLat, endLng) stops).
Proof.
  unfold buildSegmentsFromStops, walk. destruct stops as [|s stops]; [reflexivity|].
  pose proof (buildSegments_loop (endLat, endLng) (s :: stops) [] (startLat, startLng)) as H.
  simpl fst in H. simpl snd in H.
  destruct (fold_left buildSegments_step (s :: stops) ([], startLat, startLng)) as [[segs pl] pg].
  exact H.
Qed.

(** C6.  For every start, end and ordered stop list: with no stop,
    [buildSegmentsFromStops] returns exactly one point, the coordinate-wise
    midpoint of start and end; in every case it returns [len(stops) + 1]
    points, the i-th being the coordinate-wise midpoint of the i-th
    consecutive pair of the walk start, stop_1, ..., stop_n, end. *)
Theorem buildSegmentsFromStops_midpoints startLat startLng endLat endLng stops :
  let segs := buildSegmentsFromStops startLat startLng endLat endLng stops in
  let pts := walk (startLat, startLng) (endLat, endLng) stops in
  (stops = [] -> segs = [midpoint (startLat, startLng) (endLat, endLng)]) /\
  length segs = length stops + 1 /\
  (forall i p q, pts !! i = Some p -> pts !! S i = Some q ->
                 segs !! i = Some (midpoint p q)).
Proof.
  cbv zeta. rewrite buildSegments_legs. split; [|split].
  - intros ->. reflexivity.
  - rewrite legs_length. unfold walk. simpl. rewrite length_app, length_map. simpl. lia.
  - intros i p q. apply legs_lookup.
Qed.

(** ** Grouping *)

Lemma alter_app_concat (s : Stop) (ordered : list (list Stop)) idx :
  idx < length ordered ->
  concat (alter (λ g, g ++ [s]) idx ordered) ≡ₚ s :: concat ordered.
Proof.
  revert idx. induction ordered as [|g ordered IH]; intros idx Hlt; simpl in *; [lia|].
  destruct idx as [|idx]; simpl.
  - rewrite <- app_assoc. simpl. symmetry. apply Permutation_middle.
  - change (g ++ concat (alter (λ g, g ++ [s]) idx ordered) ≡ₚ s :: g ++ concat ordered).
    rewrite IH by lia. symmetry. apply Permutation_middle.
Qed.

Lemma group_step_in_range st s : seen_in_range st -> seen_in_range (group_step st s).
Proof.
  destruct st as [ordered seen]. unfold seen_in_range, group_step; cbn [fst snd].
  intros Hin. destruct (seen !! stop_key s) as [idx|] eqn:Hk; cbn [fst snd].
  - intros k i Hi. rewrite length_alter. eauto.
  - intros k i Hi. rewrite length_alter, length_app. simpl.
    destruct (decide (stop_key s = k)) as [<-|Hne].
    + rewrite lookup_insert_eq in Hi. inversion Hi. lia.
    + rewrite lookup_insert_ne in Hi by assumption. apply Hin in Hi. lia.
Qed.

Lemma group_step_concat st s :
  seen_in_range st -> concat (fst (group_step st s)) ≡ₚ s :: concat (fst st).
Proof.
  destruct st as [ordered seen]. unfold seen_in_range, group_step; cbn [fst snd].
  intros Hin. destruct (seen !! stop_key s) as [idx|] eqn:Hk; cbn [fst snd].
  - apply alter_app_concat. eauto.
  - rewrite alter_app_concat by (rewrite length_app; simpl; lia).
    rewrite concat_app. simpl. rewrite app_nil_r. reflexivity.
Qed.

(** The loop of [groupStopsByParticipant] never indexes [ordered] out of
    range, and it keeps every stop. *)
Lemma group_loop_in_range stops : forall st,
  seen_in_range st ->
  seen_in_range (fold_left group_step stops st) /\
  concat (fst (fold_left group_step stops st)) ≡ₚ rev stops ++ concat (fst st).
Proof.
  induction stops as [|s stops IH]; intros st Hin; simpl.
  - split; [assumption|reflexivity].
  - destruct (IH (group_step st s) (group_step_in_range st s Hin)) as [H1 H2].
    split; [assumption|]. rewrite H2, group_step_concat by assumption.
    rewrite <- app_assoc. reflexivity.
Qed.

Lemma groupStops_perm stops : concat (groupStopsByParticipant stops) ≡ₚ stops.
Proof.
  unfold groupStopsByParticipant.
  destruct (group_loop_in_range stops ([], ∅)) as [_ H].
  - intros k idx. simpl. rewrite lookup_empty. discriminate.
  - rewrite H. simpl. rewrite app_nil_r. symmetry. apply Permutation_rev.
Qed.

(** Once the only key of the remaining stops is mapped to group 0 and
    there is a single group, every stop is appended to it. *)
Lemma group_loop_single k stops : forall g seen,
  Forall (λ s, stop_key s = k) stops ->
  seen !! k = Some 0 ->
  fold_left group_step stops ([g], seen) = ([g ++ stops], seen).
Proof.
  induction stops as [|s stops IH]; intros g seen Hall Hk; simpl.
  - rewrite app_nil_r. reflexivity.
  - inversion Hall as [|? ? Hs Hrest]; subst. rewrite Hk. simpl.
    rewrite IH by assumption. rewrite <- app_assoc. reflexivity.
Qed.

(** C7.  The groups [groupStopsByParticipant] returns hold as many stops
    as the input; the empty stop list gives no group; and a non-empty list
    whose stops all have the same contributor (the same application id, or
    none: the creator) gives exactly one group, the input in its order. *)
Theorem groupStopsByParticipant_counts (stops : list Stop) :
  length (concat (groupStopsByParticipant stops)) = length stops /\
  (stops = [] -> groupStopsByParticipant stops = []) /\
  (stops <> [] ->
   (forall s s', s ∈ stops -> s' ∈ stops -> ApplicationID s = ApplicationID s') ->
   groupStopsByParticipant stops = [stops]).
Proof.
  split; [|split].
  - rewrite (Permutation_length (groupStops_perm stops)). reflexivity.
  - intros ->. reflexivity.
  - intros Hne Hsame. destruct stops as [|s stops]; [congruence|].
    unfold groupStopsByParticipant. simpl. rewrite lookup_empty. simpl.
    rewrite (group_loop_single (stop_key s)); [reflexivity| |apply lookup_insert_eq].
    apply Forall_forall. intros s' Hs'. unfold stop_key.
    rewrite (Hsame s' s); [reflexivity| |]; set_solver.
Qed.

(** ** Interleavings *)

Lemma concat_insert_head (gs : list (list Stop)) i x xs :
  gs !! i = Some (x :: xs) -> concat gs ≡ₚ x :: concat (<[i := xs]> gs).
Proof.
  revert i. induction gs as [|g gs IH]; intros i Hi.
  - rewrite lookup_nil in Hi. discriminate.
  - destruct i as [|i]; simpl in *.
    + inversion Hi; subst. reflexivity.
    + rewrite (IH i Hi). symmetry. apply Permutation_middle.
Qed.

Lemma concat_all_nil (gs : list (list Stop)) :
  Forall (λ g, g = []) gs -> concat gs = [].
Proof. induction 1; simpl; subst; auto. Qed.

Lemma Interleaving_perm gs l : Interleaving gs l -> l ≡ₚ concat gs.
Proof.
  induction 1 as [gs Hall|gs i x xs l Hi _ IH].
  - rewrite concat_all_nil by assumption. reflexivity.
  - rewrite (concat_insert_head gs i x xs Hi), IH. reflexivity.
Qed.

Lemma Interleaving_sublist gs l :
  Interleaving gs l -> forall j g, gs !! j = Some g -> sublist g l.
Proof.
  induction 1 as [gs Hall|gs i x xs l Hi _ IH]; intros j g Hj.
  - rewrite Forall_forall in Hall. rewrite (Hall g); [constructor|].
    eapply list_elem_of_lookup_2; eassumption.
  - destruct (decide (i = j)) as [->|Hne].
    + rewrite Hi in Hj. inversion Hj; subst. apply sublist_skip. apply (IH j).
      apply list_lookup_insert_eq. eapply lookup_lt_Some; eassumption.
    + apply sublist_cons. apply (IH j). rewrite list_lookup_insert_ne; assumption.
Qed.

Lemma Interleaving_single g : Interleaving [g] g.
Proof.
  induction g as [|x g IH].
  - constructor. repeat constructor.
  - apply (Interleaving_cons [x :: g] 0 x g g); [reflexivity|exact IH].
Qed.

Lemma suffixes_length groups idx :
  length idx = length groups -> length (suffixes groups idx) = length groups.
Proof. intros H. unfold suffixes. rewrite length_zip_with. lia. Qed.

Lemma suffixes_lookup groups idx g :
  length idx = length groups -> g < length groups ->
  suffixes groups idx !! g = Some (drop (idx !!! g) (groups !!! g)).
Proof.
  intros Hlen Hg. unfold suffixes. rewrite lookup_zip_with.
  rewrite (list_lookup_lookup_total_lt idx g) by lia.
  rewrite (list_lookup_lookup_total_lt groups g) by lia. reflexivity.
Qed.

Lemma suffixes_insert groups : forall idx g i,
  suffixes groups (<[g := i]> idx) = <[g := drop i (groups !!! g)]> (suffixes groups idx).
Proof.
  unfold suffixes. induction groups as [|grp groups IH]; intros idx g i.
  - rewrite !zip_with_nil_r. reflexivity.
  - destruct idx as [|i0 idx]; [reflexivity|]. destruct g as [|g]; simpl.
    + reflexivity.
    + f_equal. apply IH.
Qed.

Lemma suffixes_init groups : suffixes groups (replicate (length groups) 0) = groups.
Proof.
  unfold suffixes. induction groups as [|g groups IH]; simpl; [reflexivity|].
  rewrite drop_0. f_equal. exact IH.
Qed.

Lemma concat_insert_tail_length (gs : list (list Stop)) i x xs :
  gs !! i = Some (x :: xs) -> length (concat gs) = S (length (concat (<[i := xs]> gs))).
Proof.
  intros H. rewrite (Permutation_length (concat_insert_head gs i x xs H)). reflexivity.
Qed.

Lemma forallb_false_ex {A} (f : A -> bool) (l : list A) :
  forallb f l = false -> exists x, x ∈ l /\ f x = false.
Proof.
  induction l as [|a l IH]; simpl; [discriminate|].
  destruct (f a) eqn:Hfa; simpl.
  - intros H. destruct (IH H) as (x & Hx & Hfx). exists x. split; [by right|done].
  - intros _. exists a. split; [by left|done].
Qed.

Section GenSpec.
Variable groups : list (list Stop).
Variable max : Z.

Lemma ext_nil st : ext st [] = st.
Proof. destruct st. unfold ext. simpl. rewrite app_nil_r. reflexivity. Qed.

Lemma ext_ext st a b : ext (ext st a) b = ext st (a ++ b).
Proof. unfold ext. simpl. rewrite app_assoc. reflexivity. Qed.

Lemma post_nil st : post groups max st [].
Proof. split; [constructor|]. rewrite app_nil_r. lia. Qed.

Lemma post_app st a b :
  post groups max st a -> post groups max (ext st a) b -> post groups max st (a ++ b).
Proof.
  intros [Ha1 Ha2] [Hb1 Hb2]. simpl in *. split.
  - apply Forall_app. split; assumption.
  - rewrite app_assoc. lia.
Qed.

Lemma gen_done_true st :
  length (indices st) = length groups -> gen_done groups st = true ->
  Forall (λ g, g = []) (suffixes groups (indices st)).
Proof.
  intros Hlen Hdone. unfold gen_done in Hdone. rewrite forallb_forall in Hdone.
  apply Forall_lookup. intros g sfx Hg.
  assert (g < length groups) as Hlt.
  { apply lookup_lt_Some in Hg. rewrite suffixes_length in Hg; assumption. }
  rewrite suffixes_lookup in Hg by assumption. inversion Hg; subst.
  specialize (Hdone g). rewrite in_seq in Hdone.
  apply drop_ge. destruct (Nat.ltb_spec (indices st !!! g) (length (groups !!! g))) as [H|H].
  - exfalso. assert (negb true = true) as C by (apply Hdone; lia). discriminate.
  - exact H.
Qed.

Lemma gen_done_false st :
  gen_done groups st = false ->
  exists g x, g ∈ seq 0 (length groups) /\
              (groups !!! g) !! (indices st !!! g) = Some x.
Proof.
  intros Hdone. apply forallb_false_ex in Hdone. destruct Hdone as (g & Hg & Hlt).
  apply negb_false_iff, Nat.ltb_lt in Hlt.
  destruct (lookup_lt_is_Some_2 (groups !!! g) (indices st !!! g) Hlt) as [x Hx].
  exists g, x. split; assumption.
Qed.

Lemma gen_branch_spec rec bound st g :
  rec_spec groups max rec bound ->
  length (indices st) = length groups -> g < length groups ->
  remaining groups st <= bound ->
  exists new, gen_branch groups rec st g = Some (ext st new) /\ post groups max st new /\
    (is_Some ((groups !!! g) !! (indices st !!! g)) -> below_cap max st -> new <> []).
Proof.
  intros Hrec Hlen Hg Hrem. unfold gen_branch.
  destruct ((groups !!! g) !! (indices st !!! g)) as [x|] eqn:Hx.
  2:{ exists []. rewrite ext_nil. split; [reflexivity|]. split; [apply post_nil|].
      intros [? ?]; discriminate. }
  set (i := indices st !!! g) in *.
  set (st1 := {| result := result st; indices := <[g := S i]> (indices st);
                 current := current st ++ [x] |}).
  assert (suffixes groups (indices st) !! g = Some (x :: drop (S i) (groups !!! g))) as Hsfx.
  { rewrite suffixes_lookup by assumption. fold i. f_equal. apply drop_S. exact Hx. }
  assert (suffixes groups (indices st1)
          = <[g := drop (S i) (groups !!! g)]> (suffixes groups (indices st))) as Hsfx1.
  { simpl. apply suffixes_insert. }
  destruct (Hrec st1) as (new & Hrun & [Hall Hcap] & Hprog).
  { simpl. rewrite length_insert. exact Hlen. }
  { unfold remaining in *. rewrite Hsfx1.
    rewrite (concat_insert_tail_length _ _ _ _ Hsfx) in Hrem. lia. }
  exists new. rewrite Hrun. split; [|split].
  - unfold ext. simpl. f_equal. f_equal.
    + rewrite list_lookup_total_insert_eq by lia. simpl.
      rewrite list_insert_insert_eq. apply list_insert_id.
      apply list_lookup_lookup_total_lt. lia.
    + rewrite length_app. simpl.
      replace (length (current st) + 1 - 1) with (length (current st)) by lia.
      apply take_app_length.
  - split; [|exact Hcap].
    eapply Forall_impl; [exact Hall|]. simpl. intros o (tail & -> & Htail).
    exists (x :: tail). split; [rewrite <- app_assoc; reflexivity|].
    eapply Interleaving_cons; [exact Hsfx|]. rewrite <- Hsfx1. exact Htail.
  - intros _ Hbelow. apply Hprog. exact Hbelow.
Qed.

Lemma gen_loop_spec rec bound :
  rec_spec groups max rec bound ->
  forall gs st,
  Forall (λ g, g < length groups) gs ->
  length (indices st) = length groups ->
  remaining groups st <= bound ->
  exists new, gen_loop groups rec gs st = Some (ext st new) /\ post groups max st new /\
    ((exists g x, g ∈ gs /\ (groups !!! g) !! (indices st !!! g) = Some x) ->
     below_cap max st -> new <> []).
Proof.
  intros Hrec. induction gs as [|g gs IH]; intros st Hgs Hlen Hrem; simpl.
  - exists []. rewrite ext_nil. split; [reflexivity|]. split; [apply post_nil|].
    intros (g & x & Hg & _). inversion Hg.
  - inversion Hgs as [|? ? Hg Hgs']; subst.
    destruct (gen_branch_spec rec bound st g Hrec Hlen Hg Hrem)
      as (new1 & Hrun1 & Hpost1 & Hprog1).
    rewrite Hrun1.
    destruct (IH (ext st new1) Hgs' Hlen Hrem) as (new2 & Hrun2 & Hpost2 & Hprog2).
    exists (new1 ++ new2). rewrite Hrun2, ext_ext. split; [reflexivity|].
    split; [apply post_app; assumption|].
    intros (g' & x & Hg' & Hx) Hbelow.
    destruct ((groups !!! g) !! (indices st !!! g)) as [y|] eqn:Hy.
    + specialize (Hprog1 (ex_intro _ y eq_refl) Hbelow).
      destruct new1; [congruence|discriminate].
    + apply elem_of_cons in Hg'. destruct Hg' as [->|Hg']; [congruence|].
      assert (new1 = []) as ->.
      { unfold gen_branch in Hrun1. rewrite Hy in Hrun1. inversion Hrun1 as [Heq].
        apply (f_equal result) in Heq. simpl in Heq.
        apply (app_inv_head (result st)). rewrite app_nil_r. congruence. }
      simpl. apply Hprog2; [|rewrite ext_nil; exact Hbelow].
      exists g', x. split; assumption.
Qed.

(** [gen] returns whenever its fuel exceeds the number of unconsumed
    stops; it restores [indices] and [current], and only appends results. *)
Lemma gen_spec fuel : rec_spec groups max (gen groups max fuel) fuel.
Proof.
  induction fuel as [|fuel IH]; intros st Hlen Hrem; [lia|]. simpl.
  destruct (Z.leb_spec max (Z.of_nat (length (result st)))) as [Hcap|Hcap].
  { exists []. rewrite ext_nil. split; [reflexivity|]. split; [apply post_nil|].
    unfold below_cap. lia. }
  destruct (gen_done groups st) eqn:Hdone.
  { exists [current st]. split; [reflexivity|]. split; [split|].
    - constructor; [|constructor]. exists []. rewrite app_nil_r. split; [reflexivity|].
      constructor. apply gen_done_true; assumption.
    - rewrite length_app. simpl. lia.
    - discriminate. }
  destruct (gen_loop_spec (gen groups max fuel) fuel IH (seq 0 (length groups)) st)
    as (new & Hrun & Hpost & Hprog).
  { apply Forall_forall. intros g Hg. apply elem_of_seq in Hg. lia. }
  { exact Hlen. }
  { lia. }
  exists new. split; [exact Hrun|]. split; [exact Hpost|].
  intros Hbelow. apply Hprog; [|exact Hbelow].
  apply gen_done_false. exact Hdone.
Qed.

End GenSpec.

Lemma totalLen_concat groups : totalLen groups = length (concat groups).
Proof.
  unfold totalLen.
  assert (forall n, fold_left (λ n g, n + length g) groups n = n + length (concat groups)) as H.
  { induction groups as [|g groups IH]; intros n; simpl; [lia|].
    rewrite IH, length_app. lia. }
  apply (H 0).
Qed.

(** The fuel [allInterleavings] passes to [gen] is enough: the enumeration
    returns, and what it returns is described by [post]. *)
Lemma allInterleavings_run groups max :
  exists new,
    allInterleavings_fuel (S (totalLen groups)) groups max = Some new /\
    allInterleavings groups max = new /\
    Forall (Interleaving groups) new /\
    (2 <= length groups ->
     (Z.of_nat (length new) <= Z.max max 0)%Z /\ ((0 < max)%Z -> new <> [])).
Proof.
  unfold allInterleavings. destruct groups as [|g1 [|g2 groups]].
  - exists []. simpl. repeat split; try constructor; simpl in *; lia.
  - exists [g1]. simpl. repeat split; try lia.
    constructor; [apply Interleaving_single|constructor].
  - set (gs := g1 :: g2 :: groups).
    destruct (gen_spec gs max (S (totalLen gs)) (gen_init gs))
      as (new & Hrun & [Hall Hcap] & Hprog).
    { simpl. rewrite length_replicate. reflexivity. }
    { unfold remaining. simpl indices. rewrite suffixes_init, totalLen_concat. lia. }
    exists new. unfold allInterleavings_fuel. fold gs. rewrite Hrun. simpl.
    split; [reflexivity|]. split; [reflexivity|]. split.
    + eapply Forall_impl; [exact Hall|]. simpl. intros o (tail & -> & Htail).
      rewrite suffixes_init in Htail. exact Htail.
    + intros _. simpl in Hcap. split; [exact Hcap|]. intros Hmax. apply Hprog.
      unfold below_cap. simpl. exact Hmax.
Qed.

(** C3.  Every ordering [allInterleavings groups max] returns is an
    order-preserving merge of the groups: it holds exactly the stops of all
    groups, each once (a permutation of their concatenation), and each group
    is a subsequence of it, so the stops of a group keep their relative
    order.  (Lemma [allInterleavings_run]: the enumeration returns.) *)
Theorem allInterleavings_order_preserving (groups : list (list Stop)) (max : Z) :
  Forall (λ o, Interleaving groups o /\
               o ≡ₚ concat groups /\
               forall j g, groups !! j = Some g -> sublist g o)
         (allInterleavings groups max).
Proof.
  destruct (allInterleavings_run groups max) as (new & _ & -> & Hall & _).
  eapply Forall_impl; [exact Hall|]. simpl. intros o Ho. split; [exact Ho|]. split.
  - apply Interleaving_perm. exact Ho.
  - apply Interleaving_sublist. exact Ho.
Qed.

(** C4, amended.  For every cap of at least 1 (and for a cap of 0 unless
    there is exactly one group), [allInterleavings groups cap] returns at
    most [cap] orderings; for every cap it returns exactly one ordering, the
    group itself, when there is exactly one group, and none when there is
    no group. *)
Theorem allInterleavings_cap (groups : list (list Stop)) (cap : Z) :
  ((1 <= cap)%Z \/ ((0 <= cap)%Z /\ length groups <> 1) ->
   (Z.of_nat (length (allInterleavings groups cap)) <= cap)%Z) /\
  (forall g, groups = [g] -> allInterleavings groups cap = [g]) /\
  (groups = [] -> allInterleavings groups cap = []).
Proof.
  split; [|split].
  - intros Hcap. destruct groups as [|g1 [|g2 groups]].
    + unfold allInterleavings. simpl. lia.
    + unfold allInterleavings. simpl in *. lia.
    + destruct (allInterleavings_run (g1 :: g2 :: groups) cap) as (new & _ & -> & _ & Hbig).
      destruct Hbig as [Hle _]; [simpl; lia|]. lia.
  - intros g ->. reflexivity.
  - intros ->. reflexivity.
Qed.

Lemma allInterleavings_nonempty groups max :
  groups <> [] -> (0 < max)%Z -> allInterleavings groups max <> [].
Proof.
  intros Hne Hmax. destruct (allInterleavings_run groups max) as (new & _ & Heq & _ & Hbig).
  destruct groups as [|g1 [|g2 groups]]; [congruence|discriminate|].
  rewrite Heq. apply Hbig; [simpl; lia|exact Hmax].
Qed.

(** ** Symmetry of the distance *)

Section HaversineSym.
Variable M : MathLib.
Hypothesis Sin_odd : forall x, Sin M (- x)%float = (- Sin M x)%float.

(** The squared sine of half an angle given in degrees does not depend on
    the sign of the angle. *)
Lemma half_angle_opp (d : float) :
  Sin M (- d * Pi / 180 / 2)%float = (- Sin M (d * Pi / 180 / 2))%float.
Proof. rewrite Float64.mul_opp_l, !Float64.div_opp_l. apply Sin_odd. Qed.

Lemma half_angle_swap (x y : float) :
  Sin M ((x - y) * Pi / 180 / 2)%float = Sin M ((y - x) * Pi / 180 / 2)%float \/
  Sin M ((x - y) * Pi / 180 / 2)%float = (- Sin M ((y - x) * Pi / 180 / 2))%float.
Proof.
  destruct (Float64.sub_swap y x) as [H|H]; rewrite H; [left; reflexivity|right].
  apply half_angle_opp.
Qed.

(** The two calls compute the same intermediate [a], hence the same
    distance. *)
Lemma Haversine_swap (lat1 lng1 lat2 lng2 : float) :
  Haversine M lat1 lng1 lat2 lng2 = Haversine M lat2 lng2 lat1 lng1.
Proof.
  unfold Haversine. cbv zeta.
  set (c1 := Cos M (lat1 * Pi / 180)%float).
  set (c2 := Cos M (lat2 * Pi / 180)%float).
  set (sLat := Sin M ((lat2 - lat1) * Pi / 180 / 2)%float).
  set (sLng := Sin M ((lng2 - lng1) * Pi / 180 / 2)%float).
  set (sLat' := Sin M ((lat1 - lat2) * Pi / 180 / 2)%float).
  set (sLng' := Sin M ((lng1 - lng2) * Pi / 180 / 2)%float).
  assert ((sLat * sLat + c1 * c2 * sLng * sLng
           = sLat' * sLat' + c2 * c1 * sLng' * sLng')%float) as Ha.
  { rewrite (Float64.mul_comm c2 c1). subst sLat sLng sLat' sLng'.
    destruct (half_angle_swap lat2 lat1) as [-> | ->],
             (half_angle_swap lng2 lng1) as [-> | ->];
      rewrite ?Float64.mul_opp_opp, ?Float64.mul_opp_r, ?Float64.mul_opp_l,
              ?Float64.opp_involutive; reflexivity. }
  rewrite Ha. reflexivity.
Qed.

(** C8.  The Haversine distance is symmetric: for all coordinates,
    [Haversine lat1 lng1 lat2 lng2] and [Haversine lat2 lng2 lat1 lng1] are
    the same [float64] value (so [==] holds between them unless the value
    is NaN), given that [math.Sin] is odd (Go's [Sin] computes on [|x|] and
    restores the sign). *)
Theorem Haversine_symmetric (lat1 lng1 lat2 lng2 : float) :
  Haversine M lat1 lng1 lat2 lng2 = Haversine M lat2 lng2 lat1 lng1 /\
  (is_nan (Haversine M lat1 lng1 lat2 lng2) = false ->
   (Haversine M lat1 lng1 lat2 lng2 =? Haversine M lat2 lng2 lat1 lng1)%float = true).
Proof.
  split; [apply Haversine_swap|].
  rewrite <- (Haversine_swap lat1 lng1 lat2 lng2). unfold is_nan.
  intros Hn. apply negb_false_iff, Hn.
Qed.

End HaversineSym.

(** ** Running minimum with a sentinel *)

Section RunningMin.
Context {A : Type}.
Variable f : A -> float.
Variable step : float -> A -> float.
Hypothesis step_eq : forall m a, step m a = if (f a <? m)%float then f a else m.

Lemma running_min_spec l : forall seed,
  let m := fold_left step l seed in
  ((exists a, a ∈ l /\ m = f a /\ (m <? seed)%float = true) \/
   (m = seed /\ Forall (λ a, (f a <? seed)%float = false) l)) /\
  Forall (λ a, (f a <? m)%float = false) l.
Proof.
  induction l as [|a l IH]; intros seed; simpl.
  - split; [right; split; [reflexivity|constructor]|constructor].
  - destruct (IH (step seed a)) as [Hm Hall]. clear IH.
    set (m := fold_left step l (step seed a)) in *.
    rewrite step_eq in Hm. destruct (f a <? seed)%float eqn:Hlt.
    + (* the value replaces the running minimum *)
      split.
      * left. destruct Hm as [(b & Hb & Hmb & Hlt')|[Hmb _]].
        -- exists b. split; [right; exact Hb|]. split; [exact Hmb|].
           eapply Float64.ltb_trans; eassumption.
        -- exists a. split; [left|]. split; [exact Hmb|]. rewrite Hmb. exact Hlt.
      * constructor; [|exact Hall].
        destruct Hm as [(b & _ & _ & Hlt')|[Hmb _]].
        -- destruct (f a <? m)%float eqn:Ham; [|reflexivity].
           rewrite <- (Float64.ltb_irrefl m). symmetry. eapply Float64.ltb_trans; eassumption.
        -- rewrite Hmb. apply Float64.ltb_irrefl.
    + (* the running minimum stays *)
      split.
      * destruct Hm as [(b & Hb & Hmb & Hlt')|[Hmb Hno]].
        -- left. exists b. split; [right; exact Hb|]. split; assumption.
        -- right. split; [exact Hmb|]. constructor; assumption.
      * constructor; [|exact Hall].
        destruct Hm as [(b & _ & _ & Hlt')|[Hmb _]].
        -- destruct (f a <? m)%float eqn:Ham; [|reflexivity].
           rewrite <- Hlt. symmetry. eapply Float64.ltb_trans; eassumption.
        -- rewrite Hmb. exact Hlt.
Qed.

Lemma sentinel_loop_spec l :
  least_with_sentinel (fold_left step l MaxFloat64) (map f l).
Proof.
  destruct (running_min_spec l MaxFloat64) as [Hm Hall].
  set (m := fold_left step l MaxFloat64) in *.
  split; [|split].
  - destruct Hm as [(a & Ha & Hma & Hlt)|[Hm Hno]].
    + left. split; [|exact Hlt]. rewrite Hma. apply list_elem_of_fmap_2, Ha.
    + right. split; [exact Hm|]. apply Forall_fmap. exact Hno.
  - destruct Hm as [(a & _ & _ & Hlt)|[Hm _]].
    + apply Float64.ltb_leb, Hlt.
    + rewrite Hm. reflexivity.
  - apply Forall_fmap. exact Hall.
Qed.

End RunningMin.

(** When no value is NaN or +Inf, the least of the sentinel and the values
    is the minimum of the values. *)
Lemma least_with_sentinel_minimum m ds :
  ds <> [] ->
  Forall (λ d, (d <=? MaxFloat64)%float = true) ds ->
  least_with_sentinel m ds -> is_minimum m ds.
Proof.
  intros Hne Hfin (Hm & Hle & Hall).
  assert (is_nan m = false) as Hnan by apply (Float64.leb_not_nan _ _ Hle).
  split.
  - destruct Hm as [[Hin _]|[Hm Hno]]; [exact Hin|].
    destruct ds as [|d ds]; [congruence|]. rewrite Hm.
    inversion Hfin as [|? ? Hd _]; subst. inversion Hno as [|? ? Hd' _]; subst.
    rewrite <- (Float64.leb_not_ltb_finite _ _ _ _ _ Float64.MaxFloat64_finite Hd Hd'). left.
  - rewrite Forall_forall in Hfin, Hall. apply Forall_forall. intros d Hd.
    apply Float64.ltb_false_leb; [exact Hnan| |apply Hall, Hd].
    apply (Float64.leb_not_nan _ _ (Hfin d Hd)).
Qed.

(** ** The deviation of a route *)

Section DeviationSpec.
Variable M : MathLib.

Lemma enumerated_nil route : enumerated route = [] -> Stops route = [].
Proof.
  intros Hnil. destruct (Stops route) as [|s stops] eqn:Hstops; [reflexivity|].
  exfalso. unfold enumerated in Hnil. revert Hnil. apply allInterleavings_nonempty.
  - intros Hg. pose proof (groupStops_perm (Stops route)) as Hp.
    rewrite Hg, Hstops in Hp. simpl in Hp. apply Permutation_nil_cons in Hp. exact Hp.
  - reflexivity.
Qed.

Lemma CalculateDeviation_unfold route search :
  CalculateDeviation M route search =
  if length (enumerated route) =? 0 then
    (endpointDeviation M route search + stopDeviation M route search (Stops route))%float
  else
    (endpointDeviation M route search +
     fold_left (minStopDev_step M route search) (enumerated route) MaxFloat64)%float.
Proof. reflexivity. Qed.

Lemma minStopDev_least route search :
  least_with_sentinel
    (fold_left (minStopDev_step M route search) (enumerated route) MaxFloat64)
    (stopDeviations M route search).
Proof.
  apply (sentinel_loop_spec (stopDeviation M route search)). intros m o. reflexivity.
Qed.

Lemma minDistance_least lat lng segments :
  least_with_sentinel (minDistanceToSegment M lat lng segments)
                      (segmentDistances M lat lng segments).
Proof.
  apply (sentinel_loop_spec (λ seg, Haversine M lat lng (fst seg) (snd seg))).
  intros m seg. reflexivity.
Qed.

(** C2, amended.  [CalculateDeviation] returns the endpoint deviation plus
    a stop component.  With no enumerated ordering (the route has no stop)
    the component is the stop deviation of the empty stop list, whose only
    segment point is the midpoint of start and end.  Otherwise it is the
    least of [math.MaxFloat64] and the stop deviations of the enumerated
    orderings, which is the minimum over the enumerated orderings whenever
    none of these deviations is NaN or +Inf. *)
Theorem CalculateDeviation_sum (route : Route) (search : SearchInput) :
  (enumerated route = [] /\ Stops route = [] /\
   CalculateDeviation M route search =
     (endpointDeviation M route search + stopDeviation M route search [])%float /\
   routeSegments route [] =
     [midpoint (StartLat route, StartLng route) (EndLat route, EndLng route)])
  \/
  (enumerated route <> [] /\
   exists m,
     CalculateDeviation M route search = (endpointDeviation M route search + m)%float /\
     least_with_sentinel m (stopDeviations M route search) /\
     (Forall (λ d, (d <=? MaxFloat64)%float = true) (stopDeviations M route search) ->
      is_minimum m (stopDeviations M route search))).
Proof.
  rewrite CalculateDeviation_unfold.
  destruct (enumerated route) as [|o os] eqn:Henum.
  - left. pose proof (enumerated_nil route Henum) as Hstops.
    split; [reflexivity|]. split; [exact Hstops|]. simpl. rewrite Hstops.
    split; reflexivity.
  - right. split; [discriminate|].
    pose proof (minStopDev_least route search) as Hleast.
    rewrite Henum in Hleast.
    eexists. split; [reflexivity|]. split; [exact Hleast|].
    intros Hfin. apply least_with_sentinel_minimum; [|exact Hfin|exact Hleast].
    unfold stopDeviations. rewrite Henum. discriminate.
Qed.

(** ** The sentinels *)

Lemma buildSegments_nonempty startLat startLng endLat endLng stops :
  exists p ps, buildSegmentsFromStops startLat startLng endLat endLng stops = p :: ps.
Proof.
  rewrite buildSegments_legs. unfold walk.
  destruct (map stop_point stops) as [|q qs]; simpl; eauto.
Qed.

(** C10, amended.  [buildSegmentsFromStops] returns at least one segment
    point, and a route with at least one stop has at least one enumerated
    ordering under the cap of 500.  The [math.MaxFloat64] of
    [minDistanceToSegment] is replaced by an actual Haversine distance
    exactly when some distance is below it, and the one of
    [CalculateDeviation] by the stop deviation of an enumerated ordering
    exactly when some deviation is below it; otherwise (every value NaN,
    +Inf or [math.MaxFloat64]) the sentinel is what is returned. *)
Theorem sentinel_or_actual_distance (route : Route) (search : SearchInput) :
  (forall o, exists p ps, routeSegments route o = p :: ps) /\
  (Stops route <> [] -> exists o os, enumerated route = o :: os) /\
  (forall lat lng o,
     sentinel_or_actual (minDistanceToSegment M lat lng (routeSegments route o))
                        (segmentDistances M lat lng (routeSegments route o))) /\
  (enumerated route <> [] ->
   exists m,
     CalculateDeviation M route search = (endpointDeviation M route search + m)%float /\
     sentinel_or_actual m (stopDeviations M route search)).
Proof.
  split; [|split; [|split]].
  - intros o. apply buildSegments_nonempty.
  - intros Hne. destruct (enumerated route) as [|o os] eqn:Henum; [|eauto].
    destruct Hne. apply enumerated_nil. exact Henum.
  - intros lat lng o. apply minDistance_least.
  - intros Hne. rewrite CalculateDeviation_unfold.
    pose proof (minStopDev_least route search) as [Hm _].
    destruct (enumerated route) as [|o os] eqn:Henum; [congruence|].
    eexists. split; [reflexivity|]. exact Hm.
Qed.

(** ** Overflowing coordinates *)

Hypothesis Hgo : go_special_cases M.

(** A latitude difference that overflows makes the distance NaN. *)
Lemma Haversine_overflow lat1 lng1 lat2 lng2 :
  ((lat2 - lat1) * Pi / 180 / 2)%float = neg_infinity ->
  Haversine M lat1 lng1 lat2 lng2 = nan.
Proof.
  destruct Hgo as [Hsin Hatan]. intros Hinf. unfold Haversine. cbv zeta.
  rewrite Hinf, Hsin.
  change (nan * nan)%float with nan. rewrite Float64.nan_add_l.
  change (sqrt nan) with nan. change (1 - nan)%float with nan.
  change (sqrt nan) with nan. rewrite Hatan.
  reflexivity.
Qed.

Lemma minDistance_all_nan lat lng segments :
  Forall (λ seg, Haversine M lat lng (fst seg) (snd seg) = nan) segments ->
  minDistanceToSegment M lat lng segments = MaxFloat64.
Proof.
  unfold minDistanceToSegment. induction 1 as [|seg segments Hseg _ IH]; simpl.
  - reflexivity.
  - unfold minDistance_step at 2. rewrite Hseg. exact IH.
Qed.

End DeviationSpec.

(** ** Sorting *)

Section InsertionSort.
Context {A : Type}.
Variable less : A -> A -> bool.

Lemma bubble_perm x racc : bubble less x racc ≡ₚ x :: racc.
Proof.
  induction racc as [|p rest IH]; simpl; [reflexivity|].
  destruct (less x p); [|reflexivity]. rewrite IH. apply Permutation_swap.
Qed.

Lemma bubble_loop_perm l : forall racc,
  fold_left (λ racc x, bubble less x racc) l racc ≡ₚ l ++ racc.
Proof.
  induction l as [|x l IH]; intros racc; simpl; [reflexivity|].
  rewrite IH, bubble_perm. symmetry. apply Permutation_middle.
Qed.

Lemma insertionSort_perm l : insertionSort less l ≡ₚ l.
Proof.
  unfold insertionSort. rewrite reverse_Permutation, bubble_loop_perm, app_nil_r.
  reflexivity.
Qed.

Variable univ : list A.
Hypothesis Hord : less_ordering less univ.

Lemma bubble_sorted x racc :
  x ∈ univ -> (forall p, p ∈ racc -> p ∈ univ) ->
  StronglySorted (not_less less) racc -> StronglySorted (not_less less) (bubble less x racc).
Proof.
  destruct Hord as (Hirr & Htr & Hneg).
  intros Hx Hin Hs. induction Hs as [|p rest Hs IH Hp]; simpl.
  - constructor; constructor.
  - assert (p ∈ univ) as Hpu by (apply Hin; left).
    assert (forall q, q ∈ rest -> q ∈ univ) as Hru by (intros q Hq; apply Hin; right; exact Hq).
    destruct (less x p) eqn:Hxp.
    + constructor; [apply IH, Hru|].
      apply Forall_forall. intros q Hq.
      rewrite bubble_perm in Hq. apply elem_of_cons in Hq. destruct Hq as [->|Hq].
      * unfold not_less. destruct (less p x) eqn:Hpx; [|reflexivity].
        rewrite <- (Hirr x Hx). symmetry. apply (Htr x p x); assumption.
      * rewrite Forall_forall in Hp. apply Hp. exact Hq.
    + constructor; [constructor; assumption|].
      constructor; [exact Hxp|].
      apply Forall_forall. intros q Hq. rewrite Forall_forall in Hp.
      unfold not_less.
      apply (Hneg x p q); [exact Hx|exact Hpu|apply Hru, Hq|exact Hxp|apply Hp, Hq].
Qed.

Lemma bubble_loop_sorted l : forall racc,
  (forall x, x ∈ l -> x ∈ univ) -> (forall p, p ∈ racc -> p ∈ univ) ->
  StronglySorted (not_less less) racc ->
  StronglySorted (not_less less) (fold_left (λ racc x, bubble less x racc) l racc).
Proof.
  induction l as [|x l IH]; intros racc Hl Hracc Hs; simpl; [exact Hs|].
  apply IH.
  - intros y Hy. apply Hl. right. exact Hy.
  - intros p Hp. rewrite bubble_perm in Hp. apply elem_of_cons in Hp.
    destruct Hp as [->|Hp]; [apply Hl; left|apply Hracc, Hp].
  - apply bubble_sorted; [apply Hl; left|exact Hracc|exact Hs].
Qed.

Lemma StronglySorted_lookup2 (l : list A) :
  StronglySorted (not_less less) l ->
  forall i j a b, i < j -> l !! i = Some a -> l !! j = Some b -> not_less less a b.
Proof.
  induction 1 as [|p rest Hs IH Hp]; intros i j a b Hij Hi Hj.
  - rewrite lookup_nil in Hi. discriminate.
  - destruct j as [|j]; [lia|]. simpl in Hj. destruct i as [|i]; simpl in Hi.
    + inversion Hi; subst. rewrite Forall_forall in Hp. apply Hp.
      eapply list_elem_of_lookup_2. exact Hj.
    + apply (IH i j); [lia|assumption|assumption].
Qed.

End InsertionSort.

Lemma insertionSort_contract {A} : sort_contract (@insertionSort A).
Proof.
  intros less l. split; [apply insertionSort_perm|].
  intros Hord i j a b Hij Hi Hj. unfold insertionSort in *.
  set (racc := fold_left (λ racc x, bubble less x racc) l []) in *.
  assert (StronglySorted (not_less less) racc) as Hs.
  { apply (bubble_loop_sorted less l Hord l []); [auto| |constructor].
    intros p Hp. inversion Hp. }
  pose proof (lookup_lt_Some _ _ _ Hi) as Hli.
  pose proof (lookup_lt_Some _ _ _ Hj) as Hlj.
  rewrite length_reverse in Hli, Hlj.
  rewrite reverse_lookup in Hi, Hj by assumption.
  apply (StronglySorted_lookup2 less racc Hs (length racc - S j) (length racc - S i));
    [lia|assumption|assumption].
Qed.

(** ** Search *)

Lemma forallb_elem_of {A} (p : A -> bool) (l : list A) :
  forallb p l = true <-> forall x, x ∈ l -> p x = true.
Proof.
  rewrite forallb_forall. split; intros H x Hx; apply H; apply list_elem_of_In; exact Hx.
Qed.

Section SearchSpec.
Variable M : MathLib.
Variable sort_Slice :
  (routeWithDev -> routeWithDev -> bool) -> list routeWithDev -> list routeWithDev.
Hypothesis sort_Slice_ok : sort_contract sort_Slice.

Lemma Search_loop_spec search P routes : forall withDev,
  Forall P routes ->
  Forall (scored_entry M search P) withDev ->
  Forall (scored_entry M search P) (fold_left (Search_step M search) routes withDev).
Proof.
  induction routes as [|r routes IH]; intros withDev HP Hacc; simpl; [exact Hacc|].
  inversion HP as [|? ? Hr HP']; subst. apply IH; [exact HP'|].
  unfold Search_step.
  destruct (MaxDeviation r <? CalculateDeviation M r search)%float eqn:Hgt; [exact Hacc|].
  apply Forall_app. split; [exact Hacc|].
  constructor; [|constructor]. split; [exact Hr|]. split; [reflexivity|exact Hgt].
Qed.

Lemma Search_sorted_entries search P routes :
  Forall P routes ->
  Forall (scored_entry M search P)
    (sort_Slice dev_less (fold_left (Search_step M search) routes [])).
Proof.
  intros HP. destruct (sort_Slice_ok dev_less (fold_left (Search_step M search) routes []))
    as [Hperm _].
  rewrite Hperm. apply Search_loop_spec; [exact HP|constructor].
Qed.

(** C1.  For every query, [Search] returns no route whose score exceeds
    its [MaxDeviation]: every returned route is a candidate for which
    [score > MaxDeviation] is false. *)
Theorem Search_within_threshold (routes : list Route) (search : SearchInput) :
  exists out,
    Search M sort_Slice (Fetched routes) search = Fetched out /\
    Forall (λ r, r ∈ routes /\
                 (MaxDeviation r <? CalculateDeviation M r search)%float = false) out.
Proof.
  eexists. split; [reflexivity|].
  apply Forall_fmap.
  eapply Forall_impl; [apply (Search_sorted_entries search (λ r, r ∈ routes))|].
  - apply Forall_forall. auto.
  - intros e (Hin & Hdev & Hle). simpl. rewrite <- Hdev. split; assumption.
Qed.

Lemma dev_less_ordering (l : list routeWithDev) :
  Forall (λ e, is_nan (dev e) = false) l -> less_ordering dev_less l.
Proof.
  intros Hnan. rewrite Forall_forall in Hnan. unfold dev_less. split; [|split].
  - intros a _. apply Float64.ltb_irrefl.
  - intros a b c _ _ _. apply Float64.ltb_trans.
  - intros a b c Ha Hb Hc Hab Hbc.
    apply Float64.leb_ltb_false.
    apply (Float64.leb_trans _ (dev b)); apply Float64.ltb_false_leb; auto.
Qed.

(** C5, amended.  For every list of candidates and every query for which
    no candidate's score is NaN, the routes [Search] returns are in
    non-decreasing order of score. *)
Theorem Search_sorted (routes : list Route) (search : SearchInput)
    (Hnan : forallb (λ r, negb (is_nan (CalculateDeviation M r search))) routes = true) :
  exists out,
    Search M sort_Slice (Fetched routes) search = Fetched out /\
    forall i j r1 r2, i < j -> out !! i = Some r1 -> out !! j = Some r2 ->
      (CalculateDeviation M r1 search <=? CalculateDeviation M r2 search)%float = true.
Proof.
  eexists. split; [reflexivity|].
  set (withDev := fold_left (Search_step M search) routes []).
  pose (P := λ r : Route, is_nan (CalculateDeviation M r search) = false).
  assert (Forall P routes) as HP.
  { apply Forall_forall. intros r Hr. rewrite forallb_elem_of in Hnan.
    apply negb_true_iff. apply Hnan, Hr. }
  pose proof (Search_sorted_entries search P routes HP) as Hout. fold withDev in Hout.
  assert (Forall (λ e, is_nan (dev e) = false) withDev) as Hnan'.
  { eapply Forall_impl; [apply (Search_loop_spec search P routes [] HP); constructor|].
    intros e (HPe & Hdev & _). simpl. rewrite Hdev. exact HPe. }
  destruct (sort_Slice_ok dev_less withDev) as [_ Hsorted].
  specialize (Hsorted (dev_less_ordering withDev Hnan')).
  intros i j r1 r2 Hij H1 H2.
  rewrite list_lookup_fmap in H1, H2.
  destruct (sort_Slice dev_less withDev !! i) as [e1|] eqn:He1; [|discriminate].
  destruct (sort_Slice dev_less withDev !! j) as [e2|] eqn:He2; [|discriminate].
  simpl in H1, H2. inversion H1; inversion H2; subst.
  rewrite Forall_forall in Hout.
  destruct (Hout e1 (list_elem_of_lookup_2 _ _ _ He1)) as (Hn1 & Hd1 & _).
  destruct (Hout e2 (list_elem_of_lookup_2 _ _ _ He2)) as (Hn2 & Hd2 & _).
  rewrite <- Hd1, <- Hd2.
  apply Float64.ltb_false_leb; [rewrite Hd1; exact Hn1|rewrite Hd2; exact Hn2|].
  apply (Hsorted i j e1 e2 Hij He1 He2).
Qed.

End SearchSpec.

(** ** Sample runs *)

Lemma smallAngle_Sin_odd x : Sin smallAngle (- x)%float = (- Sin smallAngle x)%float.
Proof.
  simpl. unfold is_infinity. rewrite Float64.abs_opp.
  destruct (abs x =? infinity)%float; reflexivity.
Qed.

Lemma smallAngle_special_cases : go_special_cases smallAngle.
Proof. split; reflexivity. Qed.

Lemma enumerated_route1 : enumerated route1 = [[stopA; stopB]; [stopB; stopA]].
Proof. vm_compute. reflexivity. Qed.

Lemma route1_segments_overflow o :
  o ∈ enumerated route1 ->
  Forall (λ seg, ((fst seg - hugeLat) * Pi / 180 / 2)%float = neg_infinity)
         (routeSegments route1 o).
Proof.
  rewrite enumerated_route1. intros Ho.
  repeat (apply elem_of_cons in Ho; destruct Ho as [->|Ho]);
    [| |inversion Ho]; vm_compute; repeat constructor.
Qed.

Lemma route1_huge_minDistance M o :
  go_special_cases M -> o ∈ enumerated route1 ->
  minDistanceToSegment M hugeLat 0 (routeSegments route1 o) = MaxFloat64.
Proof.
  intros HM Ho. apply minDistance_all_nan.
  eapply Forall_impl; [apply route1_segments_overflow, Ho|].
  intros seg Hseg. apply Haversine_overflow; assumption.
Qed.

Lemma route1_huge_fold M n :
  go_special_cases M ->
  Forall (λ d, (d <? MaxFloat64)%float = false) (stopDeviations M route1 (searchHuge n)) ->
  CalculateDeviation M route1 (searchHuge n)
  = (endpointDeviation M route1 (searchHuge n) + MaxFloat64)%float.
Proof.
  intros HM Hno. rewrite CalculateDeviation_unfold.
  destruct (minStopDev_least M route1 (searchHuge n)) as ([[Hin Hlt]|[Hm _]] & _ & _).
  - rewrite Forall_forall in Hno. rewrite (Hno _ Hin) in Hlt. discriminate.
  - rewrite Hm, enumerated_route1. reflexivity.
Qed.

(** C2, counterexample.  A query with two via-points at latitude 1e308
    against [route1] (two stops of different contributors, hence two
    enumerated orderings): the latitude difference overflows, every
    distance to a segment point is NaN, each via-point contributes
    [math.MaxFloat64] and every ordering's stop deviation is +Inf; the stop
    component [CalculateDeviation] adds is [math.MaxFloat64], not their
    minimum. *)
Lemma CalculateDeviation_infinite_orderings :
  enumerated route1 = [[stopA; stopB]; [stopB; stopA]] /\
  (MaxFloat64 <? infinity)%float = true /\
  forall M, go_special_cases M ->
    Forall (λ d, d = infinity) (stopDeviations M route1 (searchHuge 2)) /\
    CalculateDeviation M route1 (searchHuge 2)
    = (endpointDeviation M route1 (searchHuge 2) + MaxFloat64)%float.
Proof.
  split; [apply enumerated_route1|]. split; [reflexivity|]. intros M HM.
  assert (Forall (λ d, d = infinity) (stopDeviations M route1 (searchHuge 2))) as Hinf.
  { unfold stopDeviations. apply Forall_fmap, Forall_forall. intros o Ho.
    change ((0 + minDistanceToSegment M hugeLat 0 (routeSegments route1 o)
               + minDistanceToSegment M hugeLat 0 (routeSegments route1 o))%float = infinity).
    rewrite (route1_huge_minDistance M o HM Ho). reflexivity. }
  split; [exact Hinf|]. apply route1_huge_fold; [exact HM|].
  eapply Forall_impl; [exact Hinf|]. intros d ->. reflexivity.
Qed.

(** C10, counterexample.  A query with one via-point at latitude 1e308
    against [route1]: [minDistanceToSegment] returns the sentinel for both
    enumerated orderings although their segment lists are not empty, and
    the sentinel is the stop component of the returned score. *)
Lemma sentinel_returned_on_overflow :
  enumerated route1 = [[stopA; stopB]; [stopB; stopA]] /\
  forall M, go_special_cases M ->
    Forall (λ o, minDistanceToSegment M hugeLat 0 (routeSegments route1 o) = MaxFloat64)
           (enumerated route1) /\
    CalculateDeviation M route1 (searchHuge 1)
    = (endpointDeviation M route1 (searchHuge 1) + MaxFloat64)%float.
Proof.
  split; [apply enumerated_route1|]. intros M HM.
  split.
  - apply Forall_forall. intros o Ho. apply route1_huge_minDistance; assumption.
  - apply route1_huge_fold; [exact HM|].
    unfold stopDeviations. apply Forall_fmap, Forall_forall. intros o Ho.
    change (((0 + minDistanceToSegment M hugeLat 0 (routeSegments route1 o))%float
             <? MaxFloat64)%float = false).
    rewrite (route1_huge_minDistance M o HM Ho). reflexivity.
Qed.

(** C1 on four candidates, one of them beyond its threshold. *)
Lemma Search_within_threshold_witness :
  exists out,
    Search smallAngle insertionSort (Fetched candidates) search1 = Fetched out /\
    Forall (λ r, r ∈ candidates /\
                 (MaxDeviation r <? CalculateDeviation smallAngle r search1)%float = false) out.
Proof.
  exact (Search_within_threshold smallAngle insertionSort insertionSort_contract
           candidates search1).
Defined.

(** C5 on the same candidates, none of whose scores is NaN. *)
Lemma Search_sorted_witness :
  exists out,
    Search smallAngle insertionSort (Fetched candidates) search1 = Fetched out /\
    forall i j r1 r2, i < j -> out !! i = Some r1 -> out !! j = Some r2 ->
      (CalculateDeviation smallAngle r1 search1
       <=? CalculateDeviation smallAngle r2 search1)%float = true.
Proof.
  apply (Search_sorted smallAngle insertionSort insertionSort_contract candidates search1).
  vm_compute. reflexivity.
Defined.

(** C8 between two points near London and Paris. *)
Lemma Haversine_symmetric_witness :
  (Haversine smallAngle 51.5 (-0.125) 48.75 2.25
   =? Haversine smallAngle 48.75 2.25 51.5 (-0.125))%float = true.
Proof.
  apply (Haversine_symmetric smallAngle smallAngle_Sin_odd 51.5 (-0.125) 48.75 2.25).
  vm_compute. reflexivity.
Defined.

(** C4 on three groups of one stop and a cap of 2. *)
Lemma allInterleavings_cap_witness :
  (Z.of_nat (length (allInterleavings [[stopA]; [stopB]; [stopC]] 2)) < 3)%Z.
Proof.
  destruct (allInterleavings_cap [[stopA]; [stopB]; [stopC]] 2) as [Hle _].
  assert (1 <= 2)%Z as Hcap by lia.
  specialize (Hle (or_introl Hcap)). lia.
Defined.

(** C4, counterexample.  With exactly one group and a cap of 0 the result
    has one ordering, more than the cap; and under a negative cap the
    empty result of two groups is more than the cap too. *)
Lemma allInterleavings_exceeds_zero_cap :
  allInterleavings [[stopA; stopB]] 0 = [[stopA; stopB]] /\
  (0 < Z.of_nat (length (allInterleavings [[stopA; stopB]] 0)))%Z /\
  allInterleavings [[stopA]; [stopB]] (-1) = [] /\
  (-1 < Z.of_nat (length (allInterleavings [[stopA]; [stopB]] (-1))))%Z.
Proof. repeat split; reflexivity. Qed.

(** C2 on [route1] and a via-point between its stops: the stop component
    is the minimum over the two enumerated orderings. *)
Lemma CalculateDeviation_sum_witness :
  exists m,
    CalculateDeviation smallAngle route1 search1
    = (endpointDeviation smallAngle route1 search1 + m)%float /\
    is_minimum m (stopDeviations smallAngle route1 search1).
Proof.
  destruct (CalculateDeviation_sum smallAngle route1 search1)
    as [(Hnil & _)|(_ & m & Hsum & _ & Hmin)].
  - rewrite enumerated_route1 in Hnil. discriminate.
  - exists m. split; [exact Hsum|]. apply Hmin. vm_compute. repeat constructor.
Defined.

(** C6 on the walk (0,0), (1,1), (2,2), (3,3). *)
Lemma buildSegmentsFromStops_midpoints_witness :
  length (buildSegmentsFromStops 0 0 3 3 [stopA; stopB]) = 3 /\
  buildSegmentsFromStops 0 0 3 3 [stopA; stopB] !! 1
  = Some (midpoint (1, 1)%float (2, 2)%float).
Proof.
  destruct (buildSegmentsFromStops_midpoints 0 0 3 3 [stopA; stopB]) as (_ & Hlen & Hmid).
  split; [exact Hlen|]. apply Hmid; reflexivity.
Defined.

(** C7 on two stops of the same participant. *)
Lemma groupStopsByParticipant_counts_witness :
  groupStopsByParticipant [stopA; mkStop Byte.x04 (Some appID1) 3 2 2]
  = [[stopA; mkStop Byte.x04 (Some appID1) 3 2 2]].
Proof.
  destruct (groupStopsByParticipant_counts [stopA; mkStop Byte.x04 (Some appID1) 3 2 2])
    as (_ & _ & Hsingle).
  apply Hsingle; [discriminate|].
  intros s s' Hs Hs'.
  repeat (apply elem_of_cons in Hs; destruct Hs as [->|Hs]); [| |inversion Hs];
    repeat (apply elem_of_cons in Hs'; destruct Hs' as [->|Hs']);
    try reflexivity; inversion Hs'.
Defined.

(** C10 on [route1] and [search1]: the returned score is the endpoint
    deviation plus the stop deviation of an enumerated ordering. *)
Lemma sentinel_or_actual_distance_witness :
  exists m,
    CalculateDeviation smallAngle route1 search1
    = (endpointDeviation smallAngle route1 search1 + m)%float /\
    sentinel_or_actual m (stopDeviations smallAngle route1 search1).
Proof.
  destruct (sentinel_or_actual_distance smallAngle route1 search1) as (_ & _ & _ & Hdev).
  apply Hdev. rewrite enumerated_route1. discriminate.
Defined.

(** ** The table-driven tests of [calculations_test.go] that do not call
    the math library *)

Example test_groupStops_empty : length (groupStopsByParticipant []) = 0.
Proof. reflexivity. Qed.

Example test_groupStops_creator_and_applications :
  length (groupStopsByParticipant
            [mkStop Byte.x01 None 0 0 0; mkStop Byte.x02 (Some appID1) 1 0 0;
             mkStop Byte.x03 (Some appID1) 2 0 0; mkStop Byte.x04 (Some appID2) 3 0 0]) = 3.
Proof. vm_compute. reflexivity. Qed.

Example test_groupStops_multiple_applications :
  map (map Position)
      (groupStopsByParticipant
         [mkStop Byte.x01 (Some appID1) 0 0 0; mkStop Byte.x02 (Some appID2) 1 0 0;
          mkStop Byte.x03 (Some appID1) 2 0 0])
  = [[0; 2]; [1]]%N.
Proof. vm_compute. reflexivity. Qed.

Example test_allInterleavings_two_groups :
  allInterleavings [[stopA]; [stopB]] 10 = [[stopA; stopB]; [stopB; stopA]].
Proof. vm_compute. reflexivity. Qed.

Example test_allInterleavings_respects_max :
  allInterleavings [[stopA]; [stopB]; [stopC]] 2
  = [[stopA; stopB; stopC]; [stopA; stopC; stopB]].
Proof. vm_compute. reflexivity. Qed.

Example test_buildSegments_multiple_stops :
  buildSegmentsFromStops 0 0 3 3 [stopA; stopB]
  = [(0.5, 0.5); (1.5, 1.5); (2.5, 2.5)]%float.
Proof. vm_compute. reflexivity. Qed.

Example test_totalLen_multiple_groups :
  totalLen [[stopA]; [stopB; stopC]; [stopA]] = 4.
Proof. reflexivity. Qed.

Example test_minDistance_empty_segments M :
  minDistanceToSegment M 1 1 [] = MaxFloat64.
Proof. reflexivity. Qed.

(** * Further properties *)

(** ** What [Search] returns *)

Section SearchExact.
Variable M : MathLib.
Variable sort_Slice :
  (routeWithDev -> routeWithDev -> bool) -> list routeWithDev -> list routeWithDev.
Hypothesis sort_Slice_ok : sort_contract sort_Slice.

(** The scoring loop appends, in order, the entries of the routes that
    pass the threshold test. *)
Lemma Search_loop_filter search routes : forall withDev,
  fold_left (Search_step M search) routes withDev
  = withDev ++ map (scored M search) (filter (passes M search) routes).
Proof.
  induction routes as [|r routes IH]; intros withDev; simpl.
  - rewrite app_nil_r. reflexivity.
  - rewrite IH, filter_cons. unfold Search_step.
    destruct (decide (passes M search r)) as [Hp|Hp]; unfold passes in Hp.
    + rewrite Hp, <- app_assoc. reflexivity.
    + apply not_false_is_true in Hp. rewrite Hp. reflexivity.
Qed.

Lemma Search_output search routes :
  exists out,
    Search M sort_Slice (Fetched routes) search = Fetched out /\
    out ≡ₚ filter (passes M search) routes.
Proof.
  eexists. split; [reflexivity|].
  destruct (sort_Slice_ok dev_less (fold_left (Search_step M search) routes [])) as [Hperm _].
  rewrite Hperm, Search_loop_filter. simpl.
  rewrite <- list_fmap_compose.
  replace (route ∘ scored M search) with (@id Route) by reflexivity.
  rewrite list_fmap_id. reflexivity.
Qed.

(** X1.  [Search] returns exactly the fetched routes whose score does not
    exceed their [MaxDeviation]: the result is a rearrangement of those
    routes, none dropped, none repeated, none added. *)
Theorem Search_returns_the_passing (routes : list Route) (search : SearchInput) :
  exists out,
    Search M sort_Slice (Fetched routes) search = Fetched out /\
    out ≡ₚ filter (λ r, (MaxDeviation r <? CalculateDeviation M r search)%float = false)
                  routes.
Proof. apply Search_output. Qed.

(** X2.  A fetched route whose score is NaN, or whose [MaxDeviation] is
    NaN, is always returned: [dev > MaxDeviation] is false on NaN. *)
Theorem Search_keeps_nan (routes : list Route) (search : SearchInput) (r : Route)
    (Hin : r ∈ routes)
    (Hnan : is_nan (CalculateDeviation M r search) = true \/
            is_nan (MaxDeviation r) = true) :
  exists out,
    Search M sort_Slice (Fetched routes) search = Fetched out /\ r ∈ out.
Proof.
  destruct (Search_output search routes) as (out & Hrun & Hperm).
  exists out. split; [exact Hrun|]. rewrite Hperm. apply list_elem_of_filter.
  split; [|exact Hin]. unfold passes.
  destruct Hnan as [H|H]; [apply Float64.ltb_nan_r|apply Float64.ltb_nan_l]; exact H.
Qed.

End SearchExact.

(** ** Scores that are NaN *)

Lemma leb_nan_l x : (nan <=? x)%float = false.
Proof.
  destruct (nan <=? x)%float eqn:Hle; [|reflexivity].
  apply Float64.leb_not_nan in Hle. destruct Hle as [Hnan _]. discriminate Hnan.
Qed.

(** A query that starts at latitude 1e308: the latitude difference to the
    start of the route overflows, and the score is NaN. *)
Lemma CalculateDeviation_from_huge M r :
  go_special_cases M ->
  ((StartLat r - hugeLat) * Pi / 180 / 2)%float = neg_infinity ->
  CalculateDeviation M r searchFromHuge = nan.
Proof.
  intros HM Hinf. rewrite CalculateDeviation_unfold. unfold endpointDeviation.
  change (InStartLat searchFromHuge) with hugeLat.
  rewrite (Haversine_overflow M HM hugeLat _ _ _ Hinf), !Float64.nan_add_l.
  destruct (enumerated r); reflexivity.
Qed.

Lemma candidates_from_huge M :
  go_special_cases M ->
  Forall (λ r, CalculateDeviation M r searchFromHuge = nan) candidates.
Proof.
  intros HM. repeat apply Forall_cons_2; [..|apply Forall_nil_2];
    (apply CalculateDeviation_from_huge; [exact HM|vm_compute; reflexivity]).
Qed.

(** C5, counterexample.  A query that starts at latitude 1e308 against the
    four candidates: every score is NaN, no candidate is beyond its
    threshold ([NaN > MaxDeviation] is false), all four are returned, and
    between the first two returned routes [score <= score] is false, under
    insertion sort and under every sorting routine that rearranges its
    input. *)
Lemma Search_nan_scores_unsorted :
  Search smallAngle insertionSort (Fetched candidates) searchFromHuge = Fetched candidates /\
  (CalculateDeviation smallAngle route1 searchFromHuge
   <=? CalculateDeviation smallAngle route2 searchFromHuge)%float = false /\
  forall M sort_Slice, go_special_cases M -> sort_contract sort_Slice ->
    exists out r1 r2,
      Search M sort_Slice (Fetched candidates) searchFromHuge = Fetched out /\
      out !! 0 = Some r1 /\ out !! 1 = Some r2 /\
      (CalculateDeviation M r1 searchFromHuge
       <=? CalculateDeviation M r2 searchFromHuge)%float = false.
Proof.
  split; [vm_compute; reflexivity|]. split; [vm_compute; reflexivity|].
  intros M sort_Slice HM Hsort.
  destruct (Search_output M sort_Slice Hsort searchFromHuge candidates) as (out & Hrun & Hperm).
  pose proof (candidates_from_huge M HM) as Hnan.
  assert (filter (passes M searchFromHuge) candidates = candidates) as Hall.
  { clear -Hnan. induction Hnan as [|r l Hr _ IH]; [reflexivity|].
    rewrite filter_cons, IH. destruct (decide (passes M searchFromHuge r)) as [_|Hp];
      [reflexivity|].
    destruct Hp. unfold passes. rewrite Hr. apply Float64.ltb_nan_r. reflexivity. }
  rewrite Hall in Hperm. rewrite <- Hperm in Hnan.
  pose proof (Permutation_length Hperm) as Hlen.
  destruct out as [|r1 [|r2 out]]; [discriminate Hlen..|].
  exists (r1 :: r2 :: out), r1, r2. repeat split; [exact Hrun|].
  apply Forall_cons_1 in Hnan. destruct Hnan as [Hr1 _].
  rewrite Hr1. apply leb_nan_l.
Qed.

(** ** The groups of [groupStopsByParticipant] *)

Lemma first_occurrences_elem k ks : k ∈ first_occurrences ks <-> k ∈ ks.
Proof.
  induction ks as [|k0 ks IH]; simpl; [reflexivity|].
  rewrite !elem_of_cons, list_elem_of_filter, IH.
  destruct (decide (k = k0)); tauto.
Qed.

Lemma first_occurrences_NoDup ks : NoDup (first_occurrences ks).
Proof.
  induction ks as [|k0 ks IH]; simpl; constructor.
  - rewrite list_elem_of_filter. tauto.
  - apply NoDup_filter, IH.
Qed.

Lemma first_occurrences_snoc ks k :
  first_occurrences (ks ++ [k])
  = if decide (k ∈ ks) then first_occurrences ks else first_occurrences ks ++ [k].
Proof.
  induction ks as [|k0 ks IH]; simpl; [reflexivity|].
  rewrite IH. destruct (decide (k ∈ ks)) as [Hin|Hin].
  - rewrite decide_True by (apply list_elem_of_further; exact Hin). reflexivity.
  - rewrite filter_app, filter_cons, filter_nil.
    destruct (decide (k = k0)) as [->|Hne].
    + destruct (decide (k0 ≠ k0)); [congruence|].
      destruct (decide (k0 ∈ k0 :: ks)) as [_|Hn]; [|destruct Hn; apply list_elem_of_here].
      rewrite app_nil_r. reflexivity.
    + destruct (decide (k ≠ k0)); [|tauto].
      destruct (decide (k ∈ k0 :: ks)) as [Hk|_]; [|reflexivity].
      apply elem_of_cons in Hk. tauto.
Qed.

Lemma contributors_snoc p s :
  contributors (p ++ [s])
  = if decide (stop_key s ∈ contributors p) then contributors p
    else contributors p ++ [stop_key s].
Proof.
  unfold contributors. rewrite map_app. simpl. rewrite first_occurrences_snoc.
  destruct (decide (stop_key s ∈ map stop_key p)) as [H|H];
    [rewrite decide_True|rewrite decide_False]; try reflexivity;
    rewrite first_occurrences_elem; exact H.
Qed.

Lemma stops_of_snoc k p s :
  stops_of k (p ++ [s]) = stops_of k p ++ (if decide (stop_key s = k) then [s] else []).
Proof. unfold stops_of. rewrite filter_app, filter_cons, filter_nil. reflexivity. Qed.

Lemma stops_of_absent k p : k ∉ contributors p -> stops_of k p = [].
Proof.
  unfold contributors. rewrite first_occurrences_elem. intros Hk.
  unfold stops_of. induction p as [|s p IH]; [reflexivity|].
  rewrite filter_cons. simpl in Hk. rewrite elem_of_cons in Hk.
  rewrite decide_False by (intros H; apply Hk; left; symmetry; exact H).
  apply IH. tauto.
Qed.

(** One iteration of the loop keeps the invariant. *)
Lemma group_step_inv p st s : group_inv p st -> group_inv (p ++ [s]) (group_step st s).
Proof.
  destruct st as [ordered seen]. unfold group_inv, group_step; cbn [fst snd].
  intros [Hord Hseen]. pose proof (first_occurrences_NoDup (map stop_key p)) as Hnd.
  fold (contributors p) in Hnd. rewrite contributors_snoc.
  destruct (seen !! stop_key s) as [idx|] eqn:Hk; cbn [fst snd].
  - (* a known contributor: the stop joins its group *)
    apply Hseen in Hk. rewrite decide_True by (eapply list_elem_of_lookup_2; exact Hk).
    split; [|exact Hseen]. subst ordered.
    apply list_eq. intros i. rewrite list_lookup_fmap.
    destruct (decide (i = idx)) as [->|Hne].
    + rewrite list_lookup_alter_eq, list_lookup_fmap, Hk. simpl.
      rewrite stops_of_snoc, decide_True by reflexivity. reflexivity.
    + rewrite list_lookup_alter_ne by congruence. rewrite list_lookup_fmap.
      destruct (contributors p !! i) as [k'|] eqn:Hi; [|reflexivity]. simpl.
      rewrite stops_of_snoc, decide_False, app_nil_r; [reflexivity|].
      intros Heq. subst k'. apply Hne. eapply NoDup_lookup; eassumption.
  - (* a new contributor: the stop opens a group at the end *)
    assert (stop_key s ∉ contributors p) as Hnew.
    { intros Hin. apply list_elem_of_lookup_1 in Hin. destruct Hin as [i Hi].
      apply Hseen in Hi. congruence. }
    rewrite decide_False by assumption. split.
    + subst ordered. rewrite map_app. simpl.
      rewrite stops_of_snoc, decide_True, (stops_of_absent _ _ Hnew) by reflexivity.
      simpl. rewrite length_map.
      rewrite alter_app_r_alt by (rewrite length_map; lia).
      rewrite length_map, Nat.sub_diag. simpl. f_equal.
      apply map_ext_in. intros k' Hk'. rewrite stops_of_snoc, decide_False, app_nil_r.
      * reflexivity.
      * intros Heq. subst k'. apply Hnew. apply list_elem_of_In. exact Hk'.
    + intros k i. subst ordered. rewrite length_map.
      destruct (decide (stop_key s = k)) as [<-|Hne].
      * rewrite lookup_insert_eq. split.
        -- intros [= <-]. rewrite lookup_app_r by lia. rewrite Nat.sub_diag. reflexivity.
        -- intros Hi. f_equal.
           destruct (decide (i < length (contributors p))) as [Hlt|Hge].
           ++ rewrite lookup_app_l in Hi by assumption. exfalso. apply Hnew.
              eapply list_elem_of_lookup_2. exact Hi.
           ++ apply lookup_lt_Some in Hi. rewrite length_app in Hi. simpl in Hi. lia.
      * rewrite lookup_insert_ne by assumption. rewrite Hseen. split.
        -- intros Hi. rewrite lookup_app_l; [exact Hi|]. eapply lookup_lt_Some, Hi.
        -- intros Hi. destruct (decide (i < length (contributors p))) as [Hlt|Hge].
           ++ rewrite lookup_app_l in Hi by assumption. exact Hi.
           ++ rewrite lookup_app_r in Hi by lia.
              destruct (i - length (contributors p)) as [|n]; simpl in Hi; [congruence|].
              rewrite lookup_nil in Hi. discriminate.
Qed.

Lemma group_loop_inv stops : group_inv stops (fold_left group_step stops ([], ∅)).
Proof.
  induction stops as [|s stops IH] using rev_ind.
  - split; [reflexivity|]. intros k i. unfold contributors. simpl.
    rewrite lookup_empty, lookup_nil. split; discriminate.
  - rewrite fold_left_app. simpl. apply group_step_inv, IH.
Qed.

Lemma groupStops_groups (stops : list Stop) :
  groupStopsByParticipant stops = map (λ k, stops_of k stops) (contributors stops).
Proof. apply (group_loop_inv stops). Qed.

(** X3.  [groupStopsByParticipant] returns one group per contributor, in
    the order of each contributor's first stop, and each group holds that
    contributor's stops in the order of the input. *)
Theorem groupStopsByParticipant_by_contributor (stops : list Stop) :
  groupStopsByParticipant stops
  = map (λ k, filter (λ s, stop_key s = k) stops)
        (first_occurrences (map stop_key stops)).
Proof. apply groupStops_groups. Qed.

(** X4.  [groupStopsByParticipant] loses and repeats no stop, returns no
    empty group, and keeps the order of the input inside each group. *)
Theorem groupStopsByParticipant_partition (stops : list Stop) :
  concat (groupStopsByParticipant stops) ≡ₚ stops /\
  Forall (λ g, (exists s, s ∈ g) /\ sublist g stops) (groupStopsByParticipant stops).
Proof.
  split; [apply groupStops_perm|].
  rewrite groupStops_groups. apply Forall_fmap, Forall_forall. intros k Hk. simpl. split.
  - unfold contributors in Hk. apply first_occurrences_elem, list_elem_of_fmap in Hk.
    destruct Hk as (s & -> & Hs). exists s.
    apply list_elem_of_filter. split; [reflexivity|exact Hs].
  - apply sublist_filter.
Qed.

(** *** Keys and contributors *)

Lemma byte_hex_roundtrip (b : Byte.byte) :
  Byte.of_N (16 * hex_value (hex_digit (Byte.to_N b / 16))
             + hex_value (hex_digit (Byte.to_N b mod 16)))%N = Some b.
Proof. destruct b; vm_compute; reflexivity. Qed.

Lemma byte_hex_inj (b b' : Byte.byte) :
  hex_digit (Byte.to_N b / 16) = hex_digit (Byte.to_N b' / 16) ->
  hex_digit (Byte.to_N b mod 16) = hex_digit (Byte.to_N b' mod 16) ->
  b = b'.
Proof.
  intros H1 H2. pose proof (byte_hex_roundtrip b) as Hb.
  rewrite H1, H2, byte_hex_roundtrip in Hb. congruence.
Qed.

Lemma hex_digit_high_not_dash (b : Byte.byte) : hex_digit (Byte.to_N b / 16) <> "-"%char.
Proof. destruct b; vm_compute; discriminate. Qed.

Lemma hex_digit_low_not_r (b : Byte.byte) : hex_digit (Byte.to_N b mod 16) <> "r"%char.
Proof. destruct b; vm_compute; discriminate. Qed.

(** A run of hexadecimal digits ends at the first dash. *)
Lemma hex_encode_dash_inj (a a' : list Byte.byte) (s s' : string) :
  (hex_encode a +:+ "-" +:+ s = hex_encode a' +:+ "-" +:+ s')%string -> a = a' /\ s = s'.
Proof.
  revert a'. induction a as [|b a IH]; intros [|b' a']; simpl; intros H.
  - injection H as H. auto.
  - injection H as H1 _. symmetry in H1. destruct (hex_digit_high_not_dash _ H1).
  - injection H as H1 _. destruct (hex_digit_high_not_dash _ H1).
  - injection H as H1 H2 H3. destruct (IH a' H3) as [-> ->].
    rewrite (byte_hex_inj b b' H1 H2). auto.
Qed.

Lemma hex_encode_inj (a a' : list Byte.byte) : hex_encode a = hex_encode a' -> a = a'.
Proof.
  revert a'. induction a as [|b a IH]; intros [|b' a']; simpl; intros H;
    try discriminate; [reflexivity|].
  injection H as H1 H2 H3. rewrite (IH a' H3), (byte_hex_inj b b' H1 H2). reflexivity.
Qed.

Lemma UUID_segments (u : UUID) :
  u = take 4 u ++ take 2 (drop 4 u) ++ take 2 (drop 6 u) ++ take 2 (drop 8 u) ++ drop 10 u.
Proof.
  rewrite <- (take_drop 4 u) at 1. f_equal.
  rewrite <- (take_drop 2 (drop 4 u)) at 1. f_equal. rewrite drop_drop. simpl.
  rewrite <- (take_drop 2 (drop 6 u)) at 1. f_equal. rewrite drop_drop. simpl.
  rewrite <- (take_drop 2 (drop 8 u)) at 1. f_equal. rewrite drop_drop. reflexivity.
Qed.

(** The canonical text determines the identifier. *)
Lemma UUID_String_inj (u u' : UUID) : UUID_String u = UUID_String u' -> u = u'.
Proof.
  unfold UUID_String. intros H.
  apply hex_encode_dash_inj in H as [H1 H].
  apply hex_encode_dash_inj in H as [H2 H].
  apply hex_encode_dash_inj in H as [H3 H].
  apply hex_encode_dash_inj in H as [H4 H].
  apply hex_encode_inj in H.
  rewrite (UUID_segments u), (UUID_segments u'). congruence.
Qed.

(** No identifier's text is the key of the creator. *)
Lemma UUID_String_not_creator (u : UUID) : UUID_String u <> "creator"%string.
Proof.
  unfold UUID_String. destruct (take 4 u) as [|b a]; simpl; intros H.
  - discriminate.
  - injection H as _ H _. destruct (hex_digit_low_not_r _ H).
Qed.

Lemma stop_key_inj (s s' : Stop) :
  stop_key s = stop_key s' <-> ApplicationID s = ApplicationID s'.
Proof.
  unfold stop_key. split.
  - destruct (ApplicationID s) as [u|], (ApplicationID s') as [u'|]; intros H.
    + f_equal. apply UUID_String_inj, H.
    + destruct (UUID_String_not_creator _ H).
    + symmetry in H. destruct (UUID_String_not_creator _ H).
    + reflexivity.
  - intros ->. reflexivity.
Qed.

Lemma elem_of_group stops g s :
  g ∈ groupStopsByParticipant stops -> s ∈ g ->
  s ∈ stops /\ g = stops_of (stop_key s) stops.
Proof.
  rewrite groupStops_groups. intros Hg Hs.
  apply list_elem_of_fmap in Hg. destruct Hg as (k & -> & _).
  unfold stops_of in Hs. apply list_elem_of_filter in Hs. destruct Hs as [<- Hs].
  split; [exact Hs|reflexivity].
Qed.

Lemma group_of_stop stops s :
  s ∈ stops -> stops_of (stop_key s) stops ∈ groupStopsByParticipant stops.
Proof.
  intros Hs. rewrite groupStops_groups.
  apply (list_elem_of_fmap_2 (λ k, stops_of k stops)).
  apply first_occurrences_elem. apply list_elem_of_fmap_2. exact Hs.
Qed.

(** X5.  Two stops of the list are in the same group exactly when they
    have the same [ApplicationID] (both nil, or the same identifier): the
    string key never confuses two contributors, nor a participant with the
    creator. *)
Theorem same_group_iff_same_contributor (stops : list Stop) (s s' : Stop)
    (Hs : s ∈ stops) (Hs' : s' ∈ stops) :
  (exists g, g ∈ groupStopsByParticipant stops /\ s ∈ g /\ s' ∈ g)
  <-> ApplicationID s = ApplicationID s'.
Proof.
  rewrite <- stop_key_inj. split.
  - intros (g & Hg & Hsg & Hsg').
    destruct (elem_of_group stops g s Hg Hsg) as [_ Heq].
    rewrite Heq in Hsg'. apply list_elem_of_filter in Hsg'. symmetry. tauto.
  - intros Hk. exists (stops_of (stop_key s) stops).
    split; [apply group_of_stop, Hs|].
    split; apply list_elem_of_filter; split; auto.
Qed.

(** The stop list is a merge of the groups of any duplicate-free list of
    keys that holds the keys of its stops. *)
Lemma Interleaving_stops_of (keys : list string) : NoDup keys -> forall stops,
  Forall (λ s, stop_key s ∈ keys) stops ->
  Interleaving (map (λ k, stops_of k stops) keys) stops.
Proof.
  intros Hnd. induction stops as [|s stops IH]; intros Hkeys.
  - constructor. apply Forall_fmap, Forall_forall. intros k _. reflexivity.
  - inversion Hkeys as [|? ? Hs Hrest]; subst.
    apply list_elem_of_lookup_1 in Hs. destruct Hs as [i Hi].
    apply (Interleaving_cons _ i s (stops_of (stop_key s) stops)).
    + rewrite list_lookup_fmap, Hi. simpl. unfold stops_of.
      rewrite filter_cons, decide_True by reflexivity. reflexivity.
    + replace (<[i := stops_of (stop_key s) stops]> (map (λ k, stops_of k (s :: stops)) keys))
        with (map (λ k, stops_of k stops) keys); [apply IH, Hrest|].
      apply list_eq. intros j. destruct (decide (i = j)) as [<-|Hne].
      * rewrite list_lookup_insert_eq by (rewrite length_map; eapply lookup_lt_Some, Hi).
        rewrite list_lookup_fmap, Hi. reflexivity.
      * rewrite list_lookup_insert_ne by assumption. rewrite !list_lookup_fmap.
        destruct (keys !! j) as [k|] eqn:Hj; [|reflexivity]. simpl. f_equal.
        unfold stops_of. rewrite filter_cons, decide_False; [reflexivity|].
        intros Heq. subst k. apply Hne. eapply NoDup_lookup; eassumption.
Qed.

Lemma Interleaving_groupStops (stops : list Stop) :
  Interleaving (groupStopsByParticipant stops) stops.
Proof.
  rewrite groupStops_groups. apply Interleaving_stops_of.
  - apply first_occurrences_NoDup.
  - apply Forall_forall. intros s Hs. apply first_occurrences_elem.
    apply list_elem_of_fmap_2. exact Hs.
Qed.

Lemma groupStops_nonempty (stops : list Stop) :
  stops <> [] -> groupStopsByParticipant stops <> [].
Proof.
  intros Hne Hnil. pose proof (groupStops_perm stops) as Hp. rewrite Hnil in Hp.
  simpl in Hp. apply Permutation_nil in Hp. congruence.
Qed.

Lemma groupStops_single (stops : list Stop) :
  stops <> [] ->
  (forall s s', s ∈ stops -> s' ∈ stops -> ApplicationID s = ApplicationID s') ->
  groupStopsByParticipant stops = [stops].
Proof.
  intros Hne Hsame. destruct stops as [|s stops]; [congruence|].
  unfold groupStopsByParticipant. simpl. rewrite lookup_empty. simpl.
  rewrite (group_loop_single (stop_key s)); [reflexivity| |apply lookup_insert_eq].
  apply Forall_forall. intros s' Hs'. unfold stop_key.
  rewrite (Hsame s' s); [reflexivity| |]; set_solver.
Qed.

(** ** The enumeration of [allInterleavings] *)

(** X6.  [allInterleavings] returns no ordering exactly when there is no
    group, or there are two or more groups and the cap is zero or
    negative. *)
Theorem allInterleavings_empty_iff (groups : list (list Stop)) (max : Z) :
  allInterleavings groups max = [] <->
  groups = [] \/ (2 <= length groups /\ (max <= 0)%Z).
Proof.
  destruct groups as [|g1 [|g2 groups]].
  - split; [auto|reflexivity].
  - split; [discriminate|]. intros [H|[H _]]; [discriminate|simpl in H; lia].
  - destruct (allInterleavings_run (g1 :: g2 :: groups) max) as (new & _ & -> & _ & Hbig).
    destruct Hbig as [Hle Hne]; [simpl; lia|]. split.
    + intros ->. right. split; [simpl; lia|].
      destruct (Z.leb_spec max 0) as [H|H]; [exact H|]. destruct (Hne H). reflexivity.
    + intros [H|[_ H]]; [discriminate|].
      destruct new; [reflexivity|simpl in Hle; lia].
Qed.

Lemma Interleaving_all_nil gs l : Forall (λ g, g = []) gs -> Interleaving gs l -> l = [].
Proof.
  intros Hall H. destruct H as [|gs i x xs l Hi _]; [reflexivity|].
  rewrite Forall_forall in Hall.
  specialize (Hall _ (list_elem_of_lookup_2 _ _ _ Hi)). discriminate.
Qed.

Lemma Interleaving_single_inv g l : Interleaving [g] l -> l = g.
Proof.
  intros H. remember [g] as gs eqn:Hgs. revert g Hgs.
  induction H as [gs Hall|gs i x xs l Hi _ IH]; intros g ->.
  - inversion Hall; subst. reflexivity.
  - destruct i as [|i]; simpl in Hi.
    + inversion Hi; subst. f_equal. apply IH. reflexivity.
    + rewrite lookup_nil in Hi. discriminate.
Qed.

Lemma ext_inj st a b : ext st a = ext st b -> a = b.
Proof. intros H. apply (f_equal result) in H. simpl in H. eapply app_inv_head, H. Qed.

Lemma ext_id st a : ext st a = st -> a = [].
Proof. rewrite <- (ext_nil st) at 2. apply ext_inj. Qed.

Section GenMoreSpec.
Variable groups : list (list Stop).

(** The state of the recursive call of [gen] that consumes [x] from group
    [g], and the state once it has returned. *)
Lemma gen_branch_some rec st g x new :
  length (indices st) = length groups -> g < length groups ->
  (groups !!! g) !! (indices st !!! g) = Some x ->
  rec {| result := result st;
         indices := <[g := S (indices st !!! g)]> (indices st);
         current := current st ++ [x] |}
  = Some (ext {| result := result st;
                 indices := <[g := S (indices st !!! g)]> (indices st);
                 current := current st ++ [x] |} new) ->
  gen_branch groups rec st g = Some (ext st new).
Proof.
  intros Hlen Hg Hx Hrun. unfold gen_branch. rewrite Hx, Hrun.
  unfold ext. simpl. f_equal. f_equal.
  - rewrite list_lookup_total_insert_eq by lia. simpl.
    rewrite list_insert_insert_eq. apply list_insert_id.
    apply list_lookup_lookup_total_lt. lia.
  - rewrite length_app. simpl.
    replace (length (current st) + 1 - 1) with (length (current st)) by lia.
    apply take_app_length.
Qed.

Lemma suffix_head st g x xs :
  length (indices st) = length groups ->
  suffixes groups (indices st) !! g = Some (x :: xs) ->
  g < length groups /\
  (groups !!! g) !! (indices st !!! g) = Some x /\
  drop (S (indices st !!! g)) (groups !!! g) = xs.
Proof.
  intros Hlen Hsfx.
  assert (g < length groups) as Hg.
  { apply lookup_lt_Some in Hsfx. rewrite suffixes_length in Hsfx; assumption. }
  rewrite suffixes_lookup in Hsfx by assumption. inversion Hsfx as [Hd].
  split; [exact Hg|].
  destruct ((groups !!! g) !! (indices st !!! g)) as [y|] eqn:Hy.
  - rewrite (drop_S _ _ _ Hy) in Hd. inversion Hd; subst. split; reflexivity.
  - apply lookup_ge_None in Hy. rewrite drop_ge in Hd by assumption. discriminate.
Qed.

Lemma suffix_of_head st g x :
  length (indices st) = length groups -> g < length groups ->
  (groups !!! g) !! (indices st !!! g) = Some x ->
  suffixes groups (indices st) !! g
  = Some (x :: drop (S (indices st !!! g)) (groups !!! g)).
Proof.
  intros Hlen Hg Hx. rewrite suffixes_lookup by assumption. f_equal. apply drop_S. exact Hx.
Qed.

(** Consuming a stop leaves one stop less. *)
Lemma remaining_consumed st g x xs idx' bound :
  suffixes groups (indices st) !! g = Some (x :: xs) ->
  suffixes groups idx' = <[g := xs]> (suffixes groups (indices st)) ->
  remaining groups st <= bound ->
  length (concat (suffixes groups idx')) < bound.
Proof.
  intros Hsfx Hsfx1 Hrem. unfold remaining in Hrem. rewrite Hsfx1.
  rewrite (concat_insert_tail_length _ _ _ _ Hsfx) in Hrem. lia.
Qed.

(** *** Completeness below the cap *)

Section Complete.
Variable max : Z.

Lemma gen_loop_complete rec bound :
  rec_spec groups max rec bound ->
  (forall st new, length (indices st) = length groups -> remaining groups st < bound ->
     rec st = Some (ext st new) -> complete groups max st new) ->
  forall gs st new,
  Forall (λ g, g < length groups) gs ->
  length (indices st) = length groups ->
  remaining groups st <= bound ->
  gen_loop groups rec gs st = Some (ext st new) ->
  below_cap max (ext st new) ->
  forall g x xs l, g ∈ gs ->
    suffixes groups (indices st) !! g = Some (x :: xs) ->
    Interleaving (<[g := xs]> (suffixes groups (indices st))) l ->
    current st ++ x :: l ∈ new.
Proof.
  intros Hrec Hc. induction gs as [|g0 gs IH]; intros st new Hgs Hlen Hrem Hrun Hbelow
    g x xs l Hg Hsfx Hl.
  - inversion Hg.
  - inversion Hgs as [|? ? Hg0 Hgs']; subst.
    destruct (gen_branch_spec groups max rec bound st g0 Hrec Hlen Hg0 Hrem)
      as (new1 & Hrun1 & _ & _).
    destruct (gen_loop_spec groups max rec bound Hrec gs (ext st new1) Hgs' Hlen Hrem)
      as (new2 & Hrun2 & _ & _).
    simpl in Hrun. rewrite Hrun1, Hrun2, ext_ext in Hrun.
    assert (new = new1 ++ new2) as ->.
    { symmetry. apply (ext_inj st). congruence. }
    apply elem_of_app. apply elem_of_cons in Hg. destruct Hg as [->|Hg].
    + left. destruct (suffix_head st g0 x xs Hlen Hsfx) as (_ & Hx & Hxs).
      set (st1 := {| result := result st;
                     indices := <[g0 := S (indices st !!! g0)]> (indices st);
                     current := current st ++ [x] |}).
      assert (length (indices st1) = length groups) as Hlen1.
      { simpl. rewrite length_insert. exact Hlen. }
      assert (suffixes groups (indices st1) = <[g0 := xs]> (suffixes groups (indices st)))
        as Hsfx1.
      { simpl. rewrite suffixes_insert, Hxs. reflexivity. }
      assert (remaining groups st1 < bound) as Hrem1
        by (eapply remaining_consumed; eassumption).
      destruct (Hrec st1 Hlen1 Hrem1) as (new1' & Hrec1 & _ & _).
      pose proof (gen_branch_some rec st g0 x new1' Hlen Hg0 Hx Hrec1) as Hrun1'.
      assert (new1 = new1') as <-.
      { apply (ext_inj st). congruence. }
      replace (current st ++ x :: l) with (current st1 ++ l)
        by (simpl; rewrite <- app_assoc; reflexivity).
      apply (Hc st1 new1 Hlen1 Hrem1 Hrec1).
      * unfold below_cap in *. simpl in *. rewrite !length_app in *. lia.
      * rewrite Hsfx1. exact Hl.
    + right. apply (IH (ext st new1) new2 Hgs' Hlen Hrem Hrun2) with (g := g) (xs := xs);
        [rewrite ext_ext; exact Hbelow|exact Hg|exact Hsfx|exact Hl].
Qed.

Lemma gen_complete fuel : forall st new,
  length (indices st) = length groups -> remaining groups st < fuel ->
  gen groups max fuel st = Some (ext st new) -> complete groups max st new.
Proof.
  induction fuel as [|fuel IH]; intros st new Hlen Hrem Hrun; [lia|]. simpl in Hrun.
  destruct (Z.leb_spec max (Z.of_nat (length (result st)))) as [Hcap|Hcap].
  { assert (ext st new = st) as Heq by congruence. apply ext_id in Heq. subst new.
    intros Hbelow. unfold below_cap in Hbelow. simpl in Hbelow.
    rewrite length_app in Hbelow. simpl in Hbelow. lia. }
  destruct (gen_done groups st) eqn:Hdone.
  { assert (new = [current st]) as ->.
    { apply (ext_inj st). unfold ext at 2. congruence. }
    intros _ tail Htail.
    rewrite (Interleaving_all_nil _ _ (gen_done_true groups st Hlen Hdone) Htail).
    rewrite app_nil_r. apply list_elem_of_here. }
  intros Hbelow tail Htail.
  inversion Htail as [sfx Hall|sfx i x xs l Hi Hl]; subst.
  - exfalso. destruct (gen_done_false groups st Hdone) as (g & x & Hg & Hx).
    apply elem_of_seq in Hg.
    rewrite Forall_forall in Hall.
    assert (drop (indices st !!! g) (groups !!! g) = []) as Hd.
    { apply Hall. eapply list_elem_of_lookup_2. apply suffixes_lookup; [exact Hlen|lia]. }
    rewrite (drop_S _ _ _ Hx) in Hd. discriminate.
  - assert (i < length groups) as Hi'.
    { apply lookup_lt_Some in Hi. rewrite suffixes_length in Hi; assumption. }
    assert (Forall (λ g, g < length groups) (seq 0 (length groups))) as Hgs.
    { apply Forall_forall. intros g Hg. apply elem_of_seq in Hg. lia. }
    apply (gen_loop_complete (gen groups max fuel) fuel (gen_spec groups max fuel) IH
             (seq 0 (length groups)) st new Hgs Hlen ltac:(lia) Hrun Hbelow i x xs l);
      [apply elem_of_seq; lia|exact Hi|exact Hl].
Qed.

End Complete.

(** *** The cap only truncates *)

Section Caps.
Variables lo hi : Z.
Hypothesis Hcaps : (lo <= hi)%Z.

Lemma same_place_remaining st st' :
  same_place lo st st' -> remaining groups st' = remaining groups st.
Proof. intros (Hi & _ & _). unfold remaining. rewrite Hi. reflexivity. Qed.

Lemma gen_branch_caps rec rec' bound st st' g new new' :
  rec_spec groups lo rec bound -> rec_spec groups hi rec' bound ->
  caps_spec groups lo rec rec' bound ->
  length (indices st) = length groups -> g < length groups ->
  remaining groups st <= bound ->
  same_place lo st st' ->
  gen_branch groups rec st g = Some (ext st new) ->
  gen_branch groups rec' st' g = Some (ext st' new') ->
  same_place lo (ext st new) (ext st' new').
Proof.
  intros Hrec Hrec' Hc Hlen Hg Hrem Hsame Hrun Hrun'.
  pose proof Hsame as (Hi & Hcur & Hres).
  destruct ((groups !!! g) !! (indices st !!! g)) as [x|] eqn:Hx.
  - set (st1 := {| result := result st;
                   indices := <[g := S (indices st !!! g)]> (indices st);
                   current := current st ++ [x] |}).
    set (st1' := {| result := result st';
                    indices := <[g := S (indices st' !!! g)]> (indices st');
                    current := current st' ++ [x] |}).
    assert (length (indices st1) = length groups) as Hlen1.
    { simpl. rewrite length_insert. exact Hlen. }
    pose proof (suffix_of_head st g x Hlen Hg Hx) as Hsfx.
    assert (remaining groups st1 < bound) as Hrem1.
    { eapply remaining_consumed; [exact Hsfx| |exact Hrem]. simpl. apply suffixes_insert. }
    assert (same_place lo st1 st1') as Hsame1.
    { unfold same_place. simpl. rewrite <- Hi, <- Hcur. auto. }
    destruct (Hrec st1 Hlen1 Hrem1) as (n1 & Hr1 & _ & _).
    destruct (Hrec' st1') as (n1' & Hr1' & _ & _).
    { subst st1'. simpl. rewrite <- Hi. exact Hlen1. }
    { rewrite (same_place_remaining _ _ Hsame1). exact Hrem1. }
    pose proof (gen_branch_some rec st g x n1 Hlen Hg Hx Hr1) as Hb.
    assert ((groups !!! g) !! (indices st' !!! g) = Some x) as Hx' by (rewrite <- Hi; exact Hx).
    pose proof (gen_branch_some rec' st' g x n1'
                  ltac:(rewrite <- Hi; exact Hlen) Hg Hx' Hr1') as Hb'.
    assert (new = n1) as -> by (apply (ext_inj st); congruence).
    assert (new' = n1') as -> by (apply (ext_inj st'); congruence).
    destruct (Hc st1 st1' n1 n1' Hlen1 Hrem1 Hsame1 Hr1 Hr1') as (_ & _ & Hres1).
    unfold same_place. simpl. auto.
  - unfold gen_branch in Hrun, Hrun'. rewrite <- Hi in Hrun'. rewrite Hx in Hrun, Hrun'.
    assert (new = []) as -> by (apply (ext_id st); congruence).
    assert (new' = []) as -> by (apply (ext_id st'); congruence).
    rewrite !ext_nil. exact Hsame.
Qed.

Lemma gen_loop_caps rec rec' bound :
  rec_spec groups lo rec bound -> rec_spec groups hi rec' bound ->
  caps_spec groups lo rec rec' bound ->
  forall gs st st' new new',
  Forall (λ g, g < length groups) gs ->
  length (indices st) = length groups ->
  remaining groups st <= bound ->
  same_place lo st st' ->
  gen_loop groups rec gs st = Some (ext st new) ->
  gen_loop groups rec' gs st' = Some (ext st' new') ->
  same_place lo (ext st new) (ext st' new').
Proof.
  intros Hrec Hrec' Hc. induction gs as [|g gs IH];
    intros st st' new new' Hgs Hlen Hrem Hsame Hrun Hrun'; simpl in Hrun, Hrun'.
  - assert (new = []) as -> by (apply (ext_id st); congruence).
    assert (new' = []) as -> by (apply (ext_id st'); congruence).
    rewrite !ext_nil. exact Hsame.
  - inversion Hgs as [|? ? Hg Hgs']; subst.
    pose proof Hsame as (Hi & _ & _).
    assert (length (indices st') = length groups) as Hlen' by (rewrite <- Hi; exact Hlen).
    assert (remaining groups st' <= bound) as Hrem'
      by (rewrite (same_place_remaining _ _ Hsame); exact Hrem).
    destruct (gen_branch_spec groups lo rec bound st g Hrec Hlen Hg Hrem)
      as (n1 & Hb & _ & _).
    destruct (gen_branch_spec groups hi rec' bound st' g Hrec' Hlen' Hg Hrem')
      as (n1' & Hb' & _ & _).
    pose proof (gen_branch_caps rec rec' bound st st' g n1 n1'
                  Hrec Hrec' Hc Hlen Hg Hrem Hsame Hb Hb') as Hsame1.
    rewrite Hb in Hrun. rewrite Hb' in Hrun'.
    destruct (gen_loop_spec groups lo rec bound Hrec gs (ext st n1) Hgs' Hlen Hrem)
      as (n2 & Hl & _ & _).
    destruct (gen_loop_spec groups hi rec' bound Hrec' gs (ext st' n1') Hgs' Hlen' Hrem')
      as (n2' & Hl' & _ & _).
    pose proof (IH (ext st n1) (ext st' n1') n2 n2' Hgs' Hlen Hrem Hsame1 Hl Hl') as Hsame2.
    rewrite !ext_ext in Hsame2.
    assert (new = n1 ++ n2) as ->.
    { apply (ext_inj st). rewrite <- ext_ext. congruence. }
    assert (new' = n1' ++ n2') as ->.
    { apply (ext_inj st'). rewrite <- ext_ext. congruence. }
    exact Hsame2.
Qed.

Lemma gen_caps fuel : caps_spec groups lo (gen groups lo fuel) (gen groups hi fuel) fuel.
Proof.
  induction fuel as [|fuel IH]; intros st st' new new' Hlen Hrem Hsame Hrun Hrun'; [lia|].
  pose proof Hsame as (Hi & Hcur & Hres).
  simpl in Hrun, Hrun'.
  destruct (Z.leb_spec lo (Z.of_nat (length (result st)))) as [Hlo|Hlo].
  { (* the lower cap is reached: what the other run adds lies beyond it *)
    assert (new = []) as -> by (apply (ext_id st); congruence).
    rewrite ext_nil. unfold same_place. simpl. split; [exact Hi|]. split; [exact Hcur|].
    rewrite take_app_le; [exact Hres|].
    rewrite Hres, length_take in Hlo. lia. }
  (* below the lower cap the two runs hold the same results *)
  assert (result st' = result st) as Hsame_res.
  { rewrite Hres. symmetry. apply take_ge.
    rewrite Hres, length_take in Hlo. lia. }
  rewrite Hsame_res in Hrun'.
  destruct (Z.leb_spec hi (Z.of_nat (length (result st)))) as [Hhi|Hhi]; [lia|].
  assert (gen_done groups st' = gen_done groups st) as Hd
    by (unfold gen_done; rewrite Hi; reflexivity).
  rewrite Hd in Hrun'.
  destruct (gen_done groups st) eqn:Hdone.
  { assert (new = [current st]) as ->.
    { apply (ext_inj st). unfold ext at 2. congruence. }
    assert (new' = [current st']) as ->.
    { apply (ext_inj st'). unfold ext at 2. rewrite Hsame_res. congruence. }
    unfold same_place. simpl. split; [exact Hi|]. split; [exact Hcur|].
    rewrite Hsame_res, Hcur. symmetry. apply take_ge.
    rewrite length_app. simpl. lia. }
  apply (gen_loop_caps (gen groups lo fuel) (gen groups hi fuel) fuel
           (gen_spec groups lo fuel) (gen_spec groups hi fuel) IH
           (seq 0 (length groups)) st st' new new'); try assumption.
  - apply Forall_forall. intros g Hg. apply elem_of_seq in Hg. lia.
  - lia.
Qed.

End Caps.

(** *** Distinct stops give distinct orderings *)

Section Distinct.
Variable max : Z.

Lemma elem_of_concat_lookup (gs : list (list Stop)) j g x :
  gs !! j = Some g -> x ∈ g -> x ∈ concat gs.
Proof.
  revert j. induction gs as [|g0 gs IH]; intros j Hj Hx.
  - rewrite lookup_nil in Hj. discriminate.
  - simpl. apply elem_of_app. destruct j as [|j]; simpl in Hj.
    + inversion Hj; subst. left. exact Hx.
    + right. eapply IH; eassumption.
Qed.

(** Distinct groups have distinct heads. *)
Lemma NoDup_concat_heads (gs : list (list Stop)) i j x xs ys :
  NoDup (concat gs) -> gs !! i = Some (x :: xs) -> gs !! j = Some (x :: ys) -> i = j.
Proof.
  intros Hnd Hi Hj. destruct (decide (i = j)) as [|Hne]; [assumption|exfalso].
  rewrite (concat_insert_head gs i x xs Hi) in Hnd. apply NoDup_cons in Hnd as [Hx _].
  apply Hx. apply (elem_of_concat_lookup _ j (x :: ys)); [|apply list_elem_of_here].
  rewrite list_lookup_insert_ne by assumption. exact Hj.
Qed.

Lemma NoDup_concat_tail (gs : list (list Stop)) i x xs :
  NoDup (concat gs) -> gs !! i = Some (x :: xs) -> NoDup (concat (<[i := xs]> gs)).
Proof.
  intros Hnd Hi. rewrite (concat_insert_head gs i x xs Hi) in Hnd.
  apply NoDup_cons in Hnd as [_ H]. exact H.
Qed.

Lemma gen_branch_distinct rec bound st g new :
  rec_spec groups max rec bound -> distinct_spec groups rec bound ->
  length (indices st) = length groups -> g < length groups ->
  remaining groups st <= bound -> distinct_left groups st ->
  gen_branch groups rec st g = Some (ext st new) ->
  NoDup new /\ Forall (starts_in groups [g] st) new.
Proof.
  intros Hrec Hd Hlen Hg Hrem Hnd Hrun.
  destruct ((groups !!! g) !! (indices st !!! g)) as [x|] eqn:Hx.
  - set (st1 := {| result := result st;
                   indices := <[g := S (indices st !!! g)]> (indices st);
                   current := current st ++ [x] |}).
    assert (length (indices st1) = length groups) as Hlen1.
    { simpl. rewrite length_insert. exact Hlen. }
    pose proof (suffix_of_head st g x Hlen Hg Hx) as Hsfx.
    assert (suffixes groups (indices st1)
            = <[g := drop (S (indices st !!! g)) (groups !!! g)]>
                (suffixes groups (indices st))) as Hsfx1.
    { simpl. apply suffixes_insert. }
    assert (remaining groups st1 < bound) as Hrem1
      by (eapply remaining_consumed; eassumption).
    destruct (Hrec st1 Hlen1 Hrem1) as (n1 & Hr1 & [Hall _] & _).
    pose proof (gen_branch_some rec st g x n1 Hlen Hg Hx Hr1) as Hb.
    assert (new = n1) as -> by (apply (ext_inj st); congruence).
    split.
    + apply (Hd st1 n1 Hlen1 Hrem1); [|exact Hr1].
      unfold distinct_left. rewrite Hsfx1. eapply NoDup_concat_tail; eassumption.
    + eapply Forall_impl; [exact Hall|]. simpl. intros o (tail & -> & _).
      exists g, x, (drop (S (indices st !!! g)) (groups !!! g)), tail.
      split; [apply list_elem_of_here|]. split; [exact Hsfx|].
      rewrite <- app_assoc. reflexivity.
  - unfold gen_branch in Hrun. rewrite Hx in Hrun.
    assert (new = []) as -> by (apply (ext_id st); congruence).
    split; constructor.
Qed.

Lemma gen_loop_distinct rec bound :
  rec_spec groups max rec bound -> distinct_spec groups rec bound ->
  forall gs st new,
  NoDup gs -> Forall (λ g, g < length groups) gs ->
  length (indices st) = length groups ->
  remaining groups st <= bound -> distinct_left groups st ->
  gen_loop groups rec gs st = Some (ext st new) ->
  NoDup new /\ Forall (starts_in groups gs st) new.
Proof.
  intros Hrec Hd. induction gs as [|g gs IH];
    intros st new Hgsnd Hgs Hlen Hrem Hnd Hrun; simpl in Hrun.
  - assert (new = []) as -> by (apply (ext_id st); congruence). split; constructor.
  - inversion Hgs as [|? ? Hg Hgs']; subst. apply NoDup_cons in Hgsnd as [Hg_new Hgsnd].
    destruct (gen_branch_spec groups max rec bound st g Hrec Hlen Hg Hrem)
      as (n1 & Hb & _ & _).
    rewrite Hb in Hrun.
    destruct (gen_loop_spec groups max rec bound Hrec gs (ext st n1) Hgs' Hlen Hrem)
      as (n2 & Hl & _ & _).
    assert (new = n1 ++ n2) as ->.
    { apply (ext_inj st). rewrite <- ext_ext. congruence. }
    destruct (gen_branch_distinct rec bound st g n1 Hrec Hd Hlen Hg Hrem Hnd Hb)
      as [Hnd1 Hst1].
    destruct (IH (ext st n1) n2 Hgsnd Hgs' Hlen Hrem Hnd Hl) as [Hnd2 Hst2].
    split.
    + (* an ordering of the first branch starts with the head of group [g] *)
      apply NoDup_app. split; [exact Hnd1|]. split; [|exact Hnd2].
      intros o Ho1 Ho2. rewrite Forall_forall in Hst1, Hst2.
      destruct (Hst1 o Ho1) as (g1 & x1 & xs1 & t1 & Hg1 & Hs1 & Heq1).
      destruct (Hst2 o Ho2) as (g2 & x2 & xs2 & t2 & Hg2 & Hs2 & Heq2).
      apply list_elem_of_singleton in Hg1. subst g1.
      simpl in Heq2, Hs2. rewrite Heq1 in Heq2. apply app_inv_head in Heq2.
      inversion Heq2; subst.
      apply Hg_new. rewrite (NoDup_concat_heads _ g g2 x2 xs1 xs2 Hnd Hs1 Hs2). exact Hg2.
    + apply Forall_app. split.
      * eapply Forall_impl; [exact Hst1|]. intros o (g1 & x1 & xs1 & t1 & Hg1 & Hs1 & Heq1).
        apply list_elem_of_singleton in Hg1. subst g1.
        exists g, x1, xs1, t1. split; [apply list_elem_of_here|auto].
      * eapply Forall_impl; [exact Hst2|]. intros o (g2 & x2 & xs2 & t2 & Hg2 & Hs2 & Heq2).
        exists g2, x2, xs2, t2. split; [apply list_elem_of_further; exact Hg2|auto].
Qed.

Lemma gen_distinct fuel : distinct_spec groups (gen groups max fuel) fuel.
Proof.
  induction fuel as [|fuel IH]; intros st new Hlen Hrem Hnd Hrun; [lia|].
  simpl in Hrun.
  destruct (Z.leb_spec max (Z.of_nat (length (result st)))) as [Hcap|Hcap].
  { assert (new = []) as -> by (apply (ext_id st); congruence). constructor. }
  destruct (gen_done groups st) eqn:Hdone.
  { assert (new = [current st]) as ->.
    { apply (ext_inj st). unfold ext at 2. congruence. }
    apply NoDup_singleton. }
  apply (gen_loop_distinct (gen groups max fuel) fuel (gen_spec groups max fuel) IH
           (seq 0 (length groups)) st new); try assumption.
  - apply NoDup_seq.
  - apply Forall_forall. intros g Hg. apply elem_of_seq in Hg. lia.
  - lia.
Qed.

End Distinct.

End GenMoreSpec.

(** The first call of [gen] meets the preconditions of the invariants. *)
Lemma gen_init_ready (groups : list (list Stop)) :
  length (indices (gen_init groups)) = length groups /\
  remaining groups (gen_init groups) < S (totalLen groups).
Proof.
  split.
  - simpl. rewrite length_replicate. reflexivity.
  - unfold remaining. simpl indices. rewrite suffixes_init, totalLen_concat. lia.
Qed.

Lemma allInterleavings_all_merges (groups : list (list Stop)) (max : Z) :
  length groups = 1 \/
  (2 <= length groups /\ (Z.of_nat (length (allInterleavings groups max)) < max)%Z) ->
  forall o, Interleaving groups o -> o ∈ allInterleavings groups max.
Proof.
  intros Hcap o Ho. destruct groups as [|g1 [|g2 groups]].
  - simpl in Hcap. lia.
  - apply Interleaving_single_inv in Ho. subst o. apply list_elem_of_here.
  - destruct Hcap as [Hcap|[_ Hcap]]; [simpl in Hcap; lia|].
    set (gs := g1 :: g2 :: groups) in *.
    destruct (gen_init_ready gs) as [Hlen Hrem].
    destruct (gen_spec gs max (S (totalLen gs)) (gen_init gs) Hlen Hrem) as (new & Hrun & _).
    assert (allInterleavings gs max = new) as Hres.
    { unfold allInterleavings, allInterleavings_fuel. fold gs. rewrite Hrun. reflexivity. }
    rewrite Hres in *.
    apply (gen_complete gs max (S (totalLen gs)) (gen_init gs) new Hlen Hrem) in Hrun.
    apply (Hrun Hcap o). simpl. rewrite suffixes_init. exact Ho.
Qed.

(** X7.  Below the cap the enumeration is complete: with exactly one
    group, or with two or more groups and fewer than [max] orderings
    returned, every order-preserving merge of the groups is returned. *)
Theorem allInterleavings_complete (groups : list (list Stop)) (max : Z)
    (Hcap : length groups = 1 \/
            (2 <= length groups /\
             (Z.of_nat (length (allInterleavings groups max)) < max)%Z)) :
  forall o, Interleaving groups o -> o ∈ allInterleavings groups max.
Proof. apply allInterleavings_all_merges, Hcap. Qed.

(** X8.  The cap only truncates the enumeration: unless there is exactly
    one group, the orderings returned under a cap are the first ones
    returned under any higher cap, in the same order. *)
Theorem allInterleavings_cap_prefix (groups : list (list Stop)) (lo hi : Z)
    (Hcaps : (lo <= hi)%Z) (Hgroups : length groups <> 1) :
  allInterleavings groups lo = take (Z.to_nat lo) (allInterleavings groups hi).
Proof.
  destruct groups as [|g1 [|g2 groups]]; [|simpl in *; lia|].
  { unfold allInterleavings. simpl. rewrite take_nil. reflexivity. }
  set (gs := g1 :: g2 :: groups) in *.
  destruct (gen_init_ready gs) as [Hlen Hrem].
  destruct (gen_spec gs lo (S (totalLen gs)) (gen_init gs) Hlen Hrem) as (new & Hrun & _).
  destruct (gen_spec gs hi (S (totalLen gs)) (gen_init gs) Hlen Hrem) as (new' & Hrun' & _).
  assert (same_place lo (gen_init gs) (gen_init gs)) as Hsame.
  { unfold same_place. simpl. rewrite take_nil. auto. }
  destruct (gen_caps gs lo hi Hcaps (S (totalLen gs)) _ _ new new' Hlen Hrem Hsame Hrun Hrun')
    as (_ & _ & Hres).
  unfold allInterleavings, allInterleavings_fuel. fold gs. rewrite Hrun, Hrun'. exact Hres.
Qed.

(** X9.  When the stops of the groups are pairwise distinct, so are the
    orderings [allInterleavings] returns: no ordering takes two places
    under the cap. *)
Theorem allInterleavings_distinct (groups : list (list Stop)) (max : Z)
    (Hdistinct : NoDup (concat groups)) :
  NoDup (allInterleavings groups max).
Proof.
  destruct groups as [|g1 [|g2 groups]].
  - constructor.
  - apply NoDup_singleton.
  - set (gs := g1 :: g2 :: groups) in *.
    destruct (gen_init_ready gs) as [Hlen Hrem].
    destruct (gen_spec gs max (S (totalLen gs)) (gen_init gs) Hlen Hrem) as (new & Hrun & _).
    unfold allInterleavings, allInterleavings_fuel. fold gs. rewrite Hrun. simpl.
    apply (gen_distinct gs max (S (totalLen gs)) (gen_init gs) new Hlen Hrem); [|exact Hrun].
    unfold distinct_left. simpl indices. rewrite suffixes_init. exact Hdistinct.
Qed.

(** ** Segments of the reversed walk *)

Lemma midpoint_comm p q : midpoint p q = midpoint q p.
Proof.
  unfold midpoint. rewrite (Float64.add_comm (fst p)), (Float64.add_comm (snd p)).
  reflexivity.
Qed.

Lemma legs_snoc pts p q : legs (pts ++ [p; q]) = legs (pts ++ [p]) ++ [midpoint p q].
Proof.
  induction pts as [|a [|b pts] IH]; try reflexivity.
  simpl in *. rewrite IH. reflexivity.
Qed.

Lemma legs_rev pts : legs (rev pts) = rev (legs pts).
Proof.
  induction pts as [|p [|q pts] IH]; try reflexivity.
  change (legs (p :: q :: pts)) with (midpoint p q :: legs (q :: pts)).
  simpl rev in *. rewrite <- app_assoc. simpl app.
  rewrite legs_snoc, IH, midpoint_comm. reflexivity.
Qed.

Lemma walk_rev start finish stops :
  walk finish start (rev stops) = rev (walk start finish stops).
Proof.
  unfold walk. simpl. rewrite rev_app_distr, map_rev. simpl. reflexivity.
Qed.

(** X10.  Exchanging start and end and reversing the stops reverses the
    segment points: [buildSegmentsFromStops] gives a route and the same
    route driven backwards the same midpoints. *)
Theorem buildSegmentsFromStops_reversed startLat startLng endLat endLng (stops : list Stop) :
  buildSegmentsFromStops endLat endLng startLat startLng (rev stops)
  = rev (buildSegmentsFromStops startLat startLng endLat endLng stops).
Proof. rewrite !buildSegments_legs, walk_rev. apply legs_rev. Qed.

(** ** The distance of a point to itself *)

Section HaversineZero.
Variable M : MathLib.
Hypothesis Sin_zero : Sin M 0 = 0%float.
Hypothesis Atan2_zero : Atan2 M 0 1 = 0%float.

(** X11.  The distance of a point to itself is [0]: for finite
    coordinates and a finite squared cosine of the latitude, given
    [Sin(0) = 0] and [Atan2(0, 1) = 0] as in Go's library. *)
Theorem Haversine_self (lat lng : float)
    (Hlat : is_finite lat = true) (Hlng : is_finite lng = true)
    (Hcos : is_finite (Cos M (lat * Pi / 180) * Cos M (lat * Pi / 180)) = true) :
  Haversine M lat lng lat lng = 0%float.
Proof.
  unfold Haversine. cbv zeta.
  rewrite (Float64.sub_diag lat Hlat), (Float64.sub_diag lng Hlng).
  change (0 * Pi / 180 / 2)%float with 0%float. rewrite Sin_zero.
  destruct (Float64.mul_finite_zero _ Hcos) as [-> | ->];
    [change (0 * 0 + 0 * 0)%float with 0%float
    |change (0 * 0 + - 0 * 0)%float with 0%float];
    change (sqrt 0) with 0%float; change (sqrt (1 - 0)) with 1%float;
    rewrite Atan2_zero; reflexivity.
Qed.

End HaversineZero.

(** ** More on the deviation of a route *)

Section DeviationMore.
Variable M : MathLib.

Lemma minStopDev_zero route search orderings :
  InStops search = [] ->
  fold_left (minStopDev_step M route search) orderings 0%float = 0%float.
Proof.
  intros Hno. induction orderings as [|o os IH]; simpl; [reflexivity|].
  unfold minStopDev_step at 2, deviationForStops. rewrite Hno. simpl. exact IH.
Qed.

(** X12.  For a query without via-points the score is the endpoint
    deviation plus [0], whatever the stops of the route. *)
Theorem CalculateDeviation_no_via_points (route : Route) (search : SearchInput)
    (Hno : InStops search = []) :
  CalculateDeviation M route search = (endpointDeviation M route search + 0)%float.
Proof.
  rewrite CalculateDeviation_unfold.
  destruct (enumerated route) as [|o os]; simpl.
  - unfold stopDeviation, deviationForStops. rewrite Hno. reflexivity.
  - unfold minStopDev_step at 2, deviationForStops. rewrite Hno. simpl.
    rewrite minStopDev_zero by assumption. reflexivity.
Qed.

(** X13.  When all stops of a route have the same contributor, only the
    given order is scored: the score is the endpoint deviation plus the
    stop deviation of the stops as listed, or plus [math.MaxFloat64] when
    that deviation is not below it (NaN and +Inf included). *)
Theorem CalculateDeviation_single_contributor (route : Route) (search : SearchInput)
    (Hne : Stops route <> [])
    (Hsame : forall s s', s ∈ Stops route -> s' ∈ Stops route ->
                          ApplicationID s = ApplicationID s') :
  let d := stopDeviation M route search (Stops route) in
  CalculateDeviation M route search
  = (endpointDeviation M route search +
     (if (d <? MaxFloat64)%float then d else MaxFloat64))%float.
Proof.
  cbv zeta. rewrite CalculateDeviation_unfold. unfold enumerated.
  rewrite (groupStops_single _ Hne Hsame). reflexivity.
Qed.

(** X14.  The score depends on the stop list only through its groups:
    two routes with the same endpoints whose stops fall into the same
    groups have the same score, however the stops of different
    contributors are interleaved in the two lists. *)
Theorem CalculateDeviation_by_groups (r1 r2 : Route) (search : SearchInput)
    (Hstart : StartLat r1 = StartLat r2 /\ StartLng r1 = StartLng r2)
    (Hend : EndLat r1 = EndLat r2 /\ EndLng r1 = EndLng r2)
    (Hgroups : groupStopsByParticipant (Stops r1) = groupStopsByParticipant (Stops r2)) :
  CalculateDeviation M r1 search = CalculateDeviation M r2 search.
Proof.
  destruct Hstart as [H1 H2], Hend as [H3 H4].
  rewrite !CalculateDeviation_unfold.
  assert (enumerated r1 = enumerated r2) as He
    by (unfold enumerated; rewrite Hgroups; reflexivity).
  unfold endpointDeviation, stopDeviation, minStopDev_step.
  rewrite He, H1, H2, H3, H4.
  destruct (enumerated r2) as [|o os] eqn:Hen; simpl; [|reflexivity].
  rewrite (enumerated_nil r2 Hen), (enumerated_nil r1 He). reflexivity.
Qed.

(** X15.  [minDistanceToSegment] never returns NaN nor a value above
    [math.MaxFloat64], and what it returns is at most every distance to a
    segment point that is not NaN. *)
Theorem minDistanceToSegment_bounds (lat lng : float) (segments : list (float * float)) :
  let m := minDistanceToSegment M lat lng segments in
  (m <=? MaxFloat64)%float = true /\
  is_nan m = false /\
  Forall (λ seg, is_nan (Haversine M lat lng (fst seg) (snd seg)) = false ->
                 (m <=? Haversine M lat lng (fst seg) (snd seg))%float = true) segments.
Proof.
  cbv zeta. destruct (minDistance_least M lat lng segments) as (_ & Hle & Hall).
  split; [exact Hle|].
  pose proof (proj1 (Float64.leb_not_nan _ _ Hle)) as Hnan.
  split; [exact Hnan|].
  unfold segmentDistances in Hall. rewrite Forall_fmap in Hall.
  eapply Forall_impl; [exact Hall|]. simpl. intros seg Hlt Hn.
  apply Float64.ltb_false_leb; assumption.
Qed.

End DeviationMore.

(** X16.  When fewer than [maxInterleavings] orderings are enumerated for
    a route with stops, the stops in the order of the route are one of
    them: reordering is never scored instead of the given order. *)
Theorem given_order_enumerated (route : Route)
    (Hne : Stops route <> [])
    (Hcap : (Z.of_nat (length (enumerated route)) < maxInterleavings)%Z) :
  Stops route ∈ enumerated route.
Proof.
  unfold enumerated in *.
  pose proof (groupStops_nonempty _ Hne) as Hg.
  apply allInterleavings_all_merges; [|apply Interleaving_groupStops].
  destruct (groupStopsByParticipant (Stops route)) as [|g1 [|g2 gs]];
    [congruence|left; reflexivity|right; split; [simpl; lia|exact Hcap]].
Qed.

(** ** The queries of [route.go] *)

Lemma forRows_clean {A S} what (f : S -> A -> S) (rows : list A) : forall st,
  forRows what (λ st a, Fetched (f st a)) (map Fetched rows) st
  = Fetched (fold_left f rows st).
Proof. induction rows as [|a rows IH]; intros st; simpl; [reflexivity|apply IH]. Qed.

(** A loop that returns a state met no error: every row decoded, and
    every run of the body returned a state. *)
Lemma forRows_Fetched {A S} what (body : S -> A -> fetched S) rows : forall st st',
  forRows what body rows st = Fetched st' ->
  exists decoded, rows = map Fetched decoded.
Proof.
  induction rows as [|[a|e] rows IH]; intros st st' H; simpl in H.
  - exists []. reflexivity.
  - destruct (body st a) as [st1|e]; [|discriminate].
    destruct (IH st1 st' H) as (decoded & ->). exists (a :: decoded). reflexivity.
  - discriminate.
Qed.

Lemma afterRows_Fetched {A S} what (rows : sqlRows A) (st st' : S) :
  afterRows what rows st = Fetched st' <-> rowsErr rows = None /\ st' = st.
Proof.
  unfold afterRows. destruct (rowsErr rows); split; try discriminate.
  - intros [? _]. discriminate.
  - intros [= ->]. auto.
  - intros [_ ->]. reflexivity.
Qed.

Lemma sqlRows_clean {A} (rows : sqlRows A) decoded :
  scans rows = map Fetched decoded -> rowsErr rows = None -> rows = cleanRows decoded.
Proof. destruct rows. simpl. intros -> ->. reflexivity. Qed.

Section QueriesSpec.
Variable uuid_Parse : string -> UUID.
Variable db : DB.

Lemma scanStops_loop (cs : list stopColumns) : forall stops,
  fold_left (λ stops c, stops ++ [stopOfColumns uuid_Parse (applicationOf uuid_Parse c) c])
            cs stops
  = stops ++ map (λ c, stopOfColumns uuid_Parse (applicationOf uuid_Parse c) c) cs.
Proof.
  induction cs as [|c cs IH]; intros stops; simpl.
  - rewrite app_nil_r. reflexivity.
  - rewrite IH, <- app_assoc. reflexivity.
Qed.

(** X17.  [fetchRouteStops] returns stops exactly when the query
    succeeded, every row decoded and the cursor reported no error; the
    stops are then the rows in their order, a NULL [application_id] giving
    a creator's stop.  Any error leaves no stops. *)
Theorem fetchRouteStops_all_or_nothing (routeID : string) (stops : list Stop) :
  fetchRouteStops uuid_Parse db routeID = Fetched stops <->
  exists cs,
    queryRouteStops db routeID = Fetched (cleanRows cs) /\
    stops = map (λ c, stopOfColumns uuid_Parse (uuid_Parse <$> colApplicationID c) c) cs.
Proof.
  unfold fetchRouteStops. split.
  - destruct (queryRouteStops db routeID) as [rows|e]; [|discriminate].
    destruct (forRows _ _ (scans rows) []) as [stops'|e] eqn:Hloop; [|discriminate].
    intros Hafter. apply afterRows_Fetched in Hafter as [Herr ->].
    destruct (forRows_Fetched _ _ _ _ _ Hloop) as (cs & Hcs).
    exists cs. split; [f_equal; apply sqlRows_clean; assumption|].
    rewrite Hcs, forRows_clean, scanStops_loop in Hloop. simpl in Hloop.
    injection Hloop as <-. reflexivity.
  - intros (cs & -> & ->). simpl.
    rewrite forRows_clean, scanStops_loop. reflexivity.
Qed.

Lemma scanRoutes_loop (cs : list routeColumns) : forall routes routes',
  forRows "scan route"
    (λ routes c,
       match fetchRouteStops uuid_Parse db (colID c) with
       | FetchError e => FetchError e
       | Fetched stops => Fetched (routes ++ [withStops (routeOfColumns uuid_Parse c) stops])
       end)
    (map Fetched cs) routes = Fetched routes' <->
  exists rs,
    Forall2 (λ c r, exists stops,
               fetchRouteStops uuid_Parse db (colID c) = Fetched stops /\
               r = withStops (routeOfColumns uuid_Parse c) stops) cs rs /\
    routes' = routes ++ rs.
Proof.
  induction cs as [|c cs IH]; intros routes routes'; simpl.
  - split.
    + intros [= <-]. exists []. split; [constructor|]. rewrite app_nil_r. reflexivity.
    + intros (rs & Hrs & ->). inversion Hrs. rewrite app_nil_r. reflexivity.
  - destruct (fetchRouteStops uuid_Parse db (colID c)) as [stops|e] eqn:Hstops.
    + rewrite IH. split.
      * intros (rs & Hrs & ->). exists (withStops (routeOfColumns uuid_Parse c) stops :: rs).
        split; [|rewrite <- app_assoc; reflexivity].
        constructor; [|exact Hrs]. exists stops. split; [exact Hstops|reflexivity].
      * intros (rs & Hrs & ->). inversion Hrs as [|? r ? rs' (stops' & Hs' & ->) Hrs']; subst.
        exists rs'. split; [exact Hrs'|]. rewrite <- app_assoc. simpl.
        rewrite Hstops in Hs'. injection Hs' as <-. reflexivity.
    + split; [discriminate|].
      intros (rs & Hrs & _). inversion Hrs as [|? r ? rs' (stops' & Hs' & _) _]; subst.
      rewrite Hstops in Hs'. discriminate.
Qed.

Lemma fetchSearchableRoutes_Fetched (routes : list Route) :
  fetchSearchableRoutes uuid_Parse db = Fetched routes <->
  exists cs,
    querySearchable db = Fetched (cleanRows cs) /\
    Forall2 (λ c r, exists stops,
               fetchRouteStops uuid_Parse db (colID c) = Fetched stops /\
               r = withStops (routeOfColumns uuid_Parse c) stops) cs routes.
Proof.
  unfold fetchSearchableRoutes. split.
  - destruct (querySearchable db) as [rows|e]; [|discriminate].
    destruct (forRows _ _ (scans rows) []) as [routes'|e] eqn:Hloop; [|discriminate].
    intros Hafter. apply afterRows_Fetched in Hafter as [Herr ->].
    destruct (forRows_Fetched _ _ _ _ _ Hloop) as (cs & Hcs).
    exists cs. split; [f_equal; apply sqlRows_clean; assumption|].
    rewrite Hcs in Hloop. apply scanRoutes_loop in Hloop as (rs & Hrs & ->). exact Hrs.
  - intros (cs & -> & Hrs). simpl.
    rewrite (proj2 (scanRoutes_loop cs [] routes)); [reflexivity|].
    exists routes. split; [exact Hrs|reflexivity].
Qed.

(** X18.  [fetchSearchableRoutes] returns routes exactly when its query
    succeeded, every row decoded, the cursor reported no error and
    [fetchRouteStops] succeeded for every row; the routes are then the rows
    in their order, each with the stops fetched for its own id.  One
    failing stop query leaves no routes. *)
Theorem fetchSearchableRoutes_all_or_nothing (routes : list Route) :
  fetchSearchableRoutes uuid_Parse db = Fetched routes <->
  exists cs,
    querySearchable db = Fetched (cleanRows cs) /\
    Forall2 (λ c r, exists stops,
               fetchRouteStops uuid_Parse db (colID c) = Fetched stops /\
               r = withStops (routeOfColumns uuid_Parse c) stops) cs routes.
Proof. apply fetchSearchableRoutes_Fetched. Qed.

Lemma scanParticipants_loop (cs : list participantColumns) : forall participants,
  fold_left (λ participants c, participants ++ [participantOfColumns uuid_Parse c])
            cs participants
  = participants ++ map (participantOfColumns uuid_Parse) cs.
Proof.
  induction cs as [|c cs IH]; intros participants; simpl.
  - rewrite app_nil_r. reflexivity.
  - rewrite IH, <- app_assoc. reflexivity.
Qed.

Lemma fetchRouteParticipants_Fetched (routeID : string) (participants : list Participant) :
  fetchRouteParticipants uuid_Parse db routeID = Fetched participants <->
  exists cs,
    queryRouteParticipants db routeID = Fetched (cleanRows cs) /\
    participants = map (participantOfColumns uuid_Parse) cs.
Proof.
  unfold fetchRouteParticipants. split.
  - destruct (queryRouteParticipants db routeID) as [rows|e]; [|discriminate].
    destruct (forRows _ _ (scans rows) []) as [ps|e] eqn:Hloop; [|discriminate].
    intros Hafter. apply afterRows_Fetched in Hafter as [Herr ->].
    destruct (forRows_Fetched _ _ _ _ _ Hloop) as (cs & Hcs).
    exists cs. split; [f_equal; apply sqlRows_clean; assumption|].
    rewrite Hcs, forRows_clean, scanParticipants_loop in Hloop. simpl in Hloop.
    injection Hloop as <-. reflexivity.
  - intros (cs & -> & ->). simpl.
    rewrite forRows_clean, scanParticipants_loop. reflexivity.
Qed.

(** X22.  [GetRoute] returns a route exactly when the row of the route was
    found and decoded and the queries for its stops and its participants
    succeeded, with every row decoded and no cursor error; the route then
    holds the stops and the participants in the order of their rows.  A
    missing row gives [errs.ErrNotFound], and no error leaves a partial
    route. *)
Theorem GetRoute_all_or_nothing (id : UUID) (r : Route) :
  (queryRoute db (UUID_String id) = RowMissing ->
   GetRoute uuid_Parse db id = FetchError ErrNotFound) /\
  (GetRoute uuid_Parse db id = Fetched r <->
   exists c cs ps,
     queryRoute db (UUID_String id) = RowFound c /\
     queryRouteStops db (UUID_String id) = Fetched (cleanRows cs) /\
     queryRouteParticipants db (UUID_String id) = Fetched (cleanRows ps) /\
     r = withParticipants
           (withStops (routeOfColumns uuid_Parse c)
              (map (λ c, stopOfColumns uuid_Parse (uuid_Parse <$> colApplicationID c) c) cs))
           (map (participantOfColumns uuid_Parse) ps)).
Proof.
  unfold GetRoute. split; [intros ->; reflexivity|]. split.
  - destruct (queryRoute db (UUID_String id)) as [c| |e]; [|discriminate..]. cbv zeta.
    destruct (queryRouteStops db (UUID_String id)) as [rows|e]; [|discriminate].
    destruct (forRows _ _ (scans rows) _) as [stops|e] eqn:Hloop; [|discriminate].
    destruct (afterRows _ rows stops) as [stops'|e] eqn:Hafter; [|discriminate].
    apply afterRows_Fetched in Hafter as [Herr ->].
    destruct (fetchRouteParticipants uuid_Parse db (UUID_String id)) as [ps|e] eqn:Hps;
      [|discriminate].
    intros [= <-].
    destruct (forRows_Fetched _ _ _ _ _ Hloop) as (cs & Hcs).
    apply fetchRouteParticipants_Fetched in Hps as (pcs & Hq & ->).
    exists c, cs, pcs. split; [reflexivity|].
    split; [f_equal; apply sqlRows_clean; assumption|]. split; [exact Hq|].
    rewrite Hcs, forRows_clean, scanStops_loop in Hloop. simpl in Hloop.
    injection Hloop as <-. reflexivity.
  - intros (c & cs & ps & -> & -> & Hq & ->). cbv zeta. cbn [scans cleanRows].
    rewrite forRows_clean, scanStops_loop.
    rewrite (proj2 (fetchRouteParticipants_Fetched _ _) (ex_intro _ ps (conj Hq eq_refl))).
    reflexivity.
Qed.

(** *** The batched queries *)

Lemma scanRouteRows_loop (cs : list routeColumns) : forall (m : gmap string Route) ids,
  forRows "scan route"
    (λ '(routesMap, routeIDs) c,
       Fetched (<[colID c := routeOfColumns uuid_Parse c]> routesMap, routeIDs ++ [colID c]))
    (map Fetched cs) (m, ids)
  = Fetched (fold_left (λ m c, <[colID c := routeOfColumns uuid_Parse c]> m) cs m,
             ids ++ map colID cs).
Proof.
  induction cs as [|c cs IH]; intros m ids; simpl.
  - rewrite app_nil_r. reflexivity.
  - rewrite IH, <- app_assoc. reflexivity.
Qed.

Lemma routesMap_lookup (cs : list routeColumns) : forall m : gmap string Route,
  NoDup (map colID cs) ->
  forall c, c ∈ cs ->
  fold_left (λ m c, <[colID c := routeOfColumns uuid_Parse c]> m) cs m !! colID c
  = Some (routeOfColumns uuid_Parse c).
Proof.
  induction cs as [|c0 cs IH]; intros m Hnd c Hc; [inversion Hc|].
  simpl in *. apply NoDup_cons in Hnd as [Hnew Hnd].
  apply elem_of_cons in Hc as [->|Hc]; [|apply IH; assumption].
  clear IH. revert m. induction cs as [|c1 cs IH]; intros m; simpl.
  - apply lookup_insert_eq.
  - simpl in Hnew, Hnd. apply not_elem_of_cons in Hnew as [Hne Hnew].
    apply NoDup_cons in Hnd as [_ Hnd].
    rewrite insert_insert_ne by congruence. apply IH; assumption.
Qed.

Lemma attachStop_loop (rows : list (string * stopColumns)) : forall (m : gmap string Route) id,
  fold_left (attachStop uuid_Parse) rows m !! id
  = (λ r, withStops r (Stops r ++ stopsFor uuid_Parse id rows)) <$> (m !! id).
Proof.
  induction rows as [|row rows IH]; intros m id; simpl.
  - unfold stopsFor. simpl. destruct (m !! id) as [[]|]; simpl; [|reflexivity].
    rewrite app_nil_r. reflexivity.
  - rewrite IH. unfold attachStop, stopsFor. rewrite filter_cons.
    destruct (decide (fst row = id)) as [<-|Hne].
    + destruct (m !! fst row) as [r|] eqn:Hr; [|rewrite Hr; reflexivity].
      rewrite lookup_insert_eq. simpl. rewrite <- app_assoc. reflexivity.
    + destruct (m !! fst row) as [r|] eqn:Hr; [|reflexivity].
      rewrite lookup_insert_ne by assumption. reflexivity.
Qed.

Lemma attachParticipant_loop (rows : list (string * participantColumns)) :
  forall (m : gmap string Route) id,
  fold_left (attachParticipant uuid_Parse) rows m !! id
  = (λ r, withParticipants r (Participants r ++ participantsFor uuid_Parse id rows))
      <$> (m !! id).
Proof.
  induction rows as [|row rows IH]; intros m id; simpl.
  - unfold participantsFor. simpl. destruct (m !! id) as [[]|]; simpl; [|reflexivity].
    rewrite app_nil_r. reflexivity.
  - rewrite IH. unfold attachParticipant, participantsFor. rewrite filter_cons.
    destruct (decide (fst row = id)) as [<-|Hne].
    + destruct (m !! fst row) as [r|] eqn:Hr; [|rewrite Hr; reflexivity].
      rewrite lookup_insert_eq. simpl. rewrite <- app_assoc. reflexivity.
    + destruct (m !! fst row) as [r|] eqn:Hr; [|reflexivity].
      rewrite lookup_insert_ne by assumption. reflexivity.
Qed.

Lemma omap_fmap_Some {A B C} (f : B -> option C) (g : A -> B) (h : A -> C) (l : list A) :
  (forall a, a ∈ l -> f (g a) = Some (h a)) -> omap f (map g l) = map h l.
Proof.
  induction l as [|a l IH]; intros H; simpl; [reflexivity|].
  rewrite (H a) by apply list_elem_of_here. f_equal.
  apply IH. intros b Hb. apply H. apply list_elem_of_further, Hb.
Qed.

(** X19.  [fetchRoutesWithDetails] joins the batched rows to the routes:
    when the route rows are clean and their ids distinct, no row gives no
    route (and no further query matters); otherwise, with clean stop and
    participant rows, the routes are the route rows in their order, each
    with the stops and participants whose [route_id] is its id, in row
    order.  Rows of other ids are ignored. *)
Theorem fetchRoutesWithDetails_joins (baseQuery whereClause : string) (args : list string)
    (cs : list routeColumns)
    (Hroutes : queryRoutes db (baseQuery +:+ whereClause +:+ " ORDER BY r.created_at DESC")
                 args = Fetched (cleanRows cs))
    (Hids : NoDup (map colID cs)) :
  (cs = [] -> fetchRoutesWithDetails uuid_Parse db baseQuery whereClause args = Fetched []) /\
  (forall stops participants,
     (exists c, c ∈ cs) ->
     queryStopsIn db (inClause (length cs)) (map colID cs) = Fetched (cleanRows stops) ->
     queryParticipantsIn db (inClause (length cs)) (map colID cs)
       = Fetched (cleanRows participants) ->
     fetchRoutesWithDetails uuid_Parse db baseQuery whereClause args
     = Fetched (map (routeWithDetails uuid_Parse stops participants) cs)).
Proof.
  unfold fetchRoutesWithDetails. cbv zeta. rewrite Hroutes.
  unfold afterRows, cleanRows. cbn [scans rowsErr].
  rewrite scanRouteRows_loop. cbn [app]. rewrite length_map. split.
  - intros ->. reflexivity.
  - intros stops participants [c Hc] Hstops Hparts.
    assert ((length cs =? 0) = false) as ->.
    { destruct cs; [inversion Hc|reflexivity]. }
    rewrite Hstops. cbn [scans rowsErr].
    rewrite (forRows_clean "scan stop" (attachStop uuid_Parse)).
    rewrite Hparts. cbn [scans rowsErr].
    rewrite (forRows_clean "scan participant" (attachParticipant uuid_Parse)).
    f_equal. apply omap_fmap_Some. intros c1 Hc1.
    rewrite attachParticipant_loop, attachStop_loop.
    rewrite (routesMap_lookup cs ∅ Hids c1 Hc1). reflexivity.
Qed.

End QueriesSpec.

(** *** Creating a route *)

Section CreatingSpec.
Variable uuid_New : nat -> UUID.
Variable exec : statement -> option string.

Lemma stopStatements_cons routeID s stops i :
  stopStatements uuid_New routeID (s :: stops) i
  = InsertStop (UUID_String (uuid_New (S i))) routeID (N.of_nat i) s
    :: stopStatements uuid_New routeID stops (S i).
Proof.
  unfold stopStatements. simpl. rewrite Nat.add_0_r. f_equal.
  apply imap_ext. intros j s' _. simpl. rewrite Nat.add_succ_r. reflexivity.
Qed.

(** The loop executes the statements of the stops in order, up to and
    including the first one that fails. *)
Lemma createStops_spec routeID stops : forall i issued,
  (Forall (λ st, exec st = None) (stopStatements uuid_New routeID stops i) ->
   createStops uuid_New exec routeID stops i issued
   = (issued ++ stopStatements uuid_New routeID stops i, None)) /\
  (forall k st e,
     stopStatements uuid_New routeID stops i !! k = Some st -> exec st = Some e ->
     Forall (λ st, exec st = None) (take k (stopStatements uuid_New routeID stops i)) ->
     createStops uuid_New exec routeID stops i issued
     = (issued ++ take (S k) (stopStatements uuid_New routeID stops i),
        Some (wrapError "create route stop" e))).
Proof.
  induction stops as [|s stops IH]; intros i issued.
  - split.
    + intros _. simpl. rewrite app_nil_r. reflexivity.
    + intros k st e Hk. unfold stopStatements in Hk. simpl in Hk.
      rewrite lookup_nil in Hk. discriminate.
  - rewrite stopStatements_cons. simpl.
    destruct (IH (S i) (issued ++ [InsertStop (UUID_String (uuid_New (S i))) routeID
                                      (N.of_nat i) s])) as [IHok IHfail].
    split.
    + intros Hall. inversion Hall as [|? ? Hst Hrest]; subst. rewrite Hst.
      rewrite (IHok Hrest), <- app_assoc. reflexivity.
    + intros k st e Hk He Hall. destruct k as [|k]; simpl in Hk.
      * injection Hk as <-. rewrite He. reflexivity.
      * simpl in Hall. inversion Hall as [|? ? Hst Hrest]; subst. rewrite Hst.
        rewrite (IHfail k st e Hk He Hrest), <- app_assoc. reflexivity.
Qed.

(** X23.  [Create] executes the insert of the route and then the inserts
    of the stops in order, stop [i] with position [i].  When none fails it
    returns the id of the route; when one fails it returns an error and no
    id, having executed every statement up to the failing one and nothing
    after it: what was inserted before stays inserted. *)
Theorem Create_statements (creatorID : UUID) (input : CreateInput) :
  let all := createStatements uuid_New creatorID input in
  (Forall (λ st, exec st = None) all ->
   Create uuid_New exec creatorID input = (all, Fetched (uuid_New 0))) /\
  (forall k st e,
     all !! k = Some st -> exec st = Some e ->
     Forall (λ st, exec st = None) (take k all) ->
     exists msg, Create uuid_New exec creatorID input = (take (S k) all, FetchError msg)).
Proof.
  cbv zeta. unfold Create, createStatements.
  set (st0 := InsertRoute (UUID_String (uuid_New 0)) (UUID_String creatorID) input).
  destruct (createStops_spec (UUID_String (uuid_New 0)) (NewStops input) 0 [st0])
    as [Hok Hfail].
  split.
  - intros Hall. inversion Hall as [|? ? Hst Hrest]; subst. rewrite Hst.
    rewrite (Hok Hrest). reflexivity.
  - intros k st e Hk He Hall. destruct k as [|k]; simpl in Hk.
    + injection Hk as <-. rewrite He. eexists. reflexivity.
    + simpl in Hall. inversion Hall as [|? ? Hst Hrest]; subst. rewrite Hst.
      rewrite (Hfail k st e Hk He Hrest). eexists. reflexivity.
Qed.

End CreatingSpec.

(** *** Search over the database *)

Section SearchDatabase.
Variable M : MathLib.
Variable sort_Slice :
  (routeWithDev -> routeWithDev -> bool) -> list routeWithDev -> list routeWithDev.
Hypothesis sort_Slice_ok : sort_contract sort_Slice.
Variable uuid_Parse : string -> UUID.
Variable db : DB.

(** X20.  [Search] on the routes [fetchSearchableRoutes] fetched: every
    route it returns was decoded from a row of the route query, carries
    the stops fetched for that row's id, and passes the threshold test. *)
Theorem Search_from_database (search : SearchInput) (out : list Route)
    (Hrun : Search M sort_Slice (fetchSearchableRoutes uuid_Parse db) search = Fetched out) :
  exists cs,
    querySearchable db = Fetched (cleanRows cs) /\
    Forall (λ r, (exists c stops,
                    c ∈ cs /\
                    fetchRouteStops uuid_Parse db (colID c) = Fetched stops /\
                    r = withStops (routeOfColumns uuid_Parse c) stops) /\
                 (MaxDeviation r <? CalculateDeviation M r search)%float = false) out.
Proof.
  destruct (fetchSearchableRoutes uuid_Parse db) as [routes|e] eqn:Hfetch; [|discriminate].
  apply fetchSearchableRoutes_Fetched in Hfetch as (cs & Hq & Hrows).
  exists cs. split; [exact Hq|].
  destruct (Search_output M sort_Slice sort_Slice_ok search routes) as (out' & Hrun' & Hperm).
  rewrite Hrun' in Hrun. injection Hrun as <-.
  apply Forall_forall. intros r Hr. rewrite Hperm in Hr.
  apply list_elem_of_filter in Hr as [Hpass Hr]. split; [|exact Hpass].
  apply list_elem_of_lookup_1 in Hr as [i Hi].
  destruct (Forall2_lookup_r _ _ _ _ _ Hrows Hi) as (c & Hc & stops & Hstops & ->).
  exists c, stops. split; [eapply list_elem_of_lookup_2; exact Hc|]. auto.
Qed.
End SearchDatabase.

(** ** The order of the contributors *)

(** Replacing one element of a list, followed along a permutation. *)
Lemma Permutation_insert {A} (l l' : list A) :
  l ≡ₚ l' -> forall i a, l !! i = Some a ->
  exists i', l' !! i' = Some a /\ forall b, <[i := b]> l ≡ₚ <[i' := b]> l'.
Proof.
  induction 1 as [|x l l' Hp IH|x y l|l l' l'' Hp1 IH1 Hp2 IH2]; intros i a Hi.
  - rewrite lookup_nil in Hi. discriminate.
  - destruct i as [|i]; simpl in Hi.
    + exists 0. split; [exact Hi|]. intros b. simpl. constructor. exact Hp.
    + destruct (IH i a Hi) as (i' & Hi' & Hb). exists (S i'). split; [exact Hi'|].
      intros b. simpl. constructor. apply Hb.
  - destruct i as [|[|i]]; simpl in Hi.
    + exists 1. split; [exact Hi|]. intros b. simpl. apply Permutation_swap.
    + exists 0. split; [exact Hi|]. intros b. simpl. apply Permutation_swap.
    + exists (S (S i)). split; [exact Hi|]. intros b. simpl. apply Permutation_swap.
  - destruct (IH1 i a Hi) as (i' & Hi' & Hb').
    destruct (IH2 i' a Hi') as (i'' & Hi'' & Hb''). exists i''. split; [exact Hi''|].
    intros b. rewrite Hb'. apply Hb''.
Qed.

(** The merges of a list of groups do not depend on the order of the
    groups. *)
Lemma Interleaving_Permutation gs l :
  Interleaving gs l -> forall gs', gs ≡ₚ gs' -> Interleaving gs' l.
Proof.
  induction 1 as [gs Hall|gs i x xs l Hi _ IH]; intros gs' Hp.
  - constructor. rewrite <- Hp. exact Hall.
  - destruct (Permutation_insert gs gs' Hp i (x :: xs) Hi) as (i' & Hi' & Hb).
    apply (Interleaving_cons gs' i' x xs l Hi'). apply IH, Hb.
Qed.

(** What [allInterleavings] returns are merges of the groups. *)
Lemma allInterleavings_merges groups max o :
  o ∈ allInterleavings groups max -> Interleaving groups o.
Proof.
  destruct (allInterleavings_run groups max) as (new & _ & -> & Hall & _).
  rewrite Forall_forall in Hall. apply Hall.
Qed.

(** Two complete enumerations of the same groups, in any order of the
    groups, hold the same orderings. *)
Lemma allInterleavings_same_orderings gs gs' max :
  gs ≡ₚ gs' -> gs <> [] ->
  (Z.of_nat (length (allInterleavings gs max)) < max)%Z ->
  (Z.of_nat (length (allInterleavings gs' max)) < max)%Z ->
  forall o, o ∈ allInterleavings gs max <-> o ∈ allInterleavings gs' max.
Proof.
  intros Hp Hne H1 H2 o.
  assert (forall a b : list (list Stop), a ≡ₚ b -> a <> [] ->
          (Z.of_nat (length (allInterleavings b max)) < max)%Z ->
          o ∈ allInterleavings a max -> o ∈ allInterleavings b max) as Hdir.
  { intros a b Hab Ha Hb Ho.
    apply allInterleavings_all_merges.
    - pose proof (Permutation_length Hab) as Hlen.
      destruct b as [|b1 [|b2 b]]; [|left; reflexivity|right; split; [simpl; lia|exact Hb]].
      apply Permutation_nil_r in Hab. congruence.
    - eapply Interleaving_Permutation; [|exact Hab]. eapply allInterleavings_merges, Ho. }
  split; apply Hdir; try assumption.
  - symmetry. exact Hp.
  - intros ->. apply Permutation_nil_r in Hp. congruence.
Qed.

(** Two running minima over the same values are equal when no value is
    NaN. *)
Lemma least_with_sentinel_unique m m' ds ds' :
  least_with_sentinel m ds -> least_with_sentinel m' ds' ->
  (forall d, d ∈ ds <-> d ∈ ds') ->
  Forall (λ d, is_nan d = false) ds ->
  (m =? m')%float = true.
Proof.
  intros ([[Hin Hlt]|[-> Hno]] & _ & Hall) ([[Hin' Hlt']|[-> Hno']] & _ & Hall') Hsame Hnan.
  - rewrite Forall_forall in Hall, Hall', Hnan.
    apply Float64.ltb_false_eqb.
    + apply Hnan, Hin.
    + apply Hnan, Hsame, Hin'.
    + apply Hall', Hsame, Hin.
    + apply Hall, Hsame, Hin'.
  - rewrite Forall_forall in Hno'. rewrite (Hno' m) in Hlt by (apply Hsame, Hin).
    discriminate.
  - rewrite Forall_forall in Hno. rewrite (Hno m') in Hlt' by (apply Hsame, Hin').
    discriminate.
  - reflexivity.
Qed.

(** Lists of stops with the same stops per contributor have the same
    groups, in some order. *)
Lemma groupStops_Permutation (stops stops' : list Stop) :
  (forall k, stops_of k stops = stops_of k stops') ->
  groupStopsByParticipant stops ≡ₚ groupStopsByParticipant stops'.
Proof.
  intros Hsame. rewrite !groupStops_groups.
  assert (contributors stops ≡ₚ contributors stops') as Hkeys.
  { apply NoDup_Permutation; try apply first_occurrences_NoDup.
    assert (forall l l', (forall k, stops_of k l = stops_of k l') ->
            forall k, k ∈ contributors l -> k ∈ contributors l') as Hdir.
    { intros l l' Hll k Hk. unfold contributors in *.
      apply first_occurrences_elem, list_elem_of_fmap in Hk as (s & -> & Hs).
      assert (s ∈ stops_of (stop_key s) l') as Hs'.
      { rewrite <- Hll. apply list_elem_of_filter. split; [reflexivity|exact Hs]. }
      apply list_elem_of_filter in Hs' as [_ Hs'].
      apply first_occurrences_elem, list_elem_of_fmap_2, Hs'. }
    intros k. split; apply Hdir; [exact Hsame|]. intros k'. symmetry. apply Hsame. }
  rewrite Hkeys. apply Permutation_refl'. apply map_ext. intros k. apply Hsame.
Qed.

Section GroupOrder.
Variable M : MathLib.

(** X21.  The score does not depend on which contributor comes first:
    two routes with the same endpoints whose stop lists hold the same stops
    per contributor, each contributor's in the same order, have equal
    scores (or NaN twice), provided fewer than [maxInterleavings] orderings
    are enumerated for each and no ordering's stop deviation is NaN. *)
Theorem CalculateDeviation_contributor_order (r1 r2 : Route) (search : SearchInput)
    (Hstart : StartLat r1 = StartLat r2 /\ StartLng r1 = StartLng r2)
    (Hend : EndLat r1 = EndLat r2 /\ EndLng r1 = EndLng r2)
    (Hstops : forall k, filter (λ s, stop_key s = k) (Stops r1)
                        = filter (λ s, stop_key s = k) (Stops r2))
    (Hcap1 : (Z.of_nat (length (enumerated r1)) < maxInterleavings)%Z)
    (Hcap2 : (Z.of_nat (length (enumerated r2)) < maxInterleavings)%Z)
    (Hnan : Forall (λ d, is_nan d = false) (stopDeviations M r1 search)) :
  (CalculateDeviation M r1 search =? CalculateDeviation M r2 search)%float = true \/
  (is_nan (CalculateDeviation M r1 search) = true /\
   is_nan (CalculateDeviation M r2 search) = true).
Proof.
  destruct Hstart as [H1 H2], Hend as [H3 H4].
  pose proof (groupStops_Permutation _ _ Hstops) as Hp.
  assert (endpointDeviation M r1 search = endpointDeviation M r2 search) as He
    by (unfold endpointDeviation; rewrite H1, H2, H3, H4; reflexivity).
  assert (forall o, stopDeviation M r1 search o = stopDeviation M r2 search o) as Hd
    by (intros o; unfold stopDeviation; rewrite H1, H2, H3, H4; reflexivity).
  rewrite !CalculateDeviation_unfold, He.
  destruct (Stops r1) as [|s1 stops1] eqn:Hs1.
  - (* no stop on either route *)
    assert (Stops r2 = []) as Hs2.
    { destruct (Stops r2) as [|s2 stops2] eqn:Hs2; [reflexivity|].
      specialize (Hstops (stop_key s2)). rewrite filter_cons, decide_True in Hstops
        by reflexivity. discriminate. }
    assert (enumerated r1 = []) as -> by (unfold enumerated; rewrite Hs1; reflexivity).
    assert (enumerated r2 = []) as -> by (unfold enumerated; rewrite Hs2; reflexivity).
    simpl. rewrite Hs2, Hd.
    destruct (is_nan (endpointDeviation M r2 search + stopDeviation M r2 search []))
      eqn:Hn; [right; auto|left; apply Float64.eqb_refl, Hn].
  - (* both routes have stops: the two enumerations hold the same orderings *)
    assert (Stops r1 <> []) as Hne1 by (rewrite Hs1; discriminate).
    rewrite <- Hs1 in *. clear Hs1 s1 stops1.
    pose proof (groupStops_nonempty _ Hne1) as Hg1.
    assert (forall o, o ∈ enumerated r1 <-> o ∈ enumerated r2) as Hsame.
    { apply allInterleavings_same_orderings; assumption. }
    assert (enumerated r1 <> []) as Hen1.
    { intros Hnil. apply Hne1. apply enumerated_nil. exact Hnil. }
    assert (enumerated r2 <> []) as Hen2.
    { destruct (enumerated r1) as [|o os] eqn:Ho; [congruence|].
      intros Hnil. rewrite Hnil in Hsame. specialize (proj1 (Hsame o) (list_elem_of_here _ _)).
      intros Hin. inversion Hin. }
    pose proof (minStopDev_least M r1 search) as Hm1.
    pose proof (minStopDev_least M r2 search) as Hm2.
    destruct (enumerated r1) as [|o1 os1] eqn:Ho1; [congruence|].
    destruct (enumerated r2) as [|o2 os2] eqn:Ho2; [congruence|].
    cbn [length Nat.eqb]. apply Float64.add_eqb.
    apply (least_with_sentinel_unique _ _ _ _ Hm1 Hm2); [|exact Hnan].
    intros d. unfold stopDeviations. rewrite Ho1, Ho2, !list_elem_of_fmap.
    split; intros (o & -> & Ho); exists o; (split; [|apply Hsame, Ho]); [|symmetry]; apply Hd.
Qed.

End GroupOrder.

(** ** Sample runs of the further properties *)

Lemma stopA_stopB_stopC_distinct : NoDup [stopA; stopB; stopC].
Proof.
  repeat (apply NoDup_cons; split;
          [intros H; repeat (apply elem_of_cons in H as [H|H]; [discriminate H|]);
           inversion H|]).
  constructor.
Qed.

(** X1 on the four candidates. *)
Lemma Search_returns_the_passing_witness :
  exists out,
    Search smallAngle insertionSort (Fetched candidates) search1 = Fetched out /\
    out ≡ₚ filter (λ r, (MaxDeviation r <? CalculateDeviation smallAngle r search1)%float
                        = false) candidates.
Proof.
  exact (Search_returns_the_passing smallAngle insertionSort insertionSort_contract
           candidates search1).
Defined.

(** X2 on a query that starts at latitude 1e308: every score is NaN, and
    the route with the threshold 5 is returned. *)
Lemma Search_keeps_nan_witness :
  exists out,
    Search smallAngle insertionSort (Fetched candidates) searchFromHuge = Fetched out /\
    route1' ∈ out.
Proof.
  apply (Search_keeps_nan smallAngle insertionSort insertionSort_contract
           candidates searchFromHuge route1').
  - do 3 apply list_elem_of_further. apply list_elem_of_here.
  - left. vm_compute. reflexivity.
Defined.

(** X5 on two stops of the same application, with a creator's stop
    between them. *)
Lemma same_group_iff_same_contributor_witness :
  exists g, g ∈ groupStopsByParticipant [stopA; stopB; stopA2] /\ stopA ∈ g /\ stopA2 ∈ g.
Proof.
  apply (same_group_iff_same_contributor [stopA; stopB; stopA2] stopA stopA2).
  - apply list_elem_of_here.
  - do 2 apply list_elem_of_further. apply list_elem_of_here.
  - reflexivity.
Defined.

(** X7 on two groups of one stop and a cap of 10. *)
Lemma allInterleavings_complete_witness :
  [stopB; stopA] ∈ allInterleavings [[stopA]; [stopB]] 10.
Proof.
  apply (allInterleavings_complete [[stopA]; [stopB]] 10).
  - right. split; [simpl; lia|]. vm_compute. reflexivity.
  - apply (Interleaving_cons _ 1 stopB [] _); [reflexivity|].
    apply (Interleaving_cons _ 0 stopA [] _); [reflexivity|].
    constructor. repeat constructor.
Defined.

(** X8 on three groups of one stop and the caps 2 and 10. *)
Lemma allInterleavings_cap_prefix_witness :
  allInterleavings [[stopA]; [stopB]; [stopC]] 2
  = take 2 (allInterleavings [[stopA]; [stopB]; [stopC]] 10).
Proof.
  apply (allInterleavings_cap_prefix [[stopA]; [stopB]; [stopC]] 2 10).
  - lia.
  - simpl. lia.
Defined.

(** X9 on three groups of one stop. *)
Lemma allInterleavings_distinct_witness :
  NoDup (allInterleavings [[stopA]; [stopB]; [stopC]] 10).
Proof.
  apply (allInterleavings_distinct [[stopA]; [stopB]; [stopC]] 10).
  exact stopA_stopB_stopC_distinct.
Defined.

(** X11 at a point near London. *)
Lemma Haversine_self_witness :
  Haversine smallAngle 51.5 (-0.125) 51.5 (-0.125) = 0%float.
Proof.
  apply (Haversine_self smallAngle eq_refl eq_refl 51.5 (-0.125)); vm_compute; reflexivity.
Defined.

(** X12 on [route1], which has two stops. *)
Lemma CalculateDeviation_no_via_points_witness :
  CalculateDeviation smallAngle route1 searchDirect
  = (endpointDeviation smallAngle route1 searchDirect + 0)%float.
Proof.
  apply (CalculateDeviation_no_via_points smallAngle route1 searchDirect). reflexivity.
Defined.

(** X13 on [route3], whose only stop is a participant's. *)
Lemma CalculateDeviation_single_contributor_witness :
  CalculateDeviation smallAngle route3 search1
  = (endpointDeviation smallAngle route3 search1 +
     (if (stopDeviation smallAngle route3 search1 [stopC] <? MaxFloat64)%float
      then stopDeviation smallAngle route3 search1 [stopC] else MaxFloat64))%float.
Proof.
  apply (CalculateDeviation_single_contributor smallAngle route3 search1).
  - discriminate.
  - intros s s' Hs Hs'. apply list_elem_of_singleton in Hs, Hs'. subst. reflexivity.
Defined.

(** X14 on two routes that list the creator's stop at different places. *)
Lemma CalculateDeviation_by_groups_witness :
  CalculateDeviation smallAngle routeMixed search1
  = CalculateDeviation smallAngle routeMixed' search1.
Proof.
  apply (CalculateDeviation_by_groups smallAngle routeMixed routeMixed' search1).
  - split; reflexivity.
  - split; reflexivity.
  - vm_compute. reflexivity.
Defined.

(** X16 on [route1], for which two orderings are enumerated. *)
Lemma given_order_enumerated_witness : [stopA; stopB] ∈ enumerated route1.
Proof.
  apply (given_order_enumerated route1).
  - discriminate.
  - vm_compute. reflexivity.
Defined.

(** X20 on the sample database. *)
Lemma Search_from_database_witness :
  exists out,
    Search smallAngle insertionSort (fetchSearchableRoutes parseBytes sampleDB) search1
    = Fetched out /\
    exists cs,
      querySearchable sampleDB = Fetched (cleanRows cs) /\
      Forall (λ r, (exists c stops,
                      c ∈ cs /\
                      fetchRouteStops parseBytes sampleDB (colID c) = Fetched stops /\
                      r = withStops (routeOfColumns parseBytes c) stops) /\
                   (MaxDeviation r <? CalculateDeviation smallAngle r search1)%float = false)
             out.
Proof.
  eexists. split; [reflexivity|].
  apply (Search_from_database smallAngle insertionSort insertionSort_contract
           parseBytes sampleDB search1).
  reflexivity.
Defined.

(** X19 on the sample database: a stop row of an unknown route is ignored. *)
Lemma fetchRoutesWithDetails_joins_witness :
  fetchRoutesWithDetails parseBytes sampleDB "SELECT" EmptyString ["u1"%string]
  = Fetched (map (routeWithDetails parseBytes batchedStopRows batchedParticipantRows)
                 [rowR1; rowR2]).
Proof.
  assert (NoDup (map colID [rowR1; rowR2])) as Hids.
  { apply NoDup_cons. split; [|apply NoDup_singleton].
    intros H. apply list_elem_of_singleton in H. discriminate H. }
  apply (fetchRoutesWithDetails_joins parseBytes sampleDB "SELECT" EmptyString ["u1"%string]
           [rowR1; rowR2] eq_refl Hids).
  - exists rowR1. apply list_elem_of_here.
  - reflexivity.
  - reflexivity.
Defined.

(** X21 on two routes that list the creator's stop first and second. *)
Lemma CalculateDeviation_contributor_order_witness :
  (CalculateDeviation smallAngle routeMixed search1
   =? CalculateDeviation smallAngle routeMixed'' search1)%float = true \/
  (is_nan (CalculateDeviation smallAngle routeMixed search1) = true /\
   is_nan (CalculateDeviation smallAngle routeMixed'' search1) = true).
Proof.
  apply (CalculateDeviation_contributor_order smallAngle routeMixed routeMixed'' search1).
  - split; reflexivity.
  - split; reflexivity.
  - intros k. change (Stops routeMixed) with [stopA; stopB; stopA2].
    change (Stops routeMixed'') with [stopB; stopA; stopA2].
    rewrite !filter_cons, !filter_nil.
    destruct (decide (stop_key stopA = k)) as [Ha|Ha],
             (decide (stop_key stopB = k)) as [Hb|Hb]; try reflexivity.
    exfalso. rewrite <- Hb in Ha. vm_compute in Ha. discriminate.
  - vm_compute. reflexivity.
  - vm_compute. reflexivity.
  - vm_compute. repeat constructor.
Defined.
